(** * Huffman coding over bytes: a shallow embedding of [huffman.py]

    The development follows the layout of the Python module:
    - [heapq]: the binary min-heap of CPython's [heapq] module, which
      [MinHeapWrapper] delegates to;
    - [PrefixTree] with its ordering [__lt__] and [find_smallest];
    - [HuffmanCode]: construction of the tree and of the codeword array,
      [encode], [decode], the padding helpers and the normaliser
      [occurrences2frequencies].

    Python exceptions are values of an error monad; the [while] loops whose
    termination is not evident from the data are given fuel.  The weights of
    the frequency table are kept abstract (a type [W] with the three
    operations the code applies to them: [+], [==] and [<]), so that what is
    proved about the tree and the code holds for Python floats as well as for
    exact numbers.  The normaliser takes its division as a parameter too;
    the division it is called with, Python's [/] on two integers, returns
    the double nearest to the exact quotient and is modelled by its value, a
    rational ([py_truediv]). *)

From Stdlib Require Import ZArith QArith Qabs Lia Lqa List Permutation.
From Stdlib Require Import Floats Uint63.
From Stdlib.Strings Require Import Byte.
From stdpp Require Import base list.

Close Scope Q_scope.
Close Scope float_scope.
Close Scope uint63_scope.
Local Open Scope nat_scope.

(** ** Exceptions and results *)

Inductive exn : Type :=
| IndexError
| ValueError
| TypeError.

Inductive result (A : Type) : Type :=
| Ok (a : A)
| Raise (e : exn).

Arguments Ok {A} a.
Arguments Raise {A} e.

Definition bind {A B : Type} (m : result A) (k : A -> result B) : result B :=
  match m with
  | Ok a => k a
  | Raise e => Raise e
  end.

Notation "'let*' x ':=' m 'in' k" := (bind m (fun x => k))
  (at level 10, x pattern, m at level 100, k at level 200).

#[global] Instance byte_eq_decision : EqDecision byte := Byte.byte_eq_dec.

(** A bit string ([bitstring.BitStream]) is the list of its bits, first bit
    first. *)
Abbreviation BitStream := (list bool).

(** ** The heap of [heapq]

    [heapq] works on a Python list in place; here every operation returns the
    new list.  The two sifting loops are those of CPython's [_heapq]
    accelerator, which exchanges the two slots at every step (the pure
    Python fallback keeps the moving item in a local variable and writes it
    once at the end: same comparisons, same final list). *)

Module heapq.
Section heapq.
Context {T : Type}.
Variable lt : T -> T -> bool.

(** [heap[i], heap[j] = heap[j], heap[i]] *)
Definition swap (heap : list T) (i j : nat) : list T :=
  match heap !! i, heap !! j with
  | Some a, Some b => <[i := b]> (<[j := a]> heap)
  | _, _ => heap
  end.

(** [_siftdown(heap, startpos, pos)]: follow the path to the root, moving
    parents down until the new item fits.  [pos] decreases at every
    iteration, so [pos] units of fuel are enough. *)
Fixpoint siftdown (fuel : nat) (heap : list T) (startpos pos : nat) : list T :=
  match fuel with
  | O => heap
  | S fuel' =>
      if bool_decide (startpos < pos) then
        let parentpos := (pos - 1) / 2 in
        match heap !! pos, heap !! parentpos with
        | Some newitem, Some parent =>
            if lt newitem parent
            then siftdown fuel' (swap heap parentpos pos) startpos parentpos
            else heap
        | _, _ => heap
        end
      else heap
  end.

(** First loop of [_siftup(heap, pos)]: bubble the smaller child up until
    a leaf is hit; returns the list and the position of that leaf. *)
Fixpoint siftup_leaf (fuel : nat) (heap : list T) (pos : nat) : list T * nat :=
  match fuel with
  | O => (heap, pos)
  | S fuel' =>
      let childpos := 2 * pos + 1 in
      match heap !! childpos with
      | Some child =>
          let rightpos := childpos + 1 in
          let childpos :=
            match heap !! rightpos with
            | Some rchild => if negb (lt child rchild) then rightpos else childpos
            | None => childpos
            end in
          siftup_leaf fuel' (swap heap pos childpos) childpos
      | None => (heap, pos)
      end
  end.

(** [_siftup(heap, pos)] *)
Definition siftup (heap : list T) (pos : nat) : list T :=
  let '(heap', leafpos) := siftup_leaf (length heap) heap pos in
  siftdown leafpos heap' pos leafpos.

(** [heapify(x)]: [for i in reversed(range(n//2)): _siftup(x, i)].  (Above
    2500 items CPython runs the same sifts in another order; a dictionary
    keyed by single bytes has at most 256.) *)
Definition heapify (x : list T) : list T :=
  fold_left siftup (rev (seq 0 (length x / 2))) x.

(** [heappush(heap, item)] *)
Definition heappush (heap : list T) (item : T) : list T :=
  let heap' := heap ++ [item] in
  siftdown (length heap' - 1) heap' 0 (length heap' - 1).

(** [heappop(heap)]: the popped item and the remaining heap; [IndexError]
    on the empty list. *)
Definition heappop (heap : list T) : result (T * list T) :=
  match last heap with
  | None => Raise IndexError
  | Some lastelt =>
      match removelast heap with
      | [] => Ok (lastelt, [])
      | returnitem :: rest => Ok (returnitem, siftup (lastelt :: rest) 0)
      end
  end.

(** *** Heap order

    The order used by [heapq] is [not (b < a)], written [le a b].  Slot [c]
    is a child of slot [p] when [c = 2*p+1] or [c = 2*p+2]; a list is in heap
    order from slot [k] on when every slot [p >= k] is [le] its children. *)

Definition le (a b : T) : Prop := lt b a = false.

Definition child (p c : nat) : Prop := c = 2 * p + 1 \/ c = 2 * p + 2.

Definition ordered_at (heap : list T) (p c : nat) : Prop :=
  forall x y, heap !! p = Some x -> heap !! c = Some y -> le x y.

Definition heap_from (k : nat) (heap : list T) : Prop :=
  forall p c, k <= p -> child p c -> ordered_at heap p c.

Definition is_heap (heap : list T) : Prop := heap_from 0 heap.

(** Invariants of the two sifting loops, while the moving item sits in slot
    [cur]: every parent-child pair not involving [cur] is ordered
    ([ordered_around]), or every pair whose child is not [cur]
    ([ordered_except]); and the parent of [cur] is [le] the children of
    [cur] ([grand_ordered]). *)

Definition ordered_around (k : nat) (heap : list T) (cur : nat) : Prop :=
  forall p c, k <= p -> child p c -> c <> cur -> p <> cur -> ordered_at heap p c.

Definition ordered_except (k : nat) (heap : list T) (cur : nat) : Prop :=
  forall p c, k <= p -> child p c -> c <> cur -> ordered_at heap p c.

Definition grand_ordered (k : nat) (heap : list T) (cur : nat) : Prop :=
  forall g c, k <= g -> child g cur -> child cur c -> ordered_at heap g c.

(** The slots of the subtree rooted at slot [k]. *)
Inductive below (k : nat) : nat -> Prop :=
| below_root : below k k
| below_child p c : below k p -> child p c -> below k c.

End heapq.
End heapq.

(** ** Python values met by [find_smallest]

    [find_smallest] returns either the integer sentinel it was given or a
    symbol (a [bytes] object of length one). *)

Inductive pyval : Type :=
| PyInt (n : Z)
| PyBytes (b : byte).

(** The integer of a one-byte [bytes] object: [int.from_bytes(s, "little")]. *)
Definition int_from_bytes (s : byte) : Z := Z.of_N (Byte.to_N s).

(** [a < b] on these values.  Python compares two integers by value and two
    [bytes] objects lexicographically (by value for one byte); it raises
    [TypeError] on a mixed pair, a case that [find_smallest_1000] below shows
    is never reached from [__lt__], and for which [false] is returned here. *)
Definition py_lt (a b : pyval) : bool :=
  match a, b with
  | PyInt x, PyInt y => (x <? y)%Z
  | PyBytes x, PyBytes y => (int_from_bytes x <? int_from_bytes y)%Z
  | _, _ => false
  end.

(** [min(a, b)]: the first of the two unless the second is smaller. *)
Definition py_min (a b : pyval) : pyval :=
  if py_lt b a then b else a.

(** ** [class PrefixTree] *)

Section PrefixTree.
Context {W : Type}.
Variable wadd : W -> W -> W.
Variable weqb : W -> W -> bool.
Variable wltb : W -> W -> bool.

(** A node built by [PrefixTree(f, b)] carries a symbol and no children; a
    node built by [fromTwoTrees] carries the symbol [""] and two children.
    [isSingleton] tells them apart by that symbol. *)
Inductive PrefixTree : Type :=
| Leaf (frequency : W) (symbol : byte)
| Node (frequency : W) (lChild rChild : PrefixTree).

Definition key (t : PrefixTree) : W :=
  match t with
  | Leaf frequency _ => frequency
  | Node frequency _ _ => frequency
  end.

Definition isSingleton (t : PrefixTree) : bool :=
  match t with
  | Leaf _ _ => true
  | Node _ _ _ => false
  end.

Definition fromTwoTrees (t1 t2 : PrefixTree) : PrefixTree :=
  let root_key := wadd (key t1) (key t2) in
  Node root_key t1 t2.

(** [find_smallest]; the loop written after its two [return]s is never run. *)
Fixpoint find_smallest (self : PrefixTree) (smallest : Z) : pyval :=
  match self with
  | Leaf _ symbol =>
      if (int_from_bytes symbol <? smallest)%Z
      then PyBytes symbol
      else PyInt smallest
  | Node _ lChild rChild =>
      let s1 := find_smallest lChild smallest in
      let s2 := find_smallest rChild smallest in
      py_min s1 s2
  end.

(** [PrefixTree.__lt__] *)
Definition PrefixTree_lt (self other : PrefixTree) : bool :=
  if weqb (key self) (key other) then
    let s1 := find_smallest self 1000 in
    let s2 := find_smallest other 1000 in
    py_lt s1 s2
  else wltb (key self) (key other).

(** ** [class MinHeapWrapper]: a list kept in heap order by [heapq] *)

Definition MinHeapWrapper : Type := list PrefixTree.

Definition MinHeapWrapper_init (unsortedTrees : list PrefixTree) : MinHeapWrapper :=
  heapq.heapify PrefixTree_lt unsortedTrees.

Definition isEmpty (m : MinHeapWrapper) : bool := bool_decide (length m = 0).

Definition push (m : MinHeapWrapper) (t : PrefixTree) : MinHeapWrapper :=
  heapq.heappush PrefixTree_lt m t.

Definition popMin (m : MinHeapWrapper) : result (PrefixTree * MinHeapWrapper) :=
  heapq.heappop PrefixTree_lt m.

Definition size (m : MinHeapWrapper) : nat := length m.

(** ** [class HuffmanCode]

    The object keeps the tree and the array of the 256 codewords (and a
    constant [EPSILON] that no method reads). *)

Record HuffmanCode : Type := {
  tree : PrefixTree;
  code_array : list BitStream
}.

(** [symbols[i] = x] on a Python list: [IndexError] out of range. *)
Definition list_assign {A : Type} (l : list A) (i : nat) (x : A) : result (list A) :=
  if bool_decide (i < length l) then Ok (<[i := x]> l) else Raise IndexError.

Fixpoint search_tree (t : PrefixTree) (bitseq : BitStream) (symbols : list BitStream)
  : result (list BitStream) :=
  match t with
  | Leaf _ s => list_assign symbols (Z.to_nat (int_from_bytes s)) bitseq
  | Node _ t1 t2 =>
      let b1 := bitseq ++ [false] in
      let b2 := bitseq ++ [true] in
      let* symbols := search_tree t1 b1 symbols in
      let* symbols := search_tree t2 b2 symbols in
      Ok symbols
  end.

(** The loop [while m.size() > 1] of [__init__].  Every iteration shortens
    the heap by one, so [size m] units of fuel are enough
    ([merge_loop_spec]); the blank line printed when the size is 4 is not
    modelled. *)
Fixpoint merge_loop (fuel : nat) (m : MinHeapWrapper) : result MinHeapWrapper :=
  match fuel with
  | O => Ok m
  | S fuel' =>
      if bool_decide (1 < size m) then
        let* (t1, m) := popMin m in
        let* (t2, m) := popMin m in
        let t3 := fromTwoTrees t1 t2 in
        merge_loop fuel' (push m t3)
      else Ok m
  end.

(** [HuffmanCode.__init__].  The frequency table is a Python dictionary:
    the list of its items in insertion order, keys pairwise distinct. *)
Definition HuffmanCode_init (frequencyTable : list (byte * W)) : result HuffmanCode :=
  let heap := map (fun '(b, f) => Leaf f b) frequencyTable in
  let m := MinHeapWrapper_init heap in
  let* m := merge_loop (size m) m in
  let* (tree, _) := popMin m in
  let symbols := replicate 256 ([] : BitStream) in
  let e : BitStream := [] in
  let* code_array := search_tree tree e symbols in
  Ok {| tree := tree; code_array := code_array |}.

Definition codewordFor (self : HuffmanCode) (symbol : byte) : result BitStream :=
  match code_array self !! Z.to_nat (int_from_bytes symbol) with
  | Some c => Ok c
  | None => Raise IndexError
  end.

(** [paddingSuitableFor]: a 1 and then as many 0s as necessary. *)
Definition paddingSuitableFor (bits : BitStream) : BitStream :=
  let n := Z.of_nat (length bits) in
  let n := (8 - (n - (n / 8) * 8))%Z in
  if (0 <? n)%Z then true :: replicate (Z.to_nat (n - 1)) false else [].

Fixpoint encode_loop (self : HuffmanCode) (plaintextBytes : list byte) (ret : BitStream)
  : result BitStream :=
  match plaintextBytes with
  | [] => Ok ret
  | byte :: rest =>
      let* c := codewordFor self byte in
      encode_loop self rest (ret ++ c)
  end.

Definition encode (self : HuffmanCode) (plaintextBytes : list byte) : result BitStream :=
  let* ret := encode_loop self plaintextBytes [] in
  let padding := paddingSuitableFor ret in
  Ok (ret ++ padding).

(** [removePadding], on the reversed bit string: [bits[-1]] is its head and
    [bits[:-1]] its tail.  [bits[-1]] raises [IndexError] on the empty
    bit string. *)
Fixpoint removePadding_rev (stib : list bool) : result (list bool) :=
  match stib with
  | [] => Raise IndexError
  | false :: stib' => removePadding_rev stib'
  | true :: stib' => Ok stib'
  end.

Definition removePadding (bits : BitStream) : result BitStream :=
  let* stib := removePadding_rev (rev bits) in
  Ok (rev stib).

(** [traverseTree], from the node [t]; [codeWord[0]] raises [IndexError] on
    the empty bit string. *)
Fixpoint traverseTree_from (t : PrefixTree) (codeWord : BitStream)
  : result (byte * BitStream) :=
  match t with
  | Leaf _ symbol => Ok (symbol, codeWord)
  | Node _ lChild rChild =>
      match codeWord with
      | [] => Raise IndexError
      | false :: codeWord' => traverseTree_from lChild codeWord'
      | true :: codeWord' => traverseTree_from rChild codeWord'
      end
  end.

Definition traverseTree (self : HuffmanCode) (codeWord : BitStream)
  : result (byte * BitStream) :=
  traverseTree_from (tree self) codeWord.

(** The loop [while len(encodedBits) > 0] of [decode]; [None] when the fuel
    runs out. *)
Fixpoint decode_loop (fuel : nat) (self : HuffmanCode) (encodedBits : BitStream)
    (byteArray : list byte) : option (result (list byte)) :=
  match encodedBits with
  | [] => Some (Ok byteArray)
  | _ :: _ =>
      match fuel with
      | O => None
      | S fuel' =>
          match traverseTree self encodedBits with
          | Ok (symbol, encodedBits) =>
              decode_loop fuel' self encodedBits (byteArray ++ [symbol])
          | Raise e => Some (Raise e)
          end
      end
  end.

Definition decode (fuel : nat) (self : HuffmanCode) (encodedAndPaddedBits : BitStream)
  : option (result (list byte)) :=
  match removePadding encodedAndPaddedBits with
  | Ok encodedBits => decode_loop fuel self encodedBits []
  | Raise e => Some (Raise e)
  end.

End PrefixTree.

Arguments Leaf {W} frequency symbol.
Arguments Node {W} frequency lChild rChild.

(** [occurrences2frequencies]: the counts are Python integers, and
    [occurrences[o]/total] is Python's true division of two integers, kept as
    a parameter [wdiv] like the other operations on weights.  The two [print]
    calls are not modelled. *)
Section normaliser.
Context {W : Type}.
Variable wdiv : Z -> Z -> W.

Definition occurrences2frequencies (occurrences : list (byte * Z))
  : result (list (byte * W)) :=
  let total := fold_left (fun total '(_, v) => (total + v)%Z) occurrences 0%Z in
  if (total =? 0)%Z then Raise ValueError
  else Ok (map (fun '(o, v) => (o, wdiv v total)) occurrences).

End normaliser.

(** The total of the counts of an occurrence table. *)
Definition total_occurrences (occurrences : list (byte * Z)) : Z :=
  fold_right Z.add 0%Z (map snd occurrences).

(** ** Notions used to state the properties *)

Section notions.
Context {W : Type}.

(** The symbols at the leaves of a tree, left to right. *)
Fixpoint leaves (t : PrefixTree (W := W)) : list byte :=
  match t with
  | Leaf _ symbol => [symbol]
  | Node _ lChild rChild => leaves lChild ++ leaves rChild
  end.

(** The symbol found by following [path] from the root of [t] (0 to the left
    child, 1 to the right child), when [path] ends exactly at a leaf. *)
Fixpoint lookup_path (t : PrefixTree (W := W)) (path : BitStream) : option byte :=
  match t, path with
  | Leaf _ symbol, [] => Some symbol
  | Node _ lChild rChild, false :: path' => lookup_path lChild path'
  | Node _ lChild rChild, true :: path' => lookup_path rChild path'
  | _, _ => None
  end.

(** The pairs (first popped, second popped) of all the merges that built a
    tree: the children of each of its internal nodes. *)
Fixpoint merges (t : PrefixTree (W := W)) : list (PrefixTree (W := W) * PrefixTree (W := W)) :=
  match t with
  | Leaf _ _ => []
  | Node _ lChild rChild => (lChild, rChild) :: merges lChild ++ merges rChild
  end.

(** The numerically smallest symbol over all the leaves of a tree. *)
Fixpoint smallest_symbol (t : PrefixTree (W := W)) : Z :=
  match t with
  | Leaf _ symbol => int_from_bytes symbol
  | Node _ lChild rChild => Z.min (smallest_symbol lChild) (smallest_symbol rChild)
  end.

(** Every merge that built [t] put the lesser tree, in the order [lt], on the
    left. *)
Definition merges_ordered (lt : PrefixTree (W := W) -> PrefixTree (W := W) -> bool)
    (t : PrefixTree (W := W)) : Prop :=
  forall l r, (l, r) ∈ merges t -> lt l r = true.

(** A dictionary has pairwise distinct keys. *)
Fixpoint distinct (keys : list byte) : bool :=
  match keys with
  | [] => true
  | k :: keys' => negb (existsb (Byte.eqb k) keys') && distinct keys'
  end.

(** The shape of a frequency table as [__init__] documents it: a dictionary
    with 256 items, indexed by all the byte values. *)
Definition is_frequency_table (frequencyTable : list (byte * W)) : bool :=
  bool_decide (length frequencyTable = 256) && distinct (map fst frequencyTable).

(** What the code needs of [==] and [<] on weights for the heap to work: a
    strict total order up to [==] (as on Python floats other than NaN). *)
Record weight_order (weqb wltb : W -> W -> bool) : Prop := {
  weq_refl : forall a, weqb a a = true;
  weq_sym : forall a b, weqb a b = true -> weqb b a = true;
  weq_trans : forall a b c, weqb a b = true -> weqb b c = true -> weqb a c = true;
  wlt_irrefl : forall a b, weqb a b = true -> wltb a b = false;
  wlt_trans : forall a b c, wltb a b = true -> wltb b c = true -> wltb a c = true;
  wlt_total : forall a b, weqb a b = false -> wltb a b = false -> wltb b a = true;
  wlt_compat_l : forall a b c, weqb a b = true -> wltb a c = wltb b c;
  wlt_compat_r : forall a b c, weqb a b = true -> wltb c a = wltb c b
}.

(** *** The decoder of the specification, as a state machine

    The state is the current tree position: at the root, or at an internal
    node below it.  A bit moves to a child; reaching a leaf emits its symbol
    and resets the position to the root.  The run succeeds when the bits end
    with the position at the root, and signals a truncated code otherwise. *)

Inductive position : Type :=
| AtRoot
| Inside (t : PrefixTree (W := W)).

Definition sm_step (root : PrefixTree (W := W)) (st : position) (b : bool)
  : position * list byte :=
  match (match st with AtRoot => root | Inside t => t end) with
  | Leaf _ _ => (st, [])
  | Node _ lChild rChild =>
      match (if b then rChild else lChild) with
      | Leaf _ symbol => (AtRoot, [symbol])
      | Node _ _ _ as next => (Inside next, [])
      end
  end.

Fixpoint sm_run (root : PrefixTree (W := W)) (st : position) (bits : BitStream)
  : position * list byte :=
  match bits with
  | [] => (st, [])
  | b :: bits' =>
      let '(st', emitted) := sm_step root st b in
      let '(final, out) := sm_run root st' bits' in
      (final, emitted ++ out)
  end.

Definition sm_decode (root : PrefixTree (W := W)) (payload : BitStream)
  : result (list byte) :=
  match sm_run root AtRoot payload with
  | (AtRoot, out) => Ok out
  | (Inside _, _) => Raise IndexError
  end.

End notions.

(** ** Exact weights: the rationals *)

Definition Qltb (a b : Q) : bool := negb (Qle_bool b a).

Definition Qsum (l : list Q) : Q := fold_right Qplus 0%Q l.

Definition byte_of_nat (n : nat) : byte :=
  match Byte.of_nat n with
  | Some b => b
  | None => x00
  end.

(** The uniform table: every byte with weight 1/256. *)
Definition uniform_table : list (byte * Q) :=
  map (fun n => (byte_of_nat n, (1 # 256)%Q)) (seq 0 256).

(** A table that gives weight 0 to the byte 0, 2/256 to the byte 1 and 1/256
    to every other byte. *)
Definition zero_weight_table : list (byte * Q) :=
  map (fun n => (byte_of_nat n,
                 if n =? 0 then 0%Q else if n =? 1 then (2 # 256)%Q else (1 # 256)%Q))
      (seq 0 256).

(** The table [{A: 1/3, B: 1/3, C: 1/3}]. *)
Definition ABC_table : list (byte * Q) :=
  [(x41, (1 # 3)%Q); (x42, (1 # 3)%Q); (x43, (1 # 3)%Q)].

(** The code built from a table, when the construction succeeds. *)
Definition code_of (frequencyTable : list (byte * Q)) : HuffmanCode (W := Q) :=
  match HuffmanCode_init Qplus Qeq_bool Qltb frequencyTable with
  | Ok h => h
  | Raise _ => {| tree := Leaf 0%Q x00; code_array := [] |}
  end.

(** The codeword of a symbol, when the lookup succeeds. *)
Definition codeword_of (self : HuffmanCode (W := Q)) (symbol : byte) : BitStream :=
  match codewordFor self symbol with
  | Ok c => c
  | Raise _ => []
  end.

(** The occurrence table [{A: 3, B: 3, C: 3}]. *)
Definition ABC_occurrences : list (byte * Z) :=
  [(x41, 3%Z); (x42, 3%Z); (x43, 3%Z)].

(** ** Rounded weights: IEEE doubles

    Python's float of a small non-negative integer, and its true division of
    two such integers: below 2^53 the conversions are exact and the quotient
    is the IEEE quotient of the two floats. *)

Definition float_of_int (z : Z) : float := PrimFloat.of_uint63 (Uint63.of_Z z).

Definition float_div_int (a b : Z) : float :=
  PrimFloat.div (float_of_int a) (float_of_int b).

(** The exact value of a finite float. *)
Definition Q_of_float (f : float) : Q :=
  match Prim2SF f with
  | S754_finite s m e =>
      let v := (inject_Z (Zpos m) * Qpower 2 e)%Q in
      if s then Qopp v else v
  | _ => 0%Q
  end.

(** The occurrence table of a text made of the ten bytes 0 to 9, once each:
    count 1 for them, 0 for the other 246 bytes. *)
Definition ten_occurrences : list (byte * Z) :=
  map (fun n => (byte_of_nat n, if n <? 10 then 1%Z else 0%Z)) (seq 0 256).

(** What the normaliser returns for it on floats: 1/10 rounded, and 0. *)
Definition ten_frequencies : list (byte * float) :=
  map (fun n => (byte_of_nat n,
                 if n <? 10 then float_div_int 1 10 else float_div_int 0 10))
      (seq 0 256).

(** A table of exact weights with its weights turned into floats (exactly,
    for the dyadic weights of the tables above). *)
Definition float_table (frequencyTable : list (byte * Q)) : list (byte * float) :=
  map (fun '(b, q) => (b, float_div_int (Qnum q) (Zpos (Qden q)))) frequencyTable.

(** The code built from a table of floats, when the construction succeeds. *)
Definition float_code_of (frequencyTable : list (byte * float)) : HuffmanCode (W := float) :=
  match HuffmanCode_init PrimFloat.add PrimFloat.eqb PrimFloat.ltb frequencyTable with
  | Ok h => h
  | Raise _ => {| tree := Leaf 0%float x00; code_array := [] |}
  end.

(** The table that [occurrences2frequencies] returns on floats for the
    occurrences [{A: 3, B: 3, C: 3}]. *)
Definition ABC_float_table : list (byte * float) :=
  [(x41, float_div_int 3 9); (x42, float_div_int 3 9); (x43, float_div_int 3 9)].

(** ** [makeOccurrencesTable]

    A Python dictionary keyed by bytes is the list of its items in insertion
    order: [k in d.keys()], [d[k]] and [d[k] = v], which keeps the place of a
    key already present and appends a new one. *)

Section dict.
Context {A : Type}.

Fixpoint dict_get (d : list (byte * A)) (k : byte) : option A :=
  match d with
  | [] => None
  | (k', v) :: d' => if Byte.eqb k' k then Some v else dict_get d' k
  end.

Definition dict_mem (d : list (byte * A)) (k : byte) : bool :=
  match dict_get d k with
  | Some _ => true
  | None => false
  end.

Fixpoint dict_set (d : list (byte * A)) (k : byte) (v : A) : list (byte * A) :=
  match d with
  | [] => [(k, v)]
  | (k', v') :: d' =>
      if Byte.eqb k' k then (k', v) :: d' else (k', v') :: dict_set d' k v
  end.

End dict.

(** The first loop of [makeOccurrencesTable]: count every symbol of the
    sequence. *)
Definition count_symbols (symbols : list byte) : list (byte * Z) :=
  fold_left
    (fun ret s =>
       match dict_get ret s with
       | Some v => dict_set ret s (v + 1)%Z
       | None => dict_set ret s 1%Z
       end)
    symbols [].

(** The second loop: [for i in range(256)], give the count 0 to the bytes
    that have none. *)
Definition fill_zeros (ret : list (byte * Z)) : list (byte * Z) :=
  fold_left
    (fun ret i =>
       let b := byte_of_nat i in
       if negb (dict_mem ret b) then dict_set ret b 0%Z else ret)
    (seq 0 256) ret.

Definition makeOccurrencesTable (symbols : list byte) : list (byte * Z) :=
  fill_zeros (count_symbols symbols).

(** The number of occurrences of a byte in a sequence. *)
Definition occurrences_of (b : byte) (symbols : list byte) : Z :=
  Z.of_nat (count_occ Byte.byte_eq_dec symbols b).

(** ** Notions about the weights of a tree *)

Section weights.
Context {W : Type}.
Variable wadd : W -> W -> W.

(** The items (symbol, weight) at the leaves of a tree, left to right. *)
Fixpoint leaf_items (t : PrefixTree (W := W)) : list (byte * W) :=
  match t with
  | Leaf frequency symbol => [(symbol, frequency)]
  | Node _ lChild rChild => leaf_items lChild ++ leaf_items rChild
  end.

(** Every internal node carries the sum of the weights of its two
    children. *)
Fixpoint well_weighted (t : PrefixTree (W := W)) : Prop :=
  match t with
  | Leaf _ _ => True
  | Node frequency lChild rChild =>
      frequency = wadd (key lChild) (key rChild) /\
      well_weighted lChild /\ well_weighted rChild
  end.

End weights.

(** ** The tree builder of the specification

    The construction as the specification words it, to compare [__init__]
    with: a priority queue kept as a plain list, from which the least node
    is taken by a linear search; the two least nodes are merged, first popped
    to the left, and the result is put back, until one node remains. *)

Section spec_builder.
Context {W : Type}.
Variable wadd : W -> W -> W.
Variable weqb : W -> W -> bool.
Variable wltb : W -> W -> bool.

(** A node is lesser than another when its weight is less or, the weights
    being equal, when its subtree contains the numerically smaller symbol. *)
Definition spec_lesser (a b : PrefixTree (W := W)) : bool :=
  if weqb (key a) (key b)
  then (smallest_symbol a <? smallest_symbol b)%Z
  else wltb (key a) (key b).

(** Pop the minimum of the queue: a node that no node of the queue is lesser
    than, and the queue without it. *)
Fixpoint spec_pop (queue : list (PrefixTree (W := W)))
  : option (PrefixTree (W := W) * list (PrefixTree (W := W))) :=
  match queue with
  | [] => None
  | t :: queue' =>
      match spec_pop queue' with
      | Some (u, rest) =>
          if spec_lesser u t then Some (u, t :: rest) else Some (t, queue')
      | None => Some (t, [])
      end
  end.

(** Repeatedly pop the two minimum nodes, merge them (weight = sum, left =
    first popped, right = second popped) and push the result back, until
    exactly one node remains: the root.  Every round shortens the queue by
    one node, so as many rounds as the queue has nodes are enough. *)
Fixpoint spec_builder (rounds : nat) (queue : list (PrefixTree (W := W)))
  : option (PrefixTree (W := W)) :=
  match rounds with
  | O => None
  | S rounds' =>
      match spec_pop queue with
      | None => None
      | Some (first, queue1) =>
          match spec_pop queue1 with
          | None => Some first
          | Some (second, queue2) =>
              spec_builder rounds'
                (Node (wadd (key first) (key second)) first second :: queue2)
          end
      end
  end.

(** Seed the queue with one leaf per symbol and build. *)
Definition spec_tree (frequencyTable : list (byte * W)) : option (PrefixTree (W := W)) :=
  spec_builder (length frequencyTable)
    (map (fun '(b, f) => Leaf f b) frequencyTable).

End spec_builder.

(** ** Python's true division of two integers

    [a / b] on two Python integers is the double nearest to the exact
    quotient, ties going to the even significand (CPython's
    [long_true_divide] rounds once, correctly, whatever the size of the
    integers).  A double is modelled by its value, a rational.  The two
    exceptions of the operator are not modelled: [ZeroDivisionError], which
    [occurrences2frequencies] cannot meet since it raises [ValueError] first
    when the total is 0, and [OverflowError], raised when the quotient rounds
    to 2^1024 or more, which needs a count larger in magnitude than the
    total, hence a negative count in the table; there the value below is the
    rounding with no bound on the exponent, and 0 for a zero divisor. *)

(** The integer nearest to [num/den], for [den > 0]; ties go to the even
    one. *)
Definition round_half_even (num den : Z) : Z :=
  let q := (num / den)%Z in
  match (2 * (num mod den) ?= den)%Z with
  | Lt => q
  | Eq => if Z.even q then q else (q + 1)%Z
  | Gt => (q + 1)%Z
  end.

(** The exponent [e] of the binade of [n/d], for [n, d > 0]:
    [2^e <= n/d < 2^(e+1)]. *)
Definition binade (n d : Z) : Z :=
  let e := (Z.log2 n - Z.log2 d)%Z in
  if (0 <=? e)%Z
  then (if (d * 2 ^ e <=? n)%Z then e else e - 1)%Z
  else (if (d <=? n * 2 ^ (- e))%Z then e else e - 1)%Z.

(** The double nearest to [n/d], for [n, d > 0]: a multiple of [2^u], where
    [u] is 52 below the binade of the quotient (53 significant bits) and at
    least -1074 (the subnormal doubles). *)
Definition nearest_double (n d : Z) : Q :=
  let u := (Z.max (binade n d) (-1022) - 52)%Z in
  if (0 <=? u)%Z
  then inject_Z (round_half_even n (d * 2 ^ u) * 2 ^ u)
  else (inject_Z (round_half_even (n * 2 ^ (- u)) d) / inject_Z (2 ^ (- u)))%Q.

Definition py_truediv (a b : Z) : Q :=
  if ((a =? 0) || (b =? 0))%Z then 0%Q
  else if (Z.sgn a =? Z.sgn b)%Z then nearest_double (Z.abs a) (Z.abs b)
  else (- nearest_double (Z.abs a) (Z.abs b))%Q.

(** The unit roundoff of the doubles, 2^-53, and half the least positive
    double, 2^-1075. *)
Definition unit_roundoff : Q := (1 # 2 ^ 53)%Q.
Definition half_least_double : Q := (1 # 2 ^ 1075)%Q.

(** The value of a float of the specification of IEEE 754 in the library. *)
Definition Q_of_spec_float (x : spec_float) : Q :=
  match x with
  | S754_finite s m e =>
      let v := (inject_Z (Zpos m) * Qpower 2 e)%Q in
      if s then Qopp v else v
  | _ => 0%Q
  end.

(** Pairs of integers on which the model is compared with the division of
    the machine's doubles: all pairs up to 40, and some where the rounding
    matters. *)
Definition division_samples : list (Z * Z) :=
  flat_map (fun a => map (fun b => (Z.of_nat a, Z.of_nat (S b))) (seq 0 40)) (seq 0 40)
  ++ [(1, 10); (3, 9); (2 ^ 53 - 1, 2 ^ 53 - 3); (1, 2 ^ 62); (2 ^ 62 - 1, 3);
      (123456789, 987654321); (9007199254740991, 9007199254740990);
      (4503599627370497, 2); (9007199254740991, 7); (1, 3); (2, 3);
      (5, 9007199254740991)]%Z.

(** Pairs [(n, j)] on which the rounding of [n / 2^j] is compared with the
    rounding of the library's specification: around the least normal
    double and below. *)
Definition rounding_samples : list (Z * Z) :=
  flat_map (fun n => map (fun j => (Z.of_nat (S n), (1066 + Z.of_nat j)%Z)) (seq 0 14))
    (seq 0 12)
  ++ [(2 ^ 53 + 1, 1074); (2 ^ 53 + 1, 1075); (2 ^ 54 + 2, 1076); (2 ^ 60 + 3, 1100);
      (2 ^ 60 + 2 ^ 7, 1134); (2 ^ 60 + 2 ^ 7 + 1, 1134); (2 ^ 60 + 3 * 2 ^ 6, 1134);
      (2 ^ 53 + 1, 0); (2 ^ 53 + 3, 0); (2 ^ 54 + 2, 3); (2 ^ 54 - 1, 60)]%Z.

(** * Properties of the heap *)

Section heapq_facts.
Context {T : Type}.
Variable lt : T -> T -> bool.
Implicit Types (heap : list T) (i j k p c : nat).

Local Abbreviation swap := (@heapq.swap T).
Local Abbreviation siftdown := (heapq.siftdown lt).
Local Abbreviation siftup_leaf := (heapq.siftup_leaf lt).
Local Abbreviation siftup := (heapq.siftup lt).
Local Abbreviation heapify := (heapq.heapify lt).
Local Abbreviation heappush := (heapq.heappush lt).
Local Abbreviation heappop := (heapq.heappop lt).

(** *** The operations permute the list *)

Lemma length_swap heap i j : length (swap heap i j) = length heap.
Proof.
  unfold heapq.swap.
  destruct (heap !! i), (heap !! j); rewrite ?length_insert; reflexivity.
Qed.

Lemma lookup_swap heap i j k a b :
  heap !! i = Some a -> heap !! j = Some b ->
  swap heap i j !! k =
    if decide (k = i) then Some b
    else if decide (k = j) then Some a
    else heap !! k.
Proof.
  intros Hi Hj. unfold heapq.swap. rewrite Hi, Hj.
  apply lookup_lt_Some in Hi as Hli. apply lookup_lt_Some in Hj as Hlj.
  destruct (decide (k = i)) as [->|Hki].
  - apply list_lookup_insert_eq. rewrite length_insert. exact Hli.
  - rewrite list_lookup_insert_ne by congruence.
    destruct (decide (k = j)) as [->|Hkj].
    + apply list_lookup_insert_eq. exact Hlj.
    + apply list_lookup_insert_ne. congruence.
Qed.

Lemma insert_cons_perm (l : list T) i a b :
  l !! i = Some a -> a :: <[i := b]> l ≡ₚ b :: l.
Proof.
  revert i. induction l as [|x l IH]; intros [|i] Hi; simpl in *; try discriminate.
  - injection Hi as ->. apply perm_swap.
  - rewrite perm_swap. rewrite (IH i Hi). apply perm_swap.
Qed.

Lemma swap_perm heap i j : swap heap i j ≡ₚ heap.
Proof.
  unfold heapq.swap.
  destruct (heap !! i) as [a|] eqn:Hi; [|reflexivity].
  destruct (heap !! j) as [b|] eqn:Hj; [|reflexivity].
  destruct (decide (i = j)) as [->|Hij].
  - rewrite list_insert_insert_eq. replace b with a by congruence.
    rewrite list_insert_id by exact Hi. reflexivity.
  - apply (Permutation_cons_inv (a := a)).
    rewrite insert_cons_perm.
    + apply insert_cons_perm. exact Hj.
    + rewrite list_lookup_insert_ne by congruence. exact Hi.
Qed.

Lemma siftdown_perm fuel heap startpos pos :
  siftdown fuel heap startpos pos ≡ₚ heap.
Proof.
  revert heap pos. induction fuel as [|fuel IH]; intros heap pos;
    cbn [heapq.siftdown]; [reflexivity|].
  destruct (bool_decide (startpos < pos)); [|reflexivity].
  destruct (heap !! pos) as [newitem|]; [|reflexivity].
  destruct (heap !! ((pos - 1) / 2)) as [parent|]; [|reflexivity].
  destruct (lt newitem parent); [|reflexivity].
  rewrite IH. apply swap_perm.
Qed.

Lemma siftup_leaf_perm fuel heap pos :
  (siftup_leaf fuel heap pos).1 ≡ₚ heap.
Proof.
  revert heap pos. induction fuel as [|fuel IH]; intros heap pos;
    cbn [heapq.siftup_leaf]; [reflexivity|].
  destruct (heap !! (2 * pos + 1)) as [lchild|]; [|reflexivity].
  rewrite IH. apply swap_perm.
Qed.

Lemma siftup_perm heap pos : siftup heap pos ≡ₚ heap.
Proof.
  unfold heapq.siftup.
  pose proof (siftup_leaf_perm (length heap) heap pos) as H.
  destruct (siftup_leaf (length heap) heap pos) as [heap' leafpos]; simpl in H.
  rewrite siftdown_perm. exact H.
Qed.

Lemma fold_siftup_perm (positions : list nat) heap :
  fold_left siftup positions heap ≡ₚ heap.
Proof.
  revert heap. induction positions as [|i positions IH]; intros heap; simpl; [reflexivity|].
  rewrite IH. apply siftup_perm.
Qed.

Lemma heapify_perm heap : heapify heap ≡ₚ heap.
Proof. apply fold_siftup_perm. Qed.

Lemma heappush_perm heap item : heappush heap item ≡ₚ item :: heap.
Proof.
  unfold heapq.heappush. rewrite siftdown_perm.
  symmetry. apply Permutation_cons_append.
Qed.

Lemma heappop_perm heap item heap' :
  heappop heap = Ok (item, heap') -> heap ≡ₚ item :: heap'.
Proof.
  unfold heapq.heappop. intros H.
  destruct (last heap) as [lastelt|] eqn:Hlast; [|discriminate].
  apply last_Some in Hlast as [front ->].
  rewrite removelast_last in H.
  destruct front as [|returnitem rest]; injection H as <- <-.
  - reflexivity.
  - rewrite siftup_perm. simpl. apply perm_skip.
    symmetry. apply Permutation_cons_append.
Qed.

Lemma heappop_nonempty heap :
  heap <> [] -> exists item heap', heappop heap = Ok (item, heap').
Proof.
  intros Hne. unfold heapq.heappop.
  destruct (last heap) as [lastelt|] eqn:Hlast.
  - destruct (removelast heap); eauto.
  - apply last_None in Hlast. contradiction.
Qed.

End heapq_facts.

(** *** The operations keep the heap order

    This needs the comparison to be a strict weak order: asymmetric, with a
    transitive complement. *)

Section heapq_order.
Context {T : Type}.
Variable lt : T -> T -> bool.
Hypothesis lt_asym : forall a b, lt a b = true -> lt b a = false.
Hypothesis le_trans :
  forall a b c, lt b a = false -> lt c b = false -> lt c a = false.
Implicit Types (heap : list T) (i j k p c g cur : nat).

Local Abbreviation swap := (@heapq.swap T).
Local Abbreviation siftdown := (heapq.siftdown lt).
Local Abbreviation siftup_leaf := (heapq.siftup_leaf lt).
Local Abbreviation siftup := (heapq.siftup lt).
Local Abbreviation heapify := (heapq.heapify lt).
Local Abbreviation heappush := (heapq.heappush lt).
Local Abbreviation heappop := (heapq.heappop lt).
Local Abbreviation le := (heapq.le lt).
Local Abbreviation child := heapq.child.
Local Abbreviation below := heapq.below.
Local Abbreviation ordered_at := (heapq.ordered_at lt).
Local Abbreviation heap_from := (heapq.heap_from lt).
Local Abbreviation is_heap := (heapq.is_heap lt).
Local Abbreviation ordered_around := (heapq.ordered_around lt).
Local Abbreviation ordered_except := (heapq.ordered_except lt).
Local Abbreviation grand_ordered := (heapq.grand_ordered lt).

Lemma le_refl a : le a a.
Proof.
  unfold heapq.le. destruct (lt a a) eqn:E; [|reflexivity].
  rewrite <- E. apply lt_asym. exact E.
Qed.

Lemma child_gt p c : child p c -> p < c.
Proof. unfold heapq.child. lia. Qed.

Lemma child_parent p c : child p c -> (c - 1) / 2 = p.
Proof.
  intros [->| ->]; symmetry.
  - apply (Nat.div_unique _ 2 p 0); lia.
  - apply (Nat.div_unique _ 2 p 1); lia.
Qed.

Lemma child_unique p q c : child p c -> child q c -> p = q.
Proof. unfold heapq.child. lia. Qed.

Lemma below_ge k c : below k c -> k <= c.
Proof. induction 1 as [|p c _ IH Hc]; [lia|]. apply child_gt in Hc. lia. Qed.

Lemma below_parent k c :
  below k c -> k < c -> exists p, below k p /\ child p c.
Proof. destruct 1 as [|p c Hp Hc]; [lia|]. eauto. Qed.

Lemma below_0 c : below 0 c.
Proof.
  induction c as [c IH] using lt_wf_ind.
  destruct c as [|c]; [constructor|].
  pose proof (Nat.div_mod_eq c 2) as Hdiv.
  pose proof (Nat.mod_upper_bound c 2) as Hmod.
  apply (heapq.below_child 0 (c / 2)).
  - apply IH. lia.
  - unfold heapq.child. lia.
Qed.

Lemma heap_from_finish k heap cur :
  ordered_except k heap cur ->
  (forall p, k <= p -> child p cur -> ordered_at heap p cur) ->
  heap_from k heap.
Proof.
  intros Hex Hcur p c Hp Hc.
  destruct (decide (c = cur)) as [->|Hne]; [apply Hcur|apply Hex]; assumption.
Qed.

(** The smaller child chosen by the first loop of [_siftup]. *)
Lemma smaller_child heap cur lchild :
  heap !! (2 * cur + 1) = Some lchild ->
  exists cstar w,
    match heap !! (2 * cur + 1 + 1) with
    | Some rchild => if negb (lt lchild rchild) then 2 * cur + 1 + 1 else 2 * cur + 1
    | None => 2 * cur + 1
    end = cstar /\
    child cur cstar /\ heap !! cstar = Some w /\
    forall s y, child cur s -> heap !! s = Some y -> le w y.
Proof.
  intros Hl.
  destruct (heap !! (2 * cur + 1 + 1)) as [rchild|] eqn:Hr.
  - destruct (lt lchild rchild) eqn:Hlt; simpl.
    + exists (2 * cur + 1), lchild. split; [reflexivity|].
      split; [left; reflexivity|]. split; [exact Hl|].
      intros s y [->| ->] Hy.
      * rewrite Hl in Hy. injection Hy as <-. apply le_refl.
      * replace (2 * cur + 2) with (2 * cur + 1 + 1) in Hy by lia.
        rewrite Hr in Hy. injection Hy as <-. apply lt_asym. exact Hlt.
    + exists (2 * cur + 1 + 1), rchild. split; [reflexivity|].
      split; [right; lia|]. split; [exact Hr|].
      intros s y [->| ->] Hy.
      * rewrite Hl in Hy. injection Hy as <-. exact Hlt.
      * replace (2 * cur + 2) with (2 * cur + 1 + 1) in Hy by lia.
        rewrite Hr in Hy. injection Hy as <-. apply le_refl.
  - exists (2 * cur + 1), lchild. split; [reflexivity|].
    split; [left; reflexivity|]. split; [exact Hl|].
    intros s y [->| ->] Hy.
    + rewrite Hl in Hy. injection Hy as <-. apply le_refl.
    + replace (2 * cur + 2) with (2 * cur + 1 + 1) in Hy by lia. congruence.
Qed.

Lemma siftup_leaf_inv fuel heap k cur :
  length heap <= fuel + cur ->
  below k cur ->
  ordered_around k heap cur ->
  grand_ordered k heap cur ->
  exists heap' leaf,
    siftup_leaf fuel heap cur = (heap', leaf) /\
    below k leaf /\
    heap' !! (2 * leaf + 1) = None /\
    ordered_around k heap' leaf /\
    grand_ordered k heap' leaf.
Proof.
  revert heap cur. induction fuel as [|fuel IH]; intros heap cur Hfuel Hb Har Hgr;
    cbn [heapq.siftup_leaf].
  - exists heap, cur. repeat split; try assumption.
    apply lookup_ge_None. lia.
  - destruct (heap !! (2 * cur + 1)) as [lchild|] eqn:Hl.
    + destruct (smaller_child heap cur lchild Hl) as (cstar & w & -> & Hc & Hw & Hmin).
      assert (Hlen : 2 * cur + 1 < length heap) by (eapply lookup_lt_Some; eassumption).
      destruct (lookup_lt_is_Some_2 heap cur) as [v Hv]; [lia|].
      pose proof (child_gt _ _ Hc) as Hgt.
      pose proof (below_ge _ _ Hb) as Hge.
      apply IH.
      * rewrite length_swap. lia.
      * eapply heapq.below_child; eassumption.
      * intros p c Hp Hpc Hc1 Hp1 x y Hx Hy.
        rewrite (lookup_swap _ _ _ _ _ _ Hv Hw) in Hx;
          rewrite (lookup_swap _ _ _ _ _ _ Hv Hw) in Hy.
        pose proof (child_gt _ _ Hpc).
        destruct (decide (p = cur)) as [->|Hpcur].
        -- injection Hx as <-.
           destruct (decide (c = cur)); [lia|].
           destruct (decide (c = cstar)); [contradiction|].
           eapply Hmin; eassumption.
        -- destruct (decide (p = cstar)); [contradiction|].
           destruct (decide (c = cur)) as [->|Hccur].
           ++ injection Hy as <-.
              exact (Hgr p cstar Hp Hpc Hc x w Hx Hw).
           ++ destruct (decide (c = cstar)); [contradiction|].
              exact (Har p c Hp Hpc Hccur Hpcur x y Hx Hy).
      * intros g c Hg Hgc Hcc x y Hx Hy.
        rewrite (lookup_swap _ _ _ _ _ _ Hv Hw) in Hx;
          rewrite (lookup_swap _ _ _ _ _ _ Hv Hw) in Hy.
        pose proof (child_unique _ _ _ Hgc Hc) as ->.
        pose proof (child_gt _ _ Hcc).
        destruct (decide (cur = cur)); [|contradiction].
        injection Hx as <-.
        destruct (decide (c = cur)); [lia|].
        destruct (decide (c = cstar)); [lia|].
        assert (cstar <> cur) by lia.
        exact (Har cstar c ltac:(lia) Hcc ltac:(lia) ltac:(lia) w y Hw Hy).
    + exists heap, cur. repeat split; assumption.
Qed.

Lemma siftdown_inv fuel heap k cur :
  cur <= fuel ->
  below k cur ->
  ordered_except k heap cur ->
  grand_ordered k heap cur ->
  heap_from k (siftdown fuel heap k cur).
Proof.
  revert heap cur. induction fuel as [|fuel IH]; intros heap cur Hfuel Hb Hex Hgr;
    cbn [heapq.siftdown].
  - apply (heap_from_finish k heap cur Hex).
    intros p Hp Hc. apply child_gt in Hc. lia.
  - case_bool_decide as Hlt.
    + destruct (below_parent _ _ Hb Hlt) as (p & Hbp & Hpc).
      rewrite (child_parent _ _ Hpc).
      pose proof (child_gt _ _ Hpc) as Hgt.
      pose proof (below_ge _ _ Hbp) as Hge.
      destruct (heap !! cur) as [newitem|] eqn:Hnew.
      * destruct (heap !! p) as [parent|] eqn:Hpar.
        -- destruct (lt newitem parent) eqn:Hcmp.
           ++ apply IH; [lia|assumption|..].
              ** intros q c Hq Hqc Hne x y Hx Hy.
                 rewrite (lookup_swap _ _ _ _ _ _ Hpar Hnew) in Hx;
          rewrite (lookup_swap _ _ _ _ _ _ Hpar Hnew) in Hy.
                 pose proof (child_gt _ _ Hqc).
                 destruct (decide (c = p)); [contradiction|].
                 destruct (decide (q = p)) as [->|Hqp].
                 --- injection Hx as <-.
                     destruct (decide (c = cur)) as [->|Hccur].
                     +++ injection Hy as <-. apply lt_asym. exact Hcmp.
                     +++ apply (le_trans _ parent _).
                         *** apply lt_asym. exact Hcmp.
                         *** exact (Hex p c Hq Hqc Hccur parent y Hpar Hy).
                 --- destruct (decide (q = cur)) as [->|Hqcur].
                     +++ injection Hx as <-.
                         destruct (decide (c = cur)); [lia|].
                         exact (Hgr p c Hge Hpc Hqc parent y Hpar Hy).
                     +++ destruct (decide (c = cur)) as [->|Hccur].
                         *** pose proof (child_unique _ _ _ Hqc Hpc). contradiction.
                         *** exact (Hex q c Hq Hqc Hccur x y Hx Hy).
              ** intros g c Hg Hgp Hpc' x y Hx Hy.
                 rewrite (lookup_swap _ _ _ _ _ _ Hpar Hnew) in Hx;
          rewrite (lookup_swap _ _ _ _ _ _ Hpar Hnew) in Hy.
                 pose proof (child_gt _ _ Hgp).
                 pose proof (child_gt _ _ Hpc').
                 destruct (decide (g = p)); [lia|].
                 destruct (decide (g = cur)); [lia|].
                 destruct (decide (c = p)); [lia|].
                 assert (Hxp : le x parent)
                   by exact (Hex g p Hg Hgp ltac:(lia) x parent Hx Hpar).
                 destruct (decide (c = cur)) as [->|Hccur].
                 --- injection Hy as <-. exact Hxp.
                 --- apply (le_trans _ parent _); [exact Hxp|].
                     exact (Hex p c Hge Hpc' Hccur parent y Hpar Hy).
           ++ apply (heap_from_finish k heap cur Hex).
              intros q Hq Hqc x y Hx Hy.
              pose proof (child_unique _ _ _ Hqc Hpc) as ->.
              unfold heapq.le. congruence.
        -- apply (heap_from_finish k heap cur Hex).
           intros q Hq Hqc x y Hx Hy.
           pose proof (child_unique _ _ _ Hqc Hpc) as ->. congruence.
      * apply (heap_from_finish k heap cur Hex).
        intros q Hq Hqc x y Hx Hy. congruence.
    + apply (heap_from_finish k heap cur Hex).
      intros p Hp Hc. apply child_gt in Hc. lia.
Qed.

Lemma siftup_heap_from heap k :
  heap_from (S k) heap -> heap_from k (siftup heap k).
Proof.
  intros Hheap. unfold heapq.siftup.
  destruct (siftup_leaf_inv (length heap) heap k k) as
    (heap' & leaf & -> & Hb & Hleaf & Har & Hgr).
  - lia.
  - constructor.
  - intros p c Hp Hpc _ Hne. apply Hheap; [lia|assumption].
  - intros g c Hg Hgk _. apply child_gt in Hgk. lia.
  - apply siftdown_inv; [lia|assumption| |assumption].
    intros p c Hp Hpc Hne.
    destruct (decide (p = leaf)) as [->|Hpl]; [|apply Har; assumption].
    intros x y _ Hy. apply lookup_ge_None in Hleaf.
    apply lookup_lt_Some in Hy. unfold heapq.child in Hpc. lia.
Qed.

Lemma fold_siftup_heap k heap :
  heap_from k heap -> is_heap (fold_left siftup (rev (seq 0 k)) heap).
Proof.
  revert heap. induction k as [|k IH]; intros heap Hheap; [exact Hheap|].
  rewrite seq_S, rev_app_distr. simpl. apply IH, siftup_heap_from, Hheap.
Qed.

Lemma heapify_is_heap heap : is_heap (heapify heap).
Proof.
  apply fold_siftup_heap. intros p c Hp Hpc x y _ Hy.
  apply lookup_lt_Some in Hy.
  pose proof (Nat.div_mod_eq (length heap) 2) as Hdiv.
  pose proof (Nat.mod_upper_bound (length heap) 2) as Hmod.
  unfold heapq.child in Hpc. lia.
Qed.

Lemma heappush_is_heap heap item :
  is_heap heap -> is_heap (heappush heap item).
Proof.
  intros Hheap. unfold heapq.heappush.
  rewrite length_app. simpl.
  replace (length heap + 1 - 1) with (length heap) by lia.
  apply siftdown_inv; [lia|apply below_0|..].
  - intros p c _ Hpc Hne x y Hx Hy.
    pose proof (child_gt _ _ Hpc).
    apply lookup_lt_Some in Hy as Hlen. rewrite length_app in Hlen. simpl in Hlen.
    rewrite lookup_app_l in Hx by lia. rewrite lookup_app_l in Hy by lia.
    exact (Hheap p c ltac:(lia) Hpc x y Hx Hy).
  - intros g c _ _ Hc x y _ Hy.
    apply child_gt in Hc.
    apply lookup_lt_Some in Hy. rewrite length_app in Hy. simpl in Hy. lia.
Qed.

(** The root of a heap is [le] every item. *)
Lemma heap_root_min heap r :
  is_heap heap -> heap !! 0 = Some r ->
  forall i y, heap !! i = Some y -> le r y.
Proof.
  intros Hheap Hr i. induction i as [i IH] using lt_wf_ind. intros y Hy.
  destruct i as [|i].
  - rewrite Hr in Hy. injection Hy as <-. apply le_refl.
  - pose proof (Nat.div_mod_eq i 2) as Hdiv.
    pose proof (Nat.mod_upper_bound i 2) as Hmod.
    assert (Hc : child (i / 2) (S i)) by (unfold heapq.child; lia).
    destruct (lookup_lt_is_Some_2 heap (i / 2)) as [z Hz].
    { apply lookup_lt_Some in Hy. lia. }
    apply (le_trans _ z _).
    + apply (IH (i / 2)); [lia|exact Hz].
    + exact (Hheap (i / 2) (S i) ltac:(lia) Hc z y Hz Hy).
Qed.

Lemma heappop_is_heap heap item heap' :
  is_heap heap -> heappop heap = Ok (item, heap') ->
  is_heap heap' /\ forall y, y ∈ heap' -> le item y.
Proof.
  unfold heapq.heappop. intros Hheap H.
  destruct (last heap) as [lastelt|] eqn:Hlast; [|discriminate].
  apply last_Some in Hlast as [front ->].
  rewrite removelast_last in H.
  destruct front as [|returnitem rest]; injection H as <- <-.
  - split; [|intros y Hy; inversion Hy].
    intros p c _ _ x y Hx. discriminate.
  - split.
    + apply siftup_heap_from. intros p c Hp Hpc x y Hx Hy.
      pose proof (child_gt _ _ Hpc).
      destruct p as [|p]; [lia|]. destruct c as [|c]; [lia|].
      simpl in Hx, Hy.
      apply (Hheap (S p) (S c) ltac:(lia) Hpc); simpl.
      * apply lookup_app_l_Some. exact Hx.
      * apply lookup_app_l_Some. exact Hy.
    + intros y Hy. rewrite siftup_perm in Hy.
      assert (Hin : y ∈ (returnitem :: rest) ++ [lastelt]).
      { rewrite elem_of_app, !elem_of_cons. 
        apply elem_of_cons in Hy as [->|Hy]; [right; left; reflexivity|].
        left; right; exact Hy. }
      apply list_elem_of_lookup in Hin as [i Hi].
      exact (heap_root_min _ returnitem Hheap eq_refl i y Hi).
Qed.

End heapq_order.

(** * Properties of trees, paths and codewords *)

Section tree_facts.
Context {W : Type}.
Implicit Types (t : PrefixTree (W := W)) (self : HuffmanCode (W := W)).
Implicit Types (path bits : BitStream) (symbols : list BitStream).

Lemma index_lt (s : byte) : Z.to_nat (int_from_bytes s) < 256.
Proof.
  unfold int_from_bytes. pose proof (Byte.to_N_bounded s). lia.
Qed.

Lemma index_inj (a b : byte) :
  Z.to_nat (int_from_bytes a) = Z.to_nat (int_from_bytes b) -> a = b.
Proof.
  unfold int_from_bytes. intros H.
  assert (E : Byte.to_N a = Byte.to_N b) by lia.
  pose proof (Byte.of_to_N a) as Ha. rewrite E, Byte.of_to_N in Ha. congruence.
Qed.

Lemma leaves_nonempty t : leaves t <> [].
Proof.
  induction t as [f s|f l IHl r IHr]; simpl; [discriminate|].
  intros H. apply app_eq_nil in H as [H _]. contradiction.
Qed.

Lemma lookup_path_leaf t path s : lookup_path t path = Some s -> s ∈ leaves t.
Proof.
  revert path. induction t as [f s0|f l IHl r IHr]; intros [|[] path] H;
    simpl in *; try discriminate.
  - injection H as ->. apply list_elem_of_singleton. reflexivity.
  - apply elem_of_app. right. eauto.
  - apply elem_of_app. left. eauto.
Qed.

Lemma lookup_path_nonempty t path s :
  isSingleton t = false -> lookup_path t path = Some s -> path <> [].
Proof. destruct t, path; simpl; intros; congruence. Qed.

(** A path to a leaf has no proper extension that is a path to a leaf. *)
Lemma lookup_path_app t path ext a b :
  lookup_path t path = Some a -> lookup_path t (path ++ ext) = Some b ->
  ext = [] /\ a = b.
Proof.
  revert path. induction t as [f s0|f l IHl r IHr]; intros [|[] path] Ha Hb;
    simpl in *; try discriminate; eauto.
  destruct ext; [|discriminate]. split; congruence.
Qed.

Lemma traverseTree_from_path t path rest s :
  lookup_path t path = Some s ->
  traverseTree_from t (path ++ rest) = Ok (s, rest).
Proof.
  revert path. induction t as [f s0|f l IHl r IHr]; intros [|[] path] H;
    simpl in *; try discriminate; eauto.
  injection H as ->. reflexivity.
Qed.

(** [search_tree] records, for every leaf, a path from the root to a leaf
    carrying its symbol, and leaves the other entries alone. *)
Lemma search_tree_spec t bitseq symbols :
  length symbols = 256 ->
  exists symbols',
    search_tree t bitseq symbols = Ok symbols' /\
    length symbols' = 256 /\
    (forall s, s ∈ leaves t ->
       exists path, symbols' !! Z.to_nat (int_from_bytes s) = Some (bitseq ++ path) /\
                    lookup_path t path = Some s) /\
    (forall s, s ∉ leaves t ->
       symbols' !! Z.to_nat (int_from_bytes s) = symbols !! Z.to_nat (int_from_bytes s)).
Proof.
  revert bitseq symbols.
  induction t as [f s0|f l IHl r IHr]; intros bitseq symbols Hlen;
    cbn [search_tree leaves lookup_path].
  - unfold list_assign. pose proof (index_lt s0) as Hlt.
    rewrite bool_decide_eq_true_2 by lia.
    eexists. split; [reflexivity|]. split; [rewrite length_insert; exact Hlen|]. split.
    + intros s Hs. apply list_elem_of_singleton in Hs as ->.
      exists []. rewrite app_nil_r. split; [|reflexivity].
      apply list_lookup_insert_eq. lia.
    + intros s Hs. apply list_lookup_insert_ne.
      intros E. apply index_inj in E. subst s0.
      apply Hs, list_elem_of_singleton. reflexivity.
  - destruct (IHl (bitseq ++ [false]) symbols Hlen) as (sl & Hsl & Hlenl & Hinl & Houtl).
    destruct (IHr (bitseq ++ [true]) sl Hlenl) as (sr & Hsr & Hlenr & Hinr & Houtr).
    rewrite Hsl. cbn [bind]. rewrite Hsr. cbn [bind]. exists sr. split; [reflexivity|]. split; [exact Hlenr|]. split.
    + intros s Hs.
      destruct (decide (s ∈ leaves r)) as [Hr|Hr].
      * destruct (Hinr s Hr) as (path & Hp & Hpath).
        exists (true :: path). rewrite <- app_assoc in Hp. split; assumption.
      * apply elem_of_app in Hs as [Hl|?]; [|contradiction].
        destruct (Hinl s Hl) as (path & Hp & Hpath).
        exists (false :: path). rewrite Houtr by assumption.
        rewrite <- app_assoc in Hp. split; assumption.
    + intros s Hs. rewrite not_elem_of_app in Hs. destruct Hs as [Hl Hr].
      rewrite Houtr, Houtl by assumption. reflexivity.
Qed.

(** *** Padding *)

Lemma removePadding_rev_zeros k (stib : list bool) :
  removePadding_rev (replicate k false ++ stib) = removePadding_rev stib.
Proof. induction k as [|k IH]; simpl; [reflexivity|exact IH]. Qed.

Lemma rev_replicate {A} k (x : A) : rev (replicate k x) = replicate k x.
Proof.
  induction k as [|k IH]; simpl; [reflexivity|].
  rewrite IH. clear IH. induction k as [|k IH]; simpl; [reflexivity|].
  rewrite IH. reflexivity.
Qed.

Lemma removePadding_padded bits k :
  removePadding (bits ++ true :: replicate k false) = Ok bits.
Proof.
  unfold removePadding. rewrite rev_app_distr. simpl.
  rewrite rev_replicate, <- app_assoc, removePadding_rev_zeros. simpl.
  rewrite rev_involutive. reflexivity.
Qed.

Lemma removePadding_zeros k :
  removePadding (replicate k false) = Raise IndexError.
Proof.
  unfold removePadding. rewrite rev_replicate.
  rewrite <- (app_nil_r (replicate k false)), removePadding_rev_zeros.
  reflexivity.
Qed.

(** Every bit string is all zeros, or ends with a 1 followed by zeros. *)
Lemma bits_shape bits :
  (exists k, bits = replicate k false) \/
  (exists payload k, bits = payload ++ true :: replicate k false).
Proof.
  induction bits as [|b bits IH].
  - left. exists 0. reflexivity.
  - destruct IH as [[k ->]|(payload & k & ->)].
    + destruct b.
      * right. exists [], k. reflexivity.
      * left. exists (S k). reflexivity.
    + right. exists (b :: payload), k. reflexivity.
Qed.

Lemma removePadding_inv bits payload :
  removePadding bits = Ok payload ->
  exists k, bits = payload ++ true :: replicate k false.
Proof.
  intros H. destruct (bits_shape bits) as [[k ->]|(p & k & ->)].
  - rewrite removePadding_zeros in H. discriminate.
  - rewrite removePadding_padded in H. injection H as ->. eauto.
Qed.

Lemma paddingSuitableFor_spec bits :
  let r := length bits mod 8 in
  paddingSuitableFor bits = true :: replicate (7 - r) false.
Proof.
  intros r. unfold paddingSuitableFor.
  pose proof (Nat.mod_upper_bound (length bits) 8 ltac:(lia)) as Hr.
  pose proof (Nat.div_mod_eq (length bits) 8) as Hdiv.
  assert (E : (Z.of_nat (length bits) / 8 = Z.of_nat (length bits / 8))%Z).
  { rewrite Nat2Z.inj_div. reflexivity. }
  rewrite E.
  replace (8 - (Z.of_nat (length bits) - Z.of_nat (length bits / 8) * 8))%Z
    with (Z.of_nat (8 - r)) by (subst r; lia).
  destruct (0 <? Z.of_nat (8 - r))%Z eqn:Hpos; [|apply Z.ltb_ge in Hpos; lia].
  f_equal. f_equal. lia.
Qed.

(** *** Encoding *)

Lemma codewordFor_total self x :
  length (code_array self) = 256 -> exists c, codewordFor self x = Ok c.
Proof.
  intros Hlen. unfold codewordFor.
  destruct (lookup_lt_is_Some_2 (code_array self) (Z.to_nat (int_from_bytes x))) as [c ->].
  - pose proof (index_lt x). lia.
  - eauto.
Qed.

Lemma codewords_exist self (s : list byte) :
  length (code_array self) = 256 ->
  exists cws, Forall2 (fun x c => codewordFor self x = Ok c) s cws.
Proof.
  intros Hlen. induction s as [|x s [cws IH]].
  - exists []. constructor.
  - destruct (codewordFor_total self x Hlen) as [c Hc].
    exists (c :: cws). constructor; assumption.
Qed.

Lemma encode_loop_spec self (s : list byte) cws ret :
  Forall2 (fun x c => codewordFor self x = Ok c) s cws ->
  encode_loop self s ret = Ok (ret ++ concat cws).
Proof.
  intros H. revert ret. induction H as [|x c s cws Hc _ IH]; intros ret; simpl.
  - rewrite app_nil_r. reflexivity.
  - rewrite Hc. simpl. rewrite IH, <- app_assoc. reflexivity.
Qed.

Lemma encode_spec self (s : list byte) cws :
  Forall2 (fun x c => codewordFor self x = Ok c) s cws ->
  encode self s =
    Ok (concat cws ++ true :: replicate (7 - length (concat cws) mod 8) false).
Proof.
  intros H. unfold encode. rewrite (encode_loop_spec _ _ _ _ H). simpl.
  rewrite paddingSuitableFor_spec. reflexivity.
Qed.

(** *** Decoding *)

Lemma decode_loop_more fuel fuel' self bits out r :
  decode_loop fuel self bits out = Some r -> fuel <= fuel' ->
  decode_loop fuel' self bits out = Some r.
Proof.
  revert fuel' bits out. induction fuel as [|fuel IH]; intros fuel' bits out H Hle.
  - destruct bits; [|discriminate]. destruct fuel'; exact H.
  - destruct fuel' as [|fuel']; [lia|].
    destruct bits as [|b bits]; [exact H|].
    cbn [decode_loop] in *.
    destruct (traverseTree self (b :: bits)) as [[symbol rest]|e]; [|exact H].
    apply IH; [exact H|lia].
Qed.

Lemma decode_loop_paths self (s : list byte) cws out :
  isSingleton (tree self) = false ->
  Forall2 (fun x c => lookup_path (tree self) c = Some x) s cws ->
  decode_loop (length s) self (concat cws) out = Some (Ok (out ++ s)).
Proof.
  intros Hnode H. revert out. induction H as [|x c s cws Hc _ IH]; intros out.
  - simpl. rewrite app_nil_r. reflexivity.
  - pose proof (lookup_path_nonempty _ _ _ Hnode Hc) as Hne.
    cbn [concat length decode_loop].
    destruct (c ++ concat cws) as [|b rest] eqn:E.
    { apply app_eq_nil in E as [? _]. contradiction. }
    rewrite <- E. unfold traverseTree.
    rewrite (traverseTree_from_path _ _ _ _ Hc).
    rewrite IH, <- app_assoc. reflexivity.
Qed.

(** When the tree is a single leaf, [traverseTree] consumes no bit: on a
    non-empty payload the loop of [decode] never ends. *)
Lemma decode_loop_leaf_diverges self fuel (b : bool) bits (out : list byte) :
  isSingleton (tree self) = true ->
  decode_loop fuel self (b :: bits) out = None.
Proof.
  intros Hleaf. revert out. induction fuel as [|fuel IH]; intros out; [reflexivity|].
  cbn [decode_loop]. unfold traverseTree.
  destruct (tree self) as [f s|f l r]; [|discriminate].
  cbn [traverseTree_from]. apply IH.
Qed.

Lemma paths_length t (s : list byte) cws :
  isSingleton t = false ->
  Forall2 (fun x c => lookup_path t c = Some x) s cws ->
  length s <= length (concat cws).
Proof.
  intros Hnode H. induction H as [|x c s cws Hc _ IH]; simpl; [lia|].
  pose proof (lookup_path_nonempty _ _ _ Hnode Hc) as Hne.
  rewrite length_app. destruct c; [contradiction|simpl; lia].
Qed.

End tree_facts.

(** * Properties of the construction *)

Section construction_facts.
Context {W : Type}.
Variable wadd : W -> W -> W.
Variable weqb : W -> W -> bool.
Variable wltb : W -> W -> bool.
Implicit Types (t : PrefixTree (W := W)) (m : MinHeapWrapper (W := W)).
Implicit Types (frequencyTable : list (byte * W)).

Local Abbreviation lt := (PrefixTree_lt weqb wltb).
Local Abbreviation popMin := (popMin weqb wltb).
Local Abbreviation push := (push weqb wltb).
Local Abbreviation init := (HuffmanCode_init wadd weqb wltb).

Lemma popMin_perm m t m' : popMin m = Ok (t, m') -> m ≡ₚ t :: m'.
Proof. apply heappop_perm. Qed.

Lemma popMin_nonempty m : m <> [] -> exists t m', popMin m = Ok (t, m').
Proof. apply heappop_nonempty. Qed.

Lemma push_perm m t : push m t ≡ₚ t :: m.
Proof. apply heappush_perm. Qed.

Lemma popMin_singleton t : popMin [t] = Ok (t, []).
Proof. reflexivity. Qed.

(** One iteration of the loop of [__init__]. *)
Lemma merge_step m :
  1 < size m ->
  exists t1 m1 t2 m2,
    popMin m = Ok (t1, m1) /\ popMin m1 = Ok (t2, m2) /\
    m ≡ₚ t1 :: t2 :: m2.
Proof.
  unfold size. intros Hsize.
  destruct (popMin_nonempty m) as (t1 & m1 & H1); [intros ->; simpl in Hsize; lia|].
  pose proof (popMin_perm _ _ _ H1) as P1.
  destruct (popMin_nonempty m1) as (t2 & m2 & H2).
  { intros ->. apply Permutation_length in P1. simpl in P1. lia. }
  pose proof (popMin_perm _ _ _ H2) as P2.
  exists t1, m1, t2, m2. repeat split; try assumption.
  rewrite P1, P2. reflexivity.
Qed.

(** The loop ends with a single tree, which has the leaves of all the trees
    it started from. *)
Lemma merge_loop_spec fuel m :
  m <> [] -> size m <= S fuel ->
  exists t, merge_loop wadd weqb wltb fuel m = Ok [t] /\ leaves t ≡ₚ flat_map leaves m.
Proof.
  revert m. induction fuel as [|fuel IH]; intros m Hne Hfuel; cbn [merge_loop].
  - destruct m as [|t [|]]; [contradiction| |simpl in Hfuel; lia].
    exists t. simpl. rewrite app_nil_r. split; reflexivity.
  - case_bool_decide as Hsize.
    + destruct (merge_step m Hsize) as (t1 & m1 & t2 & m2 & -> & H2 & P).
      cbn [bind]. rewrite H2. cbn [bind].
      destruct (IH (push m2 (fromTwoTrees wadd t1 t2))) as (t & -> & Hl).
      * intros E. pose proof (push_perm m2 (fromTwoTrees wadd t1 t2)) as P'.
        rewrite E in P'. apply Permutation_nil in P'. discriminate.
      * unfold size in *. rewrite push_perm. apply Permutation_length in P.
        simpl in *. lia.
      * exists t. split; [reflexivity|].
        rewrite Hl, push_perm, P. simpl. rewrite app_assoc. reflexivity.
    + destruct m as [|t [|]]; [contradiction| |unfold size in Hsize; simpl in Hsize; lia].
      exists t. simpl. rewrite app_nil_r. split; reflexivity.
Qed.

Lemma leaves_of_table frequencyTable :
  flat_map leaves (map (fun '(b, f) => Leaf f b) frequencyTable) = map fst frequencyTable.
Proof.
  induction frequencyTable as [|[b f] table IH]; simpl; [reflexivity|].
  rewrite IH. reflexivity.
Qed.

(** [__init__] succeeds on every non-empty table: the leaves of the tree are
    the keys of the table, and the codeword array holds, for every key, a path
    from the root to that key's leaf, and the empty bit string elsewhere. *)
Lemma init_spec frequencyTable :
  frequencyTable <> [] ->
  exists self,
    init frequencyTable = Ok self /\
    leaves (tree self) ≡ₚ map fst frequencyTable /\
    length (code_array self) = 256 /\
    (forall s, s ∈ leaves (tree self) ->
       exists path, code_array self !! Z.to_nat (int_from_bytes s) = Some path /\
                    lookup_path (tree self) path = Some s) /\
    (forall s, s ∉ leaves (tree self) ->
       code_array self !! Z.to_nat (int_from_bytes s) = Some []).
Proof.
  intros Hne. unfold HuffmanCode_init.
  set (heap := map (fun '(b, f) => Leaf f b) frequencyTable).
  set (m := MinHeapWrapper_init weqb wltb heap).
  assert (Pm : m ≡ₚ heap) by apply heapify_perm.
  destruct (merge_loop_spec (size m) m) as (t & -> & Hl).
  { intros E. rewrite E in Pm. apply Permutation_nil in Pm.
    subst heap. destruct frequencyTable; [contradiction|discriminate]. }
  { lia. }
  cbn [bind]. rewrite popMin_singleton. cbn [bind].
  destruct (search_tree_spec t [] (replicate 256 [])) as (code & -> & Hlen & Hin & Hout).
  { apply length_replicate. }
  cbn [bind]. eexists. split; [reflexivity|]. cbn [tree code_array].
  split; [|split; [exact Hlen|split]].
  - rewrite Hl, Pm. subst heap. rewrite leaves_of_table. reflexivity.
  - exact Hin.
  - intros s Hs. rewrite (Hout s Hs). apply lookup_replicate_2, index_lt.
Qed.

Lemma init_empty : init [] = Raise IndexError.
Proof. reflexivity. Qed.

(** A table with two entries or more gives a tree whose root is internal. *)
Lemma init_internal frequencyTable self :
  2 <= length frequencyTable ->
  init frequencyTable = Ok self ->
  isSingleton (tree self) = false.
Proof.
  intros Hlen Hinit.
  destruct (init_spec frequencyTable) as (self' & Hinit' & Hl & _).
  { intros ->. simpl in Hlen. lia. }
  rewrite Hinit in Hinit'. injection Hinit' as <-.
  apply Permutation_length in Hl. rewrite length_map in Hl.
  destruct (tree self); simpl in *; [lia|reflexivity].
Qed.

End construction_facts.

(** *** Tables with 256 distinct keys list every byte *)

Lemma distinct_NoDup (keys : list byte) : distinct keys = true -> NoDup keys.
Proof.
  induction keys as [|k keys IH]; simpl; intros H; [constructor|].
  apply andb_true_iff in H as [Hk Hrest]. constructor; [|auto].
  intros Hin. apply negb_true_iff in Hk.
  assert (E : existsb (Byte.eqb k) keys = true).
  { apply existsb_exists. exists k. split; [apply list_elem_of_In; exact Hin|].
    apply Byte.byte_dec_lb. reflexivity. }
  congruence.
Qed.

Lemma all_bytes (x : byte) : In x (map byte_of_nat (seq 0 256)).
Proof.
  apply in_map_iff. exists (Byte.to_nat x). split.
  - unfold byte_of_nat. rewrite Byte.of_to_nat. reflexivity.
  - apply in_seq. pose proof (Byte.to_nat_bounded x). lia.
Qed.

Lemma frequency_table_keys {W} (frequencyTable : list (byte * W)) :
  is_frequency_table frequencyTable = true ->
  length frequencyTable = 256 /\ forall x : byte, x ∈ map fst frequencyTable.
Proof.
  unfold is_frequency_table. intros H.
  apply andb_true_iff in H as [Hlen Hd].
  apply bool_decide_eq_true_1 in Hlen. split; [exact Hlen|].
  intros x. apply list_elem_of_In.
  apply distinct_NoDup, NoDup_ListNoDup in Hd.
  apply (@NoDup_length_incl _ _ (map byte_of_nat (seq 0 256)) Hd).
  - rewrite !length_map, length_seq. lia.
  - intros y _. apply all_bytes.
  - apply all_bytes.
Qed.

(** * The properties of the specification *)

Section code_claims.
Context {W : Type}.
Variable wadd : W -> W -> W.
Variable weqb : W -> W -> bool.
Variable wltb : W -> W -> bool.
Implicit Types (self : HuffmanCode (W := W)) (frequencyTable : list (byte * W)).
Implicit Types (plaintextBytes : list byte) (bits : BitStream).

(** What [init_spec] gives, read from a successful construction. *)
Lemma init_inv frequencyTable self :
  HuffmanCode_init wadd weqb wltb frequencyTable = Ok self ->
  frequencyTable <> [] /\
  leaves (tree self) ≡ₚ map fst frequencyTable /\
  length (code_array self) = 256 /\
  (forall s, s ∈ leaves (tree self) ->
     exists path, codewordFor self s = Ok path /\ lookup_path (tree self) path = Some s) /\
  (forall s, s ∉ leaves (tree self) -> codewordFor self s = Ok []).
Proof.
  intros Hinit.
  assert (Hne : frequencyTable <> []).
  { intros ->. rewrite init_empty in Hinit. discriminate. }
  destruct (init_spec wadd weqb wltb frequencyTable Hne)
    as (self' & Hinit' & Hl & Hlen & Hin & Hout).
  rewrite Hinit in Hinit'. injection Hinit' as <-.
  split; [exact Hne|]. split; [exact Hl|]. split; [exact Hlen|]. split.
  - intros s Hs. destruct (Hin s Hs) as (path & Hp & Hpath).
    exists path. unfold codewordFor. rewrite Hp. split; [reflexivity|exact Hpath].
  - intros s Hs. unfold codewordFor. rewrite (Hout s Hs). reflexivity.
Qed.

(** With a table of 256 distinct keys every byte is a leaf, reached by its
    codeword, and the root is an internal node. *)
Lemma init_full frequencyTable self :
  is_frequency_table frequencyTable = true ->
  HuffmanCode_init wadd weqb wltb frequencyTable = Ok self ->
  isSingleton (tree self) = false /\
  length (code_array self) = 256 /\
  forall x : byte,
    x ∈ leaves (tree self) /\
    exists c, codewordFor self x = Ok c /\ lookup_path (tree self) c = Some x.
Proof.
  intros Hvalid Hinit.
  destruct (frequency_table_keys _ Hvalid) as [Hlen Hall].
  destruct (init_inv _ _ Hinit) as (_ & Hl & Hcode & Hin & _).
  split; [apply (init_internal wadd weqb wltb frequencyTable); [lia|exact Hinit]|].
  split; [exact Hcode|].
  intros x. assert (Hx : x ∈ leaves (tree self)) by (rewrite Hl; apply Hall).
  split; [exact Hx|apply Hin, Hx].
Qed.

Lemma init_total frequencyTable :
  is_frequency_table frequencyTable = true ->
  exists self, HuffmanCode_init wadd weqb wltb frequencyTable = Ok self.
Proof.
  intros Hvalid. destruct (frequency_table_keys _ Hvalid) as [Hlen _].
  destruct (init_spec wadd weqb wltb frequencyTable) as (self & Hinit & _); [|eauto].
  intros ->. discriminate.
Qed.

Lemma padded_length (n : nat) : (n + S (7 - n mod 8)) mod 8 = 0.
Proof.
  pose proof (Nat.div_mod_eq n 8) as Hdiv.
  pose proof (Nat.mod_upper_bound n 8 ltac:(lia)) as Hmod.
  replace (n + S (7 - n mod 8)) with ((n / 8 + 1) * 8) by lia.
  apply Nat.Div0.mod_mul.
Qed.

(** C2.  Whatever the symbols, [encode] returns the concatenation of their
    codewords followed by the padding: a 1 and then zeros, [8 - r] bits in all
    when [r], the length of the concatenation modulo 8, is not 0, and 8 bits
    when it is.  The padding has 1 to 8 bits and the result is a positive
    multiple of 8 bits long. *)
Theorem encode_padding frequencyTable self plaintextBytes :
  HuffmanCode_init wadd weqb wltb frequencyTable = Ok self ->
  exists codewords,
    Forall2 (fun symbol c => codewordFor self symbol = Ok c) plaintextBytes codewords /\
    let payload := concat codewords in
    let r := length payload mod 8 in
    let n := if r =? 0 then 8 else 8 - r in
    let padding := true :: replicate (n - 1) false in
    encode self plaintextBytes = Ok (payload ++ padding) /\
    length padding = n /\ 1 <= n <= 8 /\
    0 < length (payload ++ padding) /\
    length (payload ++ padding) mod 8 = 0.
Proof.
  intros Hinit. destruct (init_inv _ _ Hinit) as (_ & _ & Hlen & _).
  destruct (codewords_exist self plaintextBytes Hlen) as [codewords Hcw].
  exists codewords. split; [exact Hcw|]. cbv zeta.
  set (payload := concat codewords).
  pose proof (Nat.mod_upper_bound (length payload) 8 ltac:(lia)) as Hr.
  assert (E : (if length payload mod 8 =? 0 then 8 else 8 - length payload mod 8) - 1
              = 7 - length payload mod 8).
  { destruct (Nat.eqb_spec (length payload mod 8) 0) as [->|]; lia. }
  rewrite E. split; [apply encode_spec, Hcw|].
  rewrite length_app. cbn [length]. rewrite length_replicate.
  split; [destruct (Nat.eqb_spec (length payload mod 8) 0); lia|].
  split; [destruct (Nat.eqb_spec (length payload mod 8) 0); lia|].
  split; [lia|apply padded_length].
Qed.

(** C3, as the code has it.  [removePadding] fails with [IndexError] when the
    bit string holds no 1 (all zeros, or empty); otherwise it strips the
    trailing zeros and the 1 before them, so the result is shorter by one bit
    more than the number of trailing zeros: 1 to 8 bits exactly when there are
    at most seven of them. *)
Theorem removePadding_spec bits :
  (exists k, bits = replicate k false /\ removePadding bits = Raise IndexError) \/
  (exists payload k,
     bits = payload ++ true :: replicate k false /\
     removePadding bits = Ok payload /\
     length bits = length payload + (k + 1) /\
     (1 <= length bits - length payload <= 8 <-> k <= 7)).
Proof.
  destruct (bits_shape bits) as [[k ->]|(payload & k & ->)].
  - left. exists k. split; [reflexivity|apply removePadding_zeros].
  - right. exists payload, k. split; [reflexivity|].
    split; [apply removePadding_padded|].
    rewrite length_app. cbn [length]. rewrite length_replicate. lia.
Qed.

(** C4, as the code has it.  A symbol listed in a 256-entry table is a leaf
    of the tree whatever its weight, zero included: it has a codeword, which
    is not empty, and [encode] succeeds on every sequence that contains it. *)
Theorem encode_listed_symbol frequencyTable self (x : byte) (w : W) (before after : list byte) :
  is_frequency_table frequencyTable = true ->
  HuffmanCode_init wadd weqb wltb frequencyTable = Ok self ->
  (x, w) ∈ frequencyTable ->
  exists c bits,
    codewordFor self x = Ok c /\ c <> [] /\
    lookup_path (tree self) c = Some x /\
    encode self (before ++ x :: after) = Ok bits.
Proof.
  intros Hvalid Hinit _.
  destruct (init_full _ _ Hvalid Hinit) as (Hnode & Hlen & Hall).
  destruct (Hall x) as (_ & c & Hc & Hpath).
  destruct (codewords_exist self (before ++ x :: after) Hlen) as [cws Hcws].
  exists c. eexists. split; [exact Hc|].
  split; [exact (lookup_path_nonempty _ _ _ Hnode Hpath)|].
  split; [exact Hpath|]. apply encode_spec, Hcws.
Qed.


(** C10.  After construction from a table of 256 distinct keys, every byte
    is a leaf of the tree, exactly once, and has an entry in the codeword
    array: the path from the root to its leaf.  No lookup made by [encode]
    misses. *)
Theorem every_symbol_has_codeword frequencyTable :
  is_frequency_table frequencyTable = true ->
  exists self,
    HuffmanCode_init wadd weqb wltb frequencyTable = Ok self /\
    length (code_array self) = 256 /\
    length (leaves (tree self)) = 256 /\
    NoDup (leaves (tree self)) /\
    (forall x : byte,
       x ∈ leaves (tree self) /\
       exists c, code_array self !! Z.to_nat (int_from_bytes x) = Some c /\
                 codewordFor self x = Ok c /\
                 lookup_path (tree self) c = Some x) /\
    forall plaintextBytes, exists bits, encode self plaintextBytes = Ok bits.
Proof.
  intros Hvalid. destruct (init_total _ Hvalid) as [self Hinit].
  destruct (init_full _ _ Hvalid Hinit) as (Hnode & Hlen & Hall).
  destruct (init_inv _ _ Hinit) as (_ & Hl & _).
  destruct (frequency_table_keys _ Hvalid) as [Htable _].
  exists self. split; [exact Hinit|]. split; [exact Hlen|]. split.
  { rewrite Hl, length_map. exact Htable. }
  split.
  { rewrite Hl. apply distinct_NoDup.
    unfold is_frequency_table in Hvalid. apply andb_true_iff in Hvalid as [_ Hd].
    exact Hd. }
  split.
  - intros x. destruct (Hall x) as (Hx & c & Hc & Hpath).
    split; [exact Hx|]. exists c. split; [|split; assumption].
    unfold codewordFor in Hc.
    destruct (code_array self !! Z.to_nat (int_from_bytes x)); congruence.
  - intros plaintextBytes.
    destruct (codewords_exist self plaintextBytes Hlen) as [cws Hcws].
    eexists. apply encode_spec, Hcws.
Qed.

(** C9.  The codeword table derived from a 256-entry table is prefix-free:
    the codewords of two distinct symbols are not prefixes of one another. *)
Theorem codewords_prefix_free frequencyTable self (a b : byte) (ca cb : BitStream) :
  is_frequency_table frequencyTable = true ->
  HuffmanCode_init wadd weqb wltb frequencyTable = Ok self ->
  a <> b ->
  codewordFor self a = Ok ca ->
  codewordFor self b = Ok cb ->
  ~ ca `prefix_of` cb /\ ~ cb `prefix_of` ca.
Proof.
  intros Hvalid Hinit Hab Ha Hb.
  destruct (init_full _ _ Hvalid Hinit) as (_ & _ & Hall).
  destruct (Hall a) as (_ & ca' & Ha' & Hpa).
  destruct (Hall b) as (_ & cb' & Hb' & Hpb).
  assert (ca' = ca) as -> by congruence.
  assert (cb' = cb) as -> by congruence.
  split; intros [ext ->].
  - destruct (lookup_path_app _ _ _ _ _ Hpa Hpb) as [_ E]. contradiction.
  - destruct (lookup_path_app _ _ _ _ _ Hpb Hpa) as [_ E]. congruence.
Qed.

Lemma codewords_are_paths self plaintextBytes cws :
  (forall x : byte, exists c, codewordFor self x = Ok c /\ lookup_path (tree self) c = Some x) ->
  Forall2 (fun x c => codewordFor self x = Ok c) plaintextBytes cws ->
  Forall2 (fun x c => lookup_path (tree self) c = Some x) plaintextBytes cws.
Proof.
  intros Hall H. induction H as [|x c s cws Hc _ IH]; constructor; [|exact IH].
  destruct (Hall x) as (c' & Hc' & Hpath). congruence.
Qed.

(** The round trip for any table with two keys or more, on the sequences
    made of its keys. *)
Lemma decode_encode_keys frequencyTable self plaintextBytes :
  2 <= length frequencyTable ->
  (forall x, x ∈ plaintextBytes -> x ∈ map fst frequencyTable) ->
  HuffmanCode_init wadd weqb wltb frequencyTable = Ok self ->
  exists bits,
    encode self plaintextBytes = Ok bits /\
    decode (length bits) self bits = Some (Ok plaintextBytes).
Proof.
  intros Htwo Hkeys Hinit.
  destruct (init_inv _ _ Hinit) as (_ & Hl & Hlen & Hin & _).
  pose proof (init_internal wadd weqb wltb _ _ Htwo Hinit) as Hnode.
  assert (Hpaths : exists cws,
             Forall2 (fun x c => codewordFor self x = Ok c) plaintextBytes cws /\
             Forall2 (fun x c => lookup_path (tree self) c = Some x) plaintextBytes cws).
  { induction plaintextBytes as [|x s IH].
    - exists []. split; constructor.
    - destruct IH as (cws & H1 & H2).
      { intros y Hy. apply Hkeys. right. exact Hy. }
      destruct (Hin x) as (c & Hc & Hpath).
      { rewrite Hl. apply Hkeys. left. }
      exists (c :: cws). split; constructor; assumption. }
  destruct Hpaths as (cws & Hcws & Hpaths).
  eexists. split; [apply encode_spec, Hcws|].
  unfold decode. rewrite removePadding_padded.
  apply (decode_loop_more (length plaintextBytes)).
  - apply (decode_loop_paths self plaintextBytes cws [] Hnode Hpaths).
  - pose proof (paths_length _ _ _ Hnode Hpaths). rewrite length_app. lia.
Qed.

(** C1.  For a table of 256 distinct keys and every symbol sequence,
    decoding the encoding gives the sequence back.  (The weights play no part:
    the symbols of weight zero are leaves of the tree like the others.) *)
Theorem decode_encode frequencyTable plaintextBytes :
  is_frequency_table frequencyTable = true ->
  exists self bits,
    HuffmanCode_init wadd weqb wltb frequencyTable = Ok self /\
    encode self plaintextBytes = Ok bits /\
    decode (length bits) self bits = Some (Ok plaintextBytes).
Proof.
  intros Hvalid. destruct (init_total _ Hvalid) as [self Hinit].
  destruct (frequency_table_keys _ Hvalid) as [Hlen Hall].
  destruct (decode_encode_keys frequencyTable self plaintextBytes) as (bits & Henc & Hdec).
  - lia.
  - intros x _. apply Hall.
  - exact Hinit.
  - exists self, bits. split; [exact Hinit|]. split; assumption.
Qed.

End code_claims.

(** ** The decoder against the state machine of the specification *)

Section decoder_claims.
Context {W : Type}.
Implicit Types (t root : PrefixTree (W := W)) (self : HuffmanCode (W := W)).
Implicit Types (bits payload : BitStream) (st : position (W := W)).

(** One call of [traverseTree] from an internal node is a stretch of the
    machine's run: up to the next emitted symbol, or to the end of the bits
    at an internal node. *)
Lemma traverseTree_from_sm root t bits st :
  match st with AtRoot => root | Inside u => u end = t ->
  isSingleton t = false ->
  bits <> [] ->
  match traverseTree_from t bits with
  | Ok (s, rest) =>
      length rest < length bits /\
      sm_run root st bits = (let '(final, out) := sm_run root AtRoot rest in (final, s :: out))
  | Raise e => e = IndexError /\ exists u, sm_run root st bits = (Inside u, [])
  end.
Proof.
  revert bits st.
  induction t as [f s|f l IHl r IHr]; intros bits st Hst Hnode Hne; [discriminate|].
  destruct bits as [|b rest]; [contradiction|].
  cbn [traverseTree_from sm_run]. unfold sm_step. rewrite Hst.
  destruct b.
  - destruct r as [fr sr|fr rl rr].
    + cbn [traverseTree_from]. split; [simpl; lia|].
      destruct (sm_run root AtRoot rest) as [final out]. reflexivity.
    + destruct rest as [|b' rest'].
      * split; [reflexivity|]. eexists. reflexivity.
      * specialize (IHr (b' :: rest') (Inside (Node fr rl rr)) eq_refl eq_refl ltac:(discriminate)).
        destruct (traverseTree_from (Node fr rl rr) (b' :: rest')) as [[s rest'']|e].
        -- destruct IHr as [Hlen Hrun]. split; [simpl in *; lia|].
           rewrite Hrun. destruct (sm_run root AtRoot rest'') as [final out]. reflexivity.
        -- destruct IHr as [-> [u Hrun]]. split; [reflexivity|].
           exists u. rewrite Hrun. reflexivity.
  - destruct l as [fl sl|fl ll lr].
    + cbn [traverseTree_from]. split; [simpl; lia|].
      destruct (sm_run root AtRoot rest) as [final out]. reflexivity.
    + destruct rest as [|b' rest'].
      * split; [reflexivity|]. eexists. reflexivity.
      * specialize (IHl (b' :: rest') (Inside (Node fl ll lr)) eq_refl eq_refl ltac:(discriminate)).
        destruct (traverseTree_from (Node fl ll lr) (b' :: rest')) as [[s rest'']|e].
        -- destruct IHl as [Hlen Hrun]. split; [simpl in *; lia|].
           rewrite Hrun. destruct (sm_run root AtRoot rest'') as [final out]. reflexivity.
        -- destruct IHl as [-> [u Hrun]]. split; [reflexivity|].
           exists u. rewrite Hrun. reflexivity.
Qed.

Lemma decode_loop_sm self fuel bits (out : list byte) :
  isSingleton (tree self) = false ->
  length bits <= fuel ->
  decode_loop fuel self bits out =
    Some (match sm_run (tree self) AtRoot bits with
          | (AtRoot, emitted) => Ok (out ++ emitted)
          | (Inside _, _) => Raise IndexError
          end).
Proof.
  intros Hnode. revert bits out.
  induction fuel as [|fuel IH]; intros bits out Hfuel.
  - destruct bits; [|simpl in Hfuel; lia]. simpl. rewrite app_nil_r. reflexivity.
  - destruct bits as [|b rest]; [simpl; rewrite app_nil_r; reflexivity|].
    cbn [decode_loop]. unfold traverseTree.
    pose proof (traverseTree_from_sm (tree self) (tree self) (b :: rest) AtRoot
                  eq_refl Hnode ltac:(discriminate)) as H.
    destruct (traverseTree_from (tree self) (b :: rest)) as [[s rest']|e].
    + destruct H as [Hlen Hrun]. rewrite IH by (simpl in *; lia). rewrite Hrun.
      destruct (sm_run (tree self) AtRoot rest') as [[|u] emitted]; [|reflexivity].
      rewrite <- app_assoc. reflexivity.
    + destruct H as [-> [u Hrun]]. rewrite Hrun. reflexivity.
Qed.

Lemma traverseTree_from_inv t bits (s : byte) rest :
  traverseTree_from t bits = Ok (s, rest) ->
  exists path, bits = path ++ rest /\ lookup_path t path = Some s.
Proof.
  revert bits. induction t as [f s0|f l IHl r IHr]; intros bits H; cbn [traverseTree_from] in H.
  - injection H as -> ->. exists []. split; reflexivity.
  - destruct bits as [|[] bits']; [discriminate| |].
    + destruct (IHr _ H) as (path & -> & Hpath). exists (true :: path). split; [reflexivity|exact Hpath].
    + destruct (IHl _ H) as (path & -> & Hpath). exists (false :: path). split; [reflexivity|exact Hpath].
Qed.

(** A proper prefix of a codeword makes [traverseTree] run out of bits. *)
Lemma traverseTree_from_prefix t (q ext : BitStream) (s : byte) :
  lookup_path t (q ++ ext) = Some s -> ext <> [] ->
  traverseTree_from t q = Raise IndexError.
Proof.
  revert q. induction t as [f s0|f l IHl r IHr]; intros q H Hext.
  - destruct q as [|b q]; simpl in H; [|discriminate].
    destruct ext; [contradiction|discriminate].
  - destruct q as [|[] q]; [reflexivity| |]; simpl in *; eauto.
Qed.

Lemma decode_loop_ok_inv self fuel bits (acc out : list byte) :
  decode_loop fuel self bits acc = Some (Ok out) ->
  exists symbols cws,
    out = acc ++ symbols /\
    Forall2 (fun x c => lookup_path (tree self) c = Some x) symbols cws /\
    bits = concat cws.
Proof.
  revert bits acc. induction fuel as [|fuel IH]; intros bits acc H.
  - destruct bits; [|discriminate]. injection H as <-.
    exists [], []. rewrite app_nil_r. repeat split. constructor.
  - destruct bits as [|b rest].
    + injection H as <-. exists [], []. rewrite app_nil_r. repeat split. constructor.
    + cbn [decode_loop] in H. unfold traverseTree in H.
      destruct (traverseTree_from (tree self) (b :: rest)) as [[s rest']|e] eqn:Ht;
        [|discriminate].
      destruct (traverseTree_from_inv _ _ _ _ Ht) as (path & Hbits & Hpath).
      destruct (IH _ _ H) as (symbols & cws & -> & Hcws & ->).
      exists (s :: symbols), (path :: cws). rewrite <- app_assoc.
      split; [reflexivity|]. split; [constructor; assumption|exact Hbits].
Qed.

Lemma decode_loop_truncated self (symbols : list byte) cws (q : BitStream) fuel (acc : list byte) :
  isSingleton (tree self) = false ->
  Forall2 (fun x c => lookup_path (tree self) c = Some x) symbols cws ->
  q <> [] ->
  traverseTree_from (tree self) q = Raise IndexError ->
  length symbols < fuel ->
  decode_loop fuel self (concat cws ++ q) acc = Some (Raise IndexError).
Proof.
  intros Hnode H Hq Hraise. revert fuel acc.
  induction H as [|x c symbols cws Hc _ IH]; intros fuel acc Hfuel.
  - destruct fuel as [|fuel]; [simpl in Hfuel; lia|].
    simpl. destruct q as [|b q]; [contradiction|].
    cbn [decode_loop]. unfold traverseTree. rewrite Hraise. reflexivity.
  - destruct fuel as [|fuel]; [simpl in Hfuel; lia|].
    pose proof (lookup_path_nonempty _ _ _ Hnode Hc) as Hne.
    cbn [concat]. rewrite <- app_assoc.
    destruct (c ++ concat cws ++ q) as [|b rest] eqn:E.
    { apply app_eq_nil in E as [? _]. contradiction. }
    rewrite <- E. cbn [decode_loop]. rewrite E at 1. unfold traverseTree.
    rewrite (traverseTree_from_path _ _ _ _ Hc).
    apply IH. simpl in Hfuel. lia.
Qed.

(** C5.  On a code whose tree has an internal root, [decode] does what the
    state machine of the specification does on the payload.  It fails
    ([IndexError], raised by [codeWord[0]] in [traverseTree]) when the bits run
    out at an internal node below the root, that is, when the payload is a
    sequence of codewords followed by a non-empty proper prefix of a codeword;
    and it succeeds exactly when they run out with the position back at the
    root, that is, when the payload is a sequence of codewords, whose symbols
    it returns. *)
Theorem decode_truncated self bits payload :
  isSingleton (tree self) = false ->
  removePadding bits = Ok payload ->
  decode (length bits) self bits = Some (sm_decode (tree self) payload) /\
  (forall t, (sm_run (tree self) AtRoot payload).1 = Inside t ->
     decode (length bits) self bits = Some (Raise IndexError)) /\
  ((exists out, decode (length bits) self bits = Some (Ok out)) <->
     (sm_run (tree self) AtRoot payload).1 = AtRoot) /\
  (forall symbols cws q ext (s : byte),
     Forall2 (fun x c => lookup_path (tree self) c = Some x) symbols cws ->
     payload = concat cws ++ q -> q <> [] -> ext <> [] ->
     lookup_path (tree self) (q ++ ext) = Some s ->
     decode (length bits) self bits = Some (Raise IndexError)) /\
  (forall out,
     decode (length bits) self bits = Some (Ok out) <->
     exists cws,
       Forall2 (fun x c => lookup_path (tree self) c = Some x) out cws /\
       payload = concat cws).
Proof.
  intros Hnode Hpad.
  assert (Hlen : length payload < length bits).
  { destruct (removePadding_inv bits payload Hpad) as [k ->].
    rewrite length_app. simpl. lia. }
  assert (Hdec : decode (length bits) self bits = Some (sm_decode (tree self) payload)).
  { unfold decode. rewrite Hpad. rewrite (decode_loop_sm _ _ _ _ Hnode) by lia.
    unfold sm_decode. destruct (sm_run (tree self) AtRoot payload) as [[|u] emitted];
      reflexivity. }
  split; [exact Hdec|]. split; [|split; [|split]].
  - rewrite Hdec. unfold sm_decode.
    destruct (sm_run (tree self) AtRoot payload) as [[|u] emitted]; cbn [fst];
      intros t Ht; [discriminate|reflexivity].
  - rewrite Hdec. unfold sm_decode.
    destruct (sm_run (tree self) AtRoot payload) as [[|u] emitted]; cbn [fst].
    + split; [reflexivity|]. intros _. eexists. reflexivity.
    + split; [intros [out Hout]; discriminate|discriminate].
  - intros symbols cws q ext s Hcws -> Hq Hext Hpath.
    unfold decode. rewrite Hpad.
    apply (decode_loop_truncated self symbols cws q _ [] Hnode Hcws Hq).
    + exact (traverseTree_from_prefix _ _ _ _ Hpath Hext).
    + pose proof (paths_length _ _ _ Hnode Hcws). rewrite length_app in Hlen. lia.
  - intros out. unfold decode. rewrite Hpad. split.
    + intros H. destruct (decode_loop_ok_inv _ _ _ _ _ H) as (symbols & cws & -> & Hcws & ->).
      exists cws. split; [exact Hcws|reflexivity].
    + intros (cws & Hcws & ->).
      apply (decode_loop_more (length out)).
      * apply (decode_loop_paths self out cws [] Hnode Hcws).
      * pose proof (paths_length _ _ _ Hnode Hcws). lia.
Qed.

End decoder_claims.

(** ** The normaliser *)

Lemma total_fold (occurrences : list (byte * Z)) (acc : Z) :
  fold_left (fun total '(_, v) => (total + v)%Z) occurrences acc =
  (acc + total_occurrences occurrences)%Z.
Proof.
  revert acc. induction occurrences as [|[o v] occurrences IH]; intros acc; simpl.
  - unfold total_occurrences. simpl. lia.
  - rewrite IH. unfold total_occurrences. simpl. lia.
Qed.

(** *** Python's division: the rounding error *)

Lemma round_half_even_bound (num den : Z) :
  (0 < den ->
   - den <= 2 * (round_half_even num den * den - num) <= den)%Z.
Proof.
  intros Hden. unfold round_half_even.
  pose proof (Z.div_mod num den ltac:(lia)) as Hdm.
  pose proof (Z.mod_pos_bound num den Hden) as Hmod.
  destruct (Z.compare_spec (2 * (num mod den)) den) as [E|E|E];
    [destruct (Z.even (num / den))|..]; nia.
Qed.

Lemma round_half_even_nonneg (num den : Z) :
  (0 <= num -> 0 < den -> 0 <= round_half_even num den)%Z.
Proof.
  intros Hnum Hden. unfold round_half_even.
  pose proof (Z.div_pos num den Hnum Hden).
  destruct (2 * (num mod den) ?= den)%Z; [destruct (Z.even (num / den))|..]; lia.
Qed.

(** The quotient is at least [2^binade]. *)
Lemma binade_lower (n d : Z) :
  (0 < n)%Z -> (0 < d)%Z ->
  ((0 <= binade n d -> d * 2 ^ binade n d <= n) /\
   (binade n d < 0 -> d <= n * 2 ^ (- binade n d)))%Z.
Proof.
  intros Hn Hd. unfold binade.
  pose proof (Z.log2_spec n Hn) as [Hn1 _].
  pose proof (Z.log2_spec d Hd) as [_ Hd2].
  pose proof (Z.log2_nonneg n) as Hln. pose proof (Z.log2_nonneg d) as Hld.
  set (ln := Z.log2 n) in *. set (ld := Z.log2 d) in *.
  rewrite Z.pow_succ_r in Hd2 by exact Hld.
  destruct (Z.leb_spec 0 (ln - ld)) as [He|He].
  - destruct (Z.leb_spec (d * 2 ^ (ln - ld)) n) as [H|H].
    + split; [intros _; exact H|lia].
    + split.
      * intros He1.
        replace ln with (ld + 1 + (ln - ld - 1))%Z in Hn1 by lia.
        rewrite Z.pow_add_r, Z.pow_add_r in Hn1 by lia.
        change (2 ^ 1)%Z with 2%Z in Hn1.
        assert (0 < 2 ^ (ln - ld - 1))%Z by (apply Z.pow_pos_nonneg; lia).
        nia.
      * intros He1. assert (E : (ln - ld = 0)%Z) by lia.
        replace (- (ln - ld - 1))%Z with 1%Z by lia. change (2 ^ 1)%Z with 2%Z.
        replace ln with ld in Hn1 by lia. lia.
  - destruct (Z.leb_spec d (n * 2 ^ (- (ln - ld)))) as [H|H].
    + split; [lia|intros _; exact H].
    + split; [lia|]. intros _.
      replace (- (ln - ld - 1))%Z with (ld + 1 - ln)%Z by lia.
      assert (E : (2 ^ (ld + 1) = 2 ^ ln * 2 ^ (ld + 1 - ln))%Z).
      { rewrite <- Z.pow_add_r by lia. f_equal. lia. }
      rewrite Z.pow_add_r in E by lia. change (2 ^ 1)%Z with 2%Z in E.
      assert (0 < 2 ^ (ld + 1 - ln))%Z by (apply Z.pow_pos_nonneg; lia).
      nia.
Qed.

(** A quotient [M/K] that is close to [n/d] in the integers is close to it
    in the rationals: relatively, and absolutely. *)
Lemma close_relative (v q iM iK iN iD P eps : Q) :
  (0 < iK -> 0 < iD -> 0 < eps -> eps * P == 1 ->
   v * iK == iM -> q * iD == iN ->
   - (iN * iK) <= P * (iM * iD - iN * iK) ->
   P * (iM * iD - iN * iK) <= iN * iK ->
   q - q * eps <= v /\ v <= q + q * eps)%Q.
Proof.
  intros HK HD Heps HP Hv Hq H1 H2.
  rewrite <- Hv, <- Hq in H1, H2.
  assert (HX : (0 < iK * iD)%Q) by nra.
  assert (A1 : (- q <= P * (v - q))%Q).
  { apply Qnot_lt_le. intros C.
    assert ((P * (v - q) + q) * (iK * iD) < 0)%Q by nra. nra. }
  assert (A2 : (P * (v - q) <= q)%Q).
  { apply Qnot_lt_le. intros C.
    assert (0 < (P * (v - q) - q) * (iK * iD))%Q by nra. nra. }
  assert (B1 : (eps * (- q) <= eps * (P * (v - q)))%Q) by nra.
  assert (B2 : (eps * (P * (v - q)) <= eps * q)%Q) by nra.
  assert (E : (eps * (P * (v - q)) == v - q)%Q).
  { rewrite Qmult_assoc, HP. ring. }
  rewrite E in B1, B2. split; lra.
Qed.

Lemma close_absolute (v q iM iK iN iD eta : Q) :
  (0 < iK -> 0 < iD -> 0 < eta -> eta * (2 * iK) == 1 ->
   v * iK == iM -> q * iD == iN ->
   - iD <= 2 * (iM * iD - iN * iK) ->
   2 * (iM * iD - iN * iK) <= iD ->
   q - eta <= v /\ v <= q + eta)%Q.
Proof.
  intros HK HD Heta HP Hv Hq H1 H2.
  rewrite <- Hv, <- Hq in H1, H2.
  assert (A1 : (- (1) <= 2 * iK * (v - q))%Q).
  { apply Qnot_lt_le. intros C.
    assert ((2 * iK * (v - q) + 1) * iD < 0)%Q by nra. nra. }
  assert (A2 : (2 * iK * (v - q) <= 1)%Q).
  { apply Qnot_lt_le. intros C.
    assert (0 < (2 * iK * (v - q) - 1) * iD)%Q by nra. nra. }
  assert (B1 : (eta * (- (1)) <= eta * (2 * iK * (v - q)))%Q) by nra.
  assert (B2 : (eta * (2 * iK * (v - q)) <= eta * 1)%Q) by nra.
  assert (E : (eta * (2 * iK * (v - q)) == v - q)%Q).
  { rewrite !Qmult_assoc. rewrite <- (Qmult_assoc eta 2 iK), HP. ring. }
  rewrite E in B1, B2. split; lra.
Qed.

Lemma inject_Z_pos (z : Z) : (0 < z)%Z -> (0 < inject_Z z)%Q.
Proof. intros H. rewrite (Zlt_Qlt 0) in H. exact H. Qed.

Lemma Qdiv_cancel (x y : Q) : (0 < y -> x / y * y == x)%Q.
Proof.
  intros Hy. rewrite Qmult_comm. apply Qmult_div_r.
  intros C. rewrite C in Hy. apply (Qlt_irrefl 0), Hy.
Qed.

(** The double nearest to a positive quotient is not negative, and differs
    from the quotient by at most the quotient times 2^-53 when the quotient
    is at least 2^-1022, and by at most 2^-1075 below. *)
Lemma nearest_double_bound (n d : Z) :
  (0 < n)%Z -> (0 < d)%Z ->
  (0 <= nearest_double n d /\
   inject_Z n / inject_Z d - inject_Z n / inject_Z d * unit_roundoff - half_least_double
     <= nearest_double n d /\
   nearest_double n d
     <= inject_Z n / inject_Z d + inject_Z n / inject_Z d * unit_roundoff
        + half_least_double)%Q.
Proof.
  intros Hn Hd.
  pose proof (inject_Z_pos n Hn) as HiN. pose proof (inject_Z_pos d Hd) as HiD.
  assert (Hq : (inject_Z n / inject_Z d * inject_Z d == inject_Z n)%Q).
  { apply Qdiv_cancel, HiD. }
  assert (Hq0 : (0 < inject_Z n / inject_Z d)%Q).
  { apply Qlt_shift_div_l; [exact HiD|]. lra. }
  set (q := (inject_Z n / inject_Z d)%Q) in *.
  assert (Heps : (0 < unit_roundoff)%Q) by reflexivity.
  assert (Heta : (0 < half_least_double)%Q) by reflexivity.
  assert (HP : (unit_roundoff * inject_Z (2 ^ 53) == 1)%Q) by reflexivity.
  destruct (binade_lower n d Hn Hd) as [Hlow1 Hlow2].
  unfold nearest_double.
  set (e := binade n d) in *.
  set (u := (Z.max e (-1022) - 52)%Z).
  destruct (Z.leb_spec 0 u) as [Hu|Hu].
  - (* the quotient is at least 2^52: the result is an integer *)
    assert (He : (e = u + 52)%Z) by lia.
    assert (Hpu : (0 < 2 ^ u)%Z) by (apply Z.pow_pos_nonneg; lia).
    pose proof (round_half_even_bound n (d * 2 ^ u) ltac:(nia)) as Hm.
    pose proof (round_half_even_nonneg n (d * 2 ^ u) ltac:(lia) ltac:(nia)) as Hm0.
    set (m := round_half_even n (d * 2 ^ u)) in *.
    assert (Hlow : (d * 2 ^ u * 2 ^ 52 <= n)%Z).
    { specialize (Hlow1 ltac:(lia)). rewrite He, Z.pow_add_r in Hlow1 by lia. lia. }
    split.
    { change 0%Q with (inject_Z 0). rewrite <- Zle_Qle. nia. }
    assert (H1 : (- (n * 1) <= 2 ^ 53 * (m * 2 ^ u * d - n * 1))%Z).
    { change (2 ^ 53)%Z with (2 * 2 ^ 52)%Z. nia. }
    assert (H2 : (2 ^ 53 * (m * 2 ^ u * d - n * 1) <= n * 1)%Z).
    { change (2 ^ 53)%Z with (2 * 2 ^ 52)%Z. nia. }
    rewrite Zle_Qle in H1, H2. unfold Zminus in H1, H2.
    rewrite ?inject_Z_opp, ?inject_Z_mult, ?inject_Z_plus, ?inject_Z_opp,
      ?inject_Z_mult in H1.
    rewrite ?inject_Z_mult, ?inject_Z_plus, ?inject_Z_opp, ?inject_Z_mult in H2.
    assert (Hv : (inject_Z (m * 2 ^ u) * inject_Z 1 == inject_Z m * inject_Z (2 ^ u))%Q).
    { rewrite inject_Z_mult. apply Qmult_1_r. }
    destruct (close_relative (inject_Z (m * 2 ^ u)) q (inject_Z m * inject_Z (2 ^ u))
                (inject_Z 1) (inject_Z n) (inject_Z d) (inject_Z (2 ^ 53)) unit_roundoff
                eq_refl HiD Heps HP Hv Hq ltac:(lra) ltac:(lra))
      as [L U].
    split; lra.
  - (* the result is a multiple of 2^u, u < 0 *)
    set (k := (- u)%Z).
    assert (Hk : (0 < k)%Z) by lia.
    assert (Hpk : (0 < 2 ^ k)%Z) by (apply Z.pow_pos_nonneg; lia).
    pose proof (round_half_even_bound (n * 2 ^ k) d Hd) as Hm.
    pose proof (round_half_even_nonneg (n * 2 ^ k) d ltac:(nia) Hd) as Hm0.
    set (m := round_half_even (n * 2 ^ k) d) in *.
    pose proof (inject_Z_pos (2 ^ k) Hpk) as HiK.
    assert (Hv : (inject_Z m / inject_Z (2 ^ k) * inject_Z (2 ^ k) == inject_Z m)%Q).
    { apply Qdiv_cancel, HiK. }
    split.
    { apply Qle_shift_div_l; [exact HiK|]. rewrite Qmult_0_l.
      change 0%Q with (inject_Z 0). rewrite <- Zle_Qle. exact Hm0. }
    destruct Hm as [Hm1 Hm2].
    destruct (Z.leb_spec (-1022) e) as [Hnormal|Hsub].
    + (* normal range: the relative error is at most 2^-53 *)
      assert (Hlow : (d * 2 ^ 52 <= n * 2 ^ k)%Z).
      { destruct (Z.leb_spec 0 e) as [He|He].
        - specialize (Hlow1 He).
          replace 52%Z with (e + k)%Z by lia.
          rewrite Z.pow_add_r by lia. nia.
        - specialize (Hlow2 He).
          replace k with (- e + 52)%Z by lia.
          rewrite Z.pow_add_r by lia. nia. }
      assert (H1 : (- (n * 2 ^ k) <= 2 ^ 53 * (m * d - n * 2 ^ k))%Z).
      { change (2 ^ 53)%Z with (2 * 2 ^ 52)%Z. nia. }
      assert (H2 : (2 ^ 53 * (m * d - n * 2 ^ k) <= n * 2 ^ k)%Z).
      { change (2 ^ 53)%Z with (2 * 2 ^ 52)%Z. nia. }
      rewrite Zle_Qle in H1, H2. unfold Zminus in H1, H2.
      rewrite ?inject_Z_opp, ?inject_Z_mult, ?inject_Z_plus, ?inject_Z_opp,
        ?inject_Z_mult in H1.
      rewrite ?inject_Z_mult, ?inject_Z_plus, ?inject_Z_opp, ?inject_Z_mult in H2.
      destruct (close_relative (inject_Z m / inject_Z (2 ^ k)) q (inject_Z m)
                  (inject_Z (2 ^ k)) (inject_Z n) (inject_Z d) (inject_Z (2 ^ 53))
                  unit_roundoff HiK HiD Heps HP Hv Hq ltac:(lra) ltac:(lra))
        as [L U].
      split; lra.
    + (* below 2^-1022: the absolute error is at most 2^-1075 *)
      assert (Ek : k = 1074%Z) by lia.
      rewrite Zle_Qle in Hm1, Hm2. unfold Zminus in Hm1, Hm2.
      rewrite ?inject_Z_opp, ?inject_Z_mult, ?inject_Z_plus, ?inject_Z_opp,
        ?inject_Z_mult in Hm1.
      rewrite ?inject_Z_mult, ?inject_Z_plus, ?inject_Z_opp, ?inject_Z_mult in Hm2.
      assert (HK2 : (half_least_double * (2 * inject_Z (2 ^ k)) == 1)%Q)
        by (rewrite Ek; reflexivity).
      destruct (close_absolute (inject_Z m / inject_Z (2 ^ k)) q (inject_Z m)
                  (inject_Z (2 ^ k)) (inject_Z n) (inject_Z d) half_least_double
                  HiK HiD Heta HK2 Hv Hq Hm1 Hm2)
        as [L U].
      assert (0 <= q * unit_roundoff)%Q by nra.
      split; lra.
Qed.

(** The weight that the normaliser gives to a count. *)
Lemma py_truediv_bound (c total : Z) :
  (0 <= c)%Z -> (0 < total)%Z ->
  (0 <= py_truediv c total /\
   inject_Z c / inject_Z total - inject_Z c / inject_Z total * unit_roundoff
     - half_least_double <= py_truediv c total /\
   py_truediv c total
     <= inject_Z c / inject_Z total + inject_Z c / inject_Z total * unit_roundoff
        + half_least_double)%Q.
Proof.
  intros Hc Htotal. unfold py_truediv.
  assert (Heta : (0 < half_least_double)%Q) by reflexivity.
  destruct (Z.eqb_spec c 0) as [->|Hc0]; cbn [orb].
  - assert (E : (inject_Z 0 / inject_Z total == 0)%Q).
    { unfold Qdiv. apply Qmult_0_l. }
    rewrite E. split; [apply Qle_refl|]. split; lra.
  - destruct (Z.eqb_spec total 0) as [?|_]; [lia|].
    rewrite (Z.sgn_pos c), (Z.sgn_pos total) by lia. cbn [Z.eqb Pos.eqb].
    rewrite (Z.abs_eq c), (Z.abs_eq total) by lia.
    apply nearest_double_bound; lia.
Qed.

(** The weights of a whole table: none is negative, and their sum differs
    from the exact quotient of the sum of the counts by the total by at most
    that quotient times 2^-53, and 2^-1075 for every entry. *)
Lemma normalised_sum (occurrences : list (byte * Z)) (total : Z) :
  Forall (fun kv => (0 <= kv.2)%Z) occurrences -> (0 < total)%Z ->
  let frequencies := map (fun '(o, v) => (o, py_truediv v total)) occurrences in
  let x := (inject_Z (total_occurrences occurrences) / inject_Z total)%Q in
  let n := inject_Z (Z.of_nat (length occurrences)) in
  Forall (fun kv => (0 <= kv.2)%Q) frequencies /\
  (x - x * unit_roundoff - n * half_least_double <= Qsum (map snd frequencies))%Q /\
  (Qsum (map snd frequencies) <= x + x * unit_roundoff + n * half_least_double)%Q.
Proof.
  intros Hnonneg Htotal. cbv zeta.
  induction Hnonneg as [|[o c] l Hc _ (IH0 & IH1 & IH2)].
  - split; [constructor|]. unfold total_occurrences. simpl.
    assert (E : (inject_Z 0 / inject_Z total == 0)%Q).
    { unfold Qdiv. apply Qmult_0_l. }
    rewrite E. change (inject_Z (Z.of_nat 0)) with 0%Q. split; lra.
  - cbn [snd] in Hc.
    destruct (py_truediv_bound c total Hc Htotal) as (B0 & B1 & B2).
    split; [constructor; [exact B0|exact IH0]|].
    assert (Ex : (inject_Z (total_occurrences ((o, c) :: l)) / inject_Z total
                  == inject_Z c / inject_Z total
                     + inject_Z (total_occurrences l) / inject_Z total)%Q).
    { unfold total_occurrences. cbn [map snd fold_right].
      rewrite inject_Z_plus. unfold Qdiv. ring. }
    assert (En : (inject_Z (Z.of_nat (length ((o, c) :: l)))
                  == inject_Z (Z.of_nat (length l)) + 1)%Q).
    { cbn [length]. rewrite Nat2Z.inj_succ. unfold Z.succ.
      rewrite inject_Z_plus. reflexivity. }
    rewrite Ex, En. cbn [map snd Qsum fold_right].
    change (fold_right Qplus 0%Q (map snd (map (fun '(o0, v) => (o0, py_truediv v total)) l)))
      with (Qsum (map snd (map (fun '(o0, v) => (o0, py_truediv v total)) l))).
    set (s := Qsum (map snd (map (fun '(o0, v) => (o0, py_truediv v total)) l))) in *.
    set (xc := (inject_Z c / inject_Z total)%Q) in *.
    set (xl := (inject_Z (total_occurrences l) / inject_Z total)%Q) in *.
    set (nl := inject_Z (Z.of_nat (length l))) in *.
    set (w := py_truediv c total) in *.
    split; lra.
Qed.

(** C6.  On a table of non-negative counts, the normaliser fails with
    [ValueError] when all the counts are zero (their total is then zero) and
    yields no table; when the total is positive it succeeds and gives every
    symbol the quotient of its count by the total as Python's division
    returns it, the nearest double.  These weights are not negative, and they
    sum to 1.0 within the floating-point tolerance: the sum of their values
    differs from 1 by at most 2^-53, and 2^-1075 for every entry of the
    table, which is less than the 0.000001 of the class for a table of all
    the bytes. *)
Theorem occurrences2frequencies_spec (occurrences : list (byte * Z)) :
  Forall (fun kv => (0 <= kv.2)%Z) occurrences ->
  (Forall (fun kv => kv.2 = 0%Z) occurrences ->
     occurrences2frequencies py_truediv occurrences = Raise ValueError) /\
  (total_occurrences occurrences = 0%Z ->
     occurrences2frequencies py_truediv occurrences = Raise ValueError) /\
  ((0 < total_occurrences occurrences)%Z ->
     exists frequencies,
       occurrences2frequencies py_truediv occurrences = Ok frequencies /\
       map fst frequencies = map fst occurrences /\
       Forall2 (fun kv fw => fw.2 = py_truediv kv.2 (total_occurrences occurrences))
         occurrences frequencies /\
       Forall (fun kv => (0 <= kv.2)%Q) frequencies /\
       (Qabs (Qsum (map snd frequencies) - 1)
          <= unit_roundoff
             + inject_Z (Z.of_nat (length occurrences)) * half_least_double)%Q /\
       (length occurrences <= 256 ->
        (Qabs (Qsum (map snd frequencies) - 1) < 1 # 1000000)%Q)).
Proof.
  intros Hnonneg. unfold occurrences2frequencies. rewrite total_fold, Z.add_0_l.
  split; [|split].
  - intros Hzero.
    assert (E : total_occurrences occurrences = 0%Z).
    { clear Hnonneg. induction Hzero as [|[o v] l Hv _ IH]; [reflexivity|].
      unfold total_occurrences in *. simpl in *. lia. }
    rewrite E. reflexivity.
  - intros ->. reflexivity.
  - intros Hpos. destruct (Z.eqb_spec (total_occurrences occurrences) 0) as [E|_]; [lia|].
    eexists. split; [reflexivity|].
    destruct (normalised_sum occurrences (total_occurrences occurrences) Hnonneg Hpos)
      as (H0 & H1 & H2).
    cbv zeta in H0, H1, H2.
    assert (Ex : (inject_Z (total_occurrences occurrences)
                  / inject_Z (total_occurrences occurrences) == 1)%Q).
    { apply Qmult_inv_r. intros C.
      pose proof (inject_Z_pos _ Hpos) as Hp. rewrite C in Hp.
      apply (Qlt_irrefl 0), Hp. }
    rewrite Ex in H1, H2.
    set (s := Qsum _) in *.
    set (n := inject_Z (Z.of_nat (length occurrences))) in *.
    assert (Hn : (0 <= n)%Q).
    { subst n. change 0%Q with (inject_Z 0). rewrite <- Zle_Qle. lia. }
    assert (Heta : (0 < half_least_double)%Q) by reflexivity.
    assert (Hbound : (Qabs (s - 1) <= unit_roundoff + n * half_least_double)%Q).
    { apply Qabs_Qle_condition. split; lra. }
    split; [|split; [|split; [exact H0|split; [exact Hbound|]]]].
    + rewrite map_map. apply map_ext. intros [o v]. reflexivity.
    + clear. generalize (total_occurrences occurrences). intros total.
      induction occurrences as [|[o v] l IH]; cbn [map];
        [constructor|constructor; [reflexivity|exact IH]].
    + intros Hlen. eapply Qle_lt_trans; [exact Hbound|].
      assert (Hn256 : (n <= 256)%Q).
      { subst n. change 256%Q with (inject_Z 256). rewrite <- Zle_Qle. lia. }
      assert (Hc : (unit_roundoff + 256 * half_least_double < 1 # 1000000)%Q)
        by reflexivity.
      set (a := unit_roundoff) in *. set (b := half_least_double) in *.
      nra.
Qed.

(** ** The order on trees and the merges *)

Section tie_break.
Context {W : Type}.
Variable wadd : W -> W -> W.
Variable weqb : W -> W -> bool.
Variable wltb : W -> W -> bool.
Implicit Types (t l r : PrefixTree (W := W)) (m : MinHeapWrapper (W := W)).

Lemma int_from_bytes_bound (b : byte) : (0 <= int_from_bytes b <= 255)%Z.
Proof. unfold int_from_bytes. pose proof (Byte.to_N_bounded b). lia. Qed.

Lemma int_from_bytes_inj (a b : byte) : int_from_bytes a = int_from_bytes b -> a = b.
Proof. intros H. apply index_inj. rewrite H. reflexivity. Qed.

(** With the sentinel 1000, [find_smallest] returns a symbol, never the
    sentinel: the smallest symbol of the tree. *)
Lemma find_smallest_1000 t :
  exists b, find_smallest t 1000 = PyBytes b /\
            b ∈ leaves t /\
            int_from_bytes b = smallest_symbol t.
Proof.
  induction t as [f s|f l (bl & Hl & Hinl & Hsl) r (br & Hr & Hinr & Hsr)];
    cbn [find_smallest leaves smallest_symbol].
  - pose proof (int_from_bytes_bound s) as Hs.
    destruct (Z.ltb_spec (int_from_bytes s) 1000) as [_|?]; [|lia].
    exists s. split; [reflexivity|]. split; [|reflexivity].
    apply list_elem_of_singleton. reflexivity.
  - rewrite Hl, Hr. unfold py_min, py_lt.
    destruct (Z.ltb_spec (int_from_bytes br) (int_from_bytes bl)) as [Hlt|Hge].
    + exists br. split; [reflexivity|]. split; [apply elem_of_app; right; exact Hinr|]. lia.
    + exists bl. split; [reflexivity|]. split; [apply elem_of_app; left; exact Hinl|]. lia.
Qed.

(** [__lt__] compares the weights and, when they are equal, the smallest
    symbols. *)
Lemma PrefixTree_lt_smallest t1 t2 :
  PrefixTree_lt weqb wltb t1 t2 =
    if weqb (key t1) (key t2)
    then (smallest_symbol t1 <? smallest_symbol t2)%Z
    else wltb (key t1) (key t2).
Proof.
  unfold PrefixTree_lt.
  destruct (find_smallest_1000 t1) as (b1 & -> & _ & <-).
  destruct (find_smallest_1000 t2) as (b2 & -> & _ & <-).
  reflexivity.
Qed.

Hypothesis Horder : weight_order weqb wltb.

Lemma weqb_sym_eq (a b : W) : weqb a b = weqb b a.
Proof.
  destruct (weqb a b) eqn:E1, (weqb b a) eqn:E2; try reflexivity.
  - rewrite (weq_sym _ _ Horder _ _ E1) in E2. discriminate.
  - rewrite (weq_sym _ _ Horder _ _ E2) in E1. discriminate.
Qed.

Lemma wltb_asym (a b : W) : wltb a b = true -> wltb b a = false.
Proof.
  intros H. destruct (wltb b a) eqn:E; [|reflexivity].
  pose proof (wlt_trans _ _ Horder _ _ _ H E) as Haa.
  rewrite (wlt_irrefl _ _ Horder a a (weq_refl _ _ Horder a)) in Haa. discriminate.
Qed.

Lemma PrefixTree_lt_asym t1 t2 :
  PrefixTree_lt weqb wltb t1 t2 = true -> PrefixTree_lt weqb wltb t2 t1 = false.
Proof.
  rewrite !PrefixTree_lt_smallest, (weqb_sym_eq (key t2)).
  destruct (weqb (key t1) (key t2)).
  - intros H. apply Z.ltb_lt in H. apply Z.ltb_ge. lia.
  - apply wltb_asym.
Qed.

Lemma PrefixTree_le_trans t1 t2 t3 :
  PrefixTree_lt weqb wltb t2 t1 = false ->
  PrefixTree_lt weqb wltb t3 t2 = false ->
  PrefixTree_lt weqb wltb t3 t1 = false.
Proof.
  rewrite !PrefixTree_lt_smallest.
  destruct (weqb (key t2) (key t1)) eqn:E21;
    destruct (weqb (key t3) (key t2)) eqn:E32; intros H21 H32.
  - rewrite (weq_trans _ _ Horder _ _ _ E32 E21).
    apply Z.ltb_ge in H21, H32. apply Z.ltb_ge. lia.
  - rewrite <- (wlt_compat_r _ _ Horder _ _ _ E21).
    destruct (weqb (key t3) (key t1)) eqn:E31; [|exact H32].
    rewrite (weq_trans _ _ Horder _ _ _ E31 (weq_sym _ _ Horder _ _ E21)) in E32.
    discriminate.
  - rewrite (wlt_compat_l _ _ Horder _ _ _ E32).
    destruct (weqb (key t3) (key t1)) eqn:E31; [|exact H21].
    rewrite (weq_trans _ _ Horder _ _ _ (weq_sym _ _ Horder _ _ E32) E31) in E21.
    discriminate.
  - pose proof (wlt_total _ _ Horder _ _ E21 H21) as L12.
    pose proof (wlt_total _ _ Horder _ _ E32 H32) as L23.
    pose proof (wlt_trans _ _ Horder _ _ _ L12 L23) as L13.
    destruct (weqb (key t3) (key t1)) eqn:E31.
    + rewrite (wlt_irrefl _ _ Horder _ _ (weq_sym _ _ Horder _ _ E31)) in L13.
      discriminate.
    + apply wltb_asym. exact L13.
Qed.

(** Two trees that [__lt__] does not separate have the same smallest
    symbol. *)
Lemma PrefixTree_lt_total t1 t2 :
  PrefixTree_lt weqb wltb t1 t2 = false ->
  PrefixTree_lt weqb wltb t2 t1 = false ->
  smallest_symbol t1 = smallest_symbol t2.
Proof.
  rewrite !PrefixTree_lt_smallest, (weqb_sym_eq (key t2)).
  destruct (weqb (key t1) (key t2)) eqn:E; intros H12 H21.
  - apply Z.ltb_ge in H12, H21. lia.
  - rewrite (wlt_total _ _ Horder _ _ E H12) in H21. discriminate.
Qed.

Lemma smallest_symbol_leaf t :
  exists b, b ∈ leaves t /\ int_from_bytes b = smallest_symbol t.
Proof. destruct (find_smallest_1000 t) as (b & _ & Hin & Hs). eauto. Qed.

(** Two trees with no leaf in common are separated by [__lt__]. *)
Lemma PrefixTree_lt_disjoint t1 t2 :
  (forall b, b ∈ leaves t1 -> b ∈ leaves t2 -> False) ->
  PrefixTree_lt weqb wltb t2 t1 = false ->
  PrefixTree_lt weqb wltb t1 t2 = true.
Proof.
  intros Hdisj H21.
  destruct (PrefixTree_lt weqb wltb t1 t2) eqn:H12; [reflexivity|].
  pose proof (PrefixTree_lt_total _ _ H12 H21) as E.
  destruct (smallest_symbol_leaf t1) as (b1 & Hin1 & Hb1).
  destruct (smallest_symbol_leaf t2) as (b2 & Hin2 & Hb2).
  assert (b1 = b2) as -> by (apply int_from_bytes_inj; congruence).
  destruct (Hdisj b2 Hin1 Hin2).
Qed.

(** The invariant of the loop of [__init__]: the list is in heap order, no
    symbol occurs twice among its trees, and every merge made so far put the
    lesser tree on the left. *)
Lemma merge_loop_inv fuel m m' :
  heapq.is_heap (PrefixTree_lt weqb wltb) m ->
  NoDup (flat_map leaves m) ->
  Forall (merges_ordered (PrefixTree_lt weqb wltb)) m ->
  merge_loop wadd weqb wltb fuel m = Ok m' ->
  Forall (merges_ordered (PrefixTree_lt weqb wltb)) m'.
Proof.
  revert m. induction fuel as [|fuel IH]; intros m Hheap Hnd Hord Hloop;
    cbn [merge_loop] in Hloop.
  - injection Hloop as <-. exact Hord.
  - case_bool_decide as Hsize; [|injection Hloop as <-; exact Hord].
    destruct (merge_step weqb wltb m Hsize) as (t1 & m1 & t2 & m2 & H1 & H2 & P).
    rewrite H1 in Hloop. cbn [bind] in Hloop.
    rewrite H2 in Hloop. cbn [bind] in Hloop.
    destruct (heappop_is_heap _ PrefixTree_lt_asym PrefixTree_le_trans _ _ _ Hheap H1)
      as [Hheap1 Hmin1].
    destruct (heappop_is_heap _ PrefixTree_lt_asym PrefixTree_le_trans _ _ _ Hheap1 H2)
      as [Hheap2 _].
    pose proof (popMin_perm weqb wltb _ _ _ H2) as P2.
    assert (Hle : PrefixTree_lt weqb wltb t2 t1 = false).
    { apply Hmin1. rewrite P2. apply list_elem_of_here. }
    rewrite P in Hnd, Hord. simpl in Hnd.
    apply Forall_cons in Hord as [Ho1 Hord]. apply Forall_cons in Hord as [Ho2 Hord].
    apply (IH (push weqb wltb m2 (fromTwoTrees wadd t1 t2))); [| | |exact Hloop].
    + apply heappush_is_heap;
        [exact PrefixTree_lt_asym|exact PrefixTree_le_trans|exact Hheap2].
    + rewrite push_perm. simpl. rewrite <- app_assoc. exact Hnd.
    + rewrite push_perm. apply Forall_cons. split; [|exact Hord].
      intros l r Hin. cbn [fromTwoTrees merges] in Hin.
      apply elem_of_cons in Hin as [E|Hin].
      * injection E as -> ->. apply PrefixTree_lt_disjoint; [|exact Hle].
        intros b Hb1 Hb2. apply NoDup_app in Hnd as (_ & Hdisj & _).
        apply (Hdisj b Hb1). apply elem_of_app. left. exact Hb2.
      * apply elem_of_app in Hin as [Hin|Hin]; [apply Ho1|apply Ho2]; exact Hin.
Qed.

(** *** The construction against the builder of the specification *)

Lemma spec_lesser_lt t1 t2 : spec_lesser weqb wltb t1 t2 = PrefixTree_lt weqb wltb t1 t2.
Proof. rewrite PrefixTree_lt_smallest. reflexivity. Qed.

Lemma PrefixTree_lt_refl_false t : PrefixTree_lt weqb wltb t t = false.
Proof.
  destruct (PrefixTree_lt weqb wltb t t) eqn:E; [|reflexivity].
  pose proof (PrefixTree_lt_asym _ _ E). congruence.
Qed.

(** [spec_pop] takes from the queue a node that no other is lesser than. *)
Lemma spec_pop_least (queue : list (PrefixTree (W := W))) :
  match spec_pop weqb wltb queue with
  | None => queue = []
  | Some (t, rest) =>
      queue ≡ₚ t :: rest /\
      forall u, u ∈ rest -> PrefixTree_lt weqb wltb u t = false
  end.
Proof.
  induction queue as [|t queue IH]; cbn [spec_pop]; [reflexivity|].
  destruct (spec_pop weqb wltb queue) as [[u rest]|].
  - destruct IH as [P Hmin]. rewrite spec_lesser_lt.
    destruct (PrefixTree_lt weqb wltb u t) eqn:Hut.
    + split; [rewrite P; apply perm_swap|].
      intros x Hx. apply elem_of_cons in Hx as [->|Hx].
      * exact (PrefixTree_lt_asym _ _ Hut).
      * apply Hmin, Hx.
    + split; [reflexivity|].
      intros x Hx. rewrite P in Hx. apply elem_of_cons in Hx as [->|Hx]; [exact Hut|].
      exact (PrefixTree_le_trans _ _ _ Hut (Hmin x Hx)).
  - subst queue. split; [reflexivity|]. intros u Hu. inversion Hu.
Qed.

(** Among trees with no symbol in common, a least tree is unique. *)
Lemma least_unique (queue rest : list (PrefixTree (W := W))) t t' :
  queue ≡ₚ t :: rest ->
  NoDup (flat_map leaves queue) ->
  t' ∈ queue ->
  PrefixTree_lt weqb wltb t' t = false ->
  PrefixTree_lt weqb wltb t t' = false ->
  t = t'.
Proof.
  intros P Hnd Hin H1 H2. rewrite P in Hin, Hnd.
  apply elem_of_cons in Hin as [->|Hin]; [reflexivity|]. exfalso.
  pose proof (PrefixTree_lt_total _ _ H2 H1) as Hs.
  destruct (smallest_symbol_leaf t) as (b1 & Hin1 & Hb1).
  destruct (smallest_symbol_leaf t') as (b2 & Hin2 & Hb2).
  assert (b1 = b2) as -> by (apply int_from_bytes_inj; congruence).
  simpl in Hnd. apply NoDup_app in Hnd as (_ & Hdisj & _).
  apply (Hdisj b2 Hin1).
  apply list_elem_of_In, in_flat_map. exists t'.
  split; [apply list_elem_of_In, Hin|apply list_elem_of_In, Hin2].
Qed.

(** [popMin] on a heap and [spec_pop] on a list of the same trees take the
    same tree. *)
Lemma popMin_spec_pop m (queue : list (PrefixTree (W := W))) t m' :
  heapq.is_heap (PrefixTree_lt weqb wltb) m ->
  m ≡ₚ queue ->
  NoDup (flat_map leaves m) ->
  popMin weqb wltb m = Ok (t, m') ->
  exists rest, spec_pop weqb wltb queue = Some (t, rest) /\ m' ≡ₚ rest.
Proof.
  intros Hheap P Hnd Hpop.
  pose proof (popMin_perm weqb wltb _ _ _ Hpop) as P1.
  destruct (heappop_is_heap _ PrefixTree_lt_asym PrefixTree_le_trans _ _ _ Hheap Hpop)
    as [_ Hmin].
  pose proof (spec_pop_least queue) as Hspec.
  destruct (spec_pop weqb wltb queue) as [[t' rest]|].
  - destruct Hspec as [P2 Hmin'].
    assert (Hall : forall u, u ∈ m -> PrefixTree_lt weqb wltb u t = false).
    { intros u Hu. rewrite P1 in Hu. apply elem_of_cons in Hu as [->|Hu].
      - apply PrefixTree_lt_refl_false.
      - apply Hmin, Hu. }
    assert (Hall' : forall u, u ∈ m -> PrefixTree_lt weqb wltb u t' = false).
    { intros u Hu. rewrite P, P2 in Hu. apply elem_of_cons in Hu as [->|Hu].
      - apply PrefixTree_lt_refl_false.
      - apply Hmin', Hu. }
    assert (Hin' : t' ∈ m) by (rewrite P, P2; apply list_elem_of_here).
    assert (Hin : t ∈ m) by (rewrite P1; apply list_elem_of_here).
    assert (E : t = t').
    { apply (least_unique m m' t t' P1 Hnd Hin'); [apply Hall, Hin'|apply Hall', Hin]. }
    subst t'. exists rest. split; [reflexivity|].
    apply (Permutation_cons_inv (a := t)). rewrite <- P1, <- P2. exact P.
  - subst queue. rewrite P1 in P. apply Permutation_nil_r in P. discriminate.
Qed.

(** The loop of [__init__] and the builder of the specification end with the
    same tree. *)
Lemma merge_loop_spec_builder fuel m (queue : list (PrefixTree (W := W))) t :
  heapq.is_heap (PrefixTree_lt weqb wltb) m ->
  m ≡ₚ queue ->
  NoDup (flat_map leaves m) ->
  merge_loop wadd weqb wltb fuel m = Ok [t] ->
  spec_builder wadd weqb wltb (length queue) queue = Some t.
Proof.
  assert (Hone : forall (queue : list (PrefixTree (W := W))) t,
             [t] ≡ₚ queue ->
             spec_builder wadd weqb wltb (length queue) queue = Some t).
  { intros q u P. apply Permutation_singleton_l in P as <-. reflexivity. }
  revert m queue. induction fuel as [|fuel IH]; intros m queue Hheap P Hnd Hloop;
    cbn [merge_loop] in Hloop.
  - injection Hloop as ->. apply Hone, P.
  - case_bool_decide as Hsize; [|injection Hloop as ->; apply Hone, P].
    destruct (merge_step weqb wltb m Hsize) as (t1 & m1 & t2 & m2 & H1 & H2 & P12).
    rewrite H1 in Hloop. cbn [bind] in Hloop.
    rewrite H2 in Hloop. cbn [bind] in Hloop.
    destruct (heappop_is_heap _ PrefixTree_lt_asym PrefixTree_le_trans _ _ _ Hheap H1)
      as [Hheap1 _].
    destruct (heappop_is_heap _ PrefixTree_lt_asym PrefixTree_le_trans _ _ _ Hheap1 H2)
      as [Hheap2 _].
    destruct (popMin_spec_pop _ _ _ _ Hheap P Hnd H1) as (q1 & Hq1 & P1).
    assert (Hnd1 : NoDup (flat_map leaves m1)).
    { rewrite (popMin_perm weqb wltb _ _ _ H1) in Hnd. simpl in Hnd.
      apply NoDup_app in Hnd as (_ & _ & Hnd). exact Hnd. }
    destruct (popMin_spec_pop _ _ _ _ Hheap1 P1 Hnd1 H2) as (q2 & Hq2 & P2).
    assert (Hlen : length queue = S (length (fromTwoTrees wadd t1 t2 :: q2))).
    { rewrite <- P, P12, <- P2. reflexivity. }
    rewrite Hlen. cbn [spec_builder]. rewrite Hq1, Hq2.
    apply (IH (push weqb wltb m2 (fromTwoTrees wadd t1 t2))); [| | |exact Hloop].
    + apply heappush_is_heap;
        [exact PrefixTree_lt_asym|exact PrefixTree_le_trans|exact Hheap2].
    + rewrite push_perm, P2. reflexivity.
    + rewrite push_perm. rewrite P12 in Hnd. simpl in Hnd |- *.
      rewrite <- app_assoc. exact Hnd.
Qed.

(** One round of the loop of [__init__], on a heap of trees with no symbol
    in common. *)
Lemma merge_round fuel m :
  heapq.is_heap (PrefixTree_lt weqb wltb) m ->
  NoDup (flat_map leaves m) ->
  1 < size m ->
  exists t1 m1 t2 m2,
    popMin weqb wltb m = Ok (t1, m1) /\
    popMin weqb wltb m1 = Ok (t2, m2) /\
    m ≡ₚ t1 :: t2 :: m2 /\
    PrefixTree_lt weqb wltb t1 t2 = true /\
    (forall u, u ∈ m2 -> PrefixTree_lt weqb wltb t2 u = true) /\
    merge_loop wadd weqb wltb (S fuel) m =
      merge_loop wadd weqb wltb fuel
        (push weqb wltb m2 (Node (wadd (key t1) (key t2)) t1 t2)).
Proof.
  intros Hheap Hnd Hsize.
  destruct (merge_step weqb wltb m Hsize) as (t1 & m1 & t2 & m2 & H1 & H2 & P12).
  destruct (heappop_is_heap _ PrefixTree_lt_asym PrefixTree_le_trans _ _ _ Hheap H1)
    as [Hheap1 Hmin1].
  destruct (heappop_is_heap _ PrefixTree_lt_asym PrefixTree_le_trans _ _ _ Hheap1 H2)
    as [_ Hmin2].
  pose proof (popMin_perm weqb wltb _ _ _ H2) as P2.
  rewrite P12 in Hnd. simpl in Hnd.
  apply NoDup_app in Hnd as (_ & Hdisj1 & Hnd).
  apply NoDup_app in Hnd as (_ & Hdisj2 & _).
  exists t1, m1, t2, m2. split; [exact H1|]. split; [exact H2|]. split; [exact P12|].
  split; [|split].
  - apply PrefixTree_lt_disjoint.
    + intros b Hb1 Hb2. apply (Hdisj1 b Hb1). apply elem_of_app. left. exact Hb2.
    + apply Hmin1. rewrite P2. apply list_elem_of_here.
  - intros u Hu. apply PrefixTree_lt_disjoint; [|apply Hmin2, Hu].
    intros b Hb2 Hbu. apply (Hdisj2 b Hb2).
    apply list_elem_of_In, in_flat_map. exists u.
    split; [apply list_elem_of_In, Hu|apply list_elem_of_In, Hbu].
  - cbn [merge_loop]. rewrite bool_decide_eq_true_2 by exact Hsize.
    rewrite H1. cbn [bind]. rewrite H2. cbn [bind]. reflexivity.
Qed.

(** C7.  With weights totally ordered by [<] up to [==] and a table whose
    keys are distinct: [find_smallest], called with the sentinel 1000, returns
    the numerically smallest symbol over all the leaves of a tree; between two
    trees of equal weight [__lt__] is the comparison of those symbols;
    [popMin] takes from a heap a tree that no remaining tree is lesser than,
    and leaves a heap.  Every round of the loop of [__init__] pops two trees,
    the first lesser than the second and the second lesser than every tree
    left in the queue, and goes on with the queue to which the node with the
    first as left child and the second as right child is pushed.  The tree
    that [__init__] ends with has all the keys at its leaves, one merge less
    than keys, in every merge, at the leaves or above them, the lesser tree
    on the left, hence the one with the smaller smallest symbol when the two
    weights are equal; and it is the tree of the builder of the
    specification. *)
Theorem tie_break frequencyTable self :
  distinct (map fst frequencyTable) = true ->
  HuffmanCode_init wadd weqb wltb frequencyTable = Ok self ->
  (forall t, exists b,
     find_smallest t 1000 = PyBytes b /\ b ∈ leaves t /\
     int_from_bytes b = smallest_symbol t /\
     forall b', b' ∈ leaves t -> (smallest_symbol t <= int_from_bytes b')%Z) /\
  (forall t1 t2, weqb (key t1) (key t2) = true ->
     PrefixTree_lt weqb wltb t1 t2 = (smallest_symbol t1 <? smallest_symbol t2)%Z) /\
  (forall m t m', heapq.is_heap (PrefixTree_lt weqb wltb) m ->
     popMin weqb wltb m = Ok (t, m') ->
     heapq.is_heap (PrefixTree_lt weqb wltb) m' /\
     forall t', t' ∈ m' -> PrefixTree_lt weqb wltb t' t = false) /\
  (forall l r, (l, r) ∈ merges (tree self) ->
     PrefixTree_lt weqb wltb l r = true /\
     (weqb (key l) (key r) = true -> (smallest_symbol l < smallest_symbol r)%Z)) /\
  (forall fuel m,
     heapq.is_heap (PrefixTree_lt weqb wltb) m ->
     NoDup (flat_map leaves m) ->
     1 < size m ->
     exists t1 m1 t2 m2,
       popMin weqb wltb m = Ok (t1, m1) /\
       popMin weqb wltb m1 = Ok (t2, m2) /\
       m ≡ₚ t1 :: t2 :: m2 /\
       PrefixTree_lt weqb wltb t1 t2 = true /\
       (forall u, u ∈ m2 -> PrefixTree_lt weqb wltb t2 u = true) /\
       merge_loop wadd weqb wltb (S fuel) m =
         merge_loop wadd weqb wltb fuel
           (push weqb wltb m2 (Node (wadd (key t1) (key t2)) t1 t2))) /\
  leaves (tree self) ≡ₚ map fst frequencyTable /\
  S (length (merges (tree self))) = length frequencyTable /\
  (forall t1 t2, spec_lesser weqb wltb t1 t2 = PrefixTree_lt weqb wltb t1 t2) /\
  spec_tree wadd weqb wltb frequencyTable = Some (tree self).
Proof.
  intros Hkeys Hinit.
  assert (Hne : frequencyTable <> []).
  { intros ->. rewrite init_empty in Hinit. discriminate. }
  assert (Hloop :
    let m := MinHeapWrapper_init weqb wltb (map (fun '(b, f) => Leaf f b) frequencyTable) in
    merge_loop wadd weqb wltb (size m) m = Ok [tree self]).
  { cbv zeta. unfold HuffmanCode_init in Hinit.
    set (heap := map (fun '(b, f) => Leaf f b) frequencyTable) in *.
    set (m := MinHeapWrapper_init weqb wltb heap) in *.
    assert (Pm : m ≡ₚ heap) by apply heapify_perm.
    destruct (merge_loop_spec wadd weqb wltb (size m) m) as (t & Hloop & _).
    { intros E. rewrite E in Pm. apply Permutation_nil in Pm.
      subst heap. destruct frequencyTable; [contradiction|discriminate]. }
    { lia. }
    rewrite Hloop in Hinit |- *. cbn [bind] in Hinit.
    rewrite popMin_singleton in Hinit. cbn [bind] in Hinit.
    destruct (search_tree t [] (replicate 256 [])) as [code|e]; [|discriminate].
    cbn [bind] in Hinit. injection Hinit as <-. reflexivity. }
  cbv zeta in Hloop.
  set (heap := map (fun '(b, f) => Leaf f b) frequencyTable) in *.
  set (m := MinHeapWrapper_init weqb wltb heap) in *.
  assert (Pm : m ≡ₚ heap) by apply heapify_perm.
  assert (Hheap : heapq.is_heap (PrefixTree_lt weqb wltb) m).
  { apply heapify_is_heap; [exact PrefixTree_lt_asym|exact PrefixTree_le_trans]. }
  assert (Hnd : NoDup (flat_map leaves m)).
  { rewrite Pm. subst heap. rewrite leaves_of_table. apply distinct_NoDup, Hkeys. }
  assert (Hleaves : leaves (tree self) ≡ₚ map fst frequencyTable).
  { destruct (init_spec wadd weqb wltb frequencyTable Hne) as (self' & Hinit' & Hl & _).
    rewrite Hinit in Hinit'. injection Hinit' as <-. exact Hl. }
  split; [|split; [|split; [|split; [|split; [|split; [|split; [|split]]]]]]].
  - intros t. destruct (find_smallest_1000 t) as (b & Hb & Hin & Hs).
    exists b. split; [exact Hb|]. split; [exact Hin|]. split; [exact Hs|].
    clear. induction t as [f s|f l IHl r IHr]; cbn [leaves smallest_symbol]; intros b' Hb'.
    + apply list_elem_of_singleton in Hb' as ->. lia.
    + apply elem_of_app in Hb' as [H|H]; [apply IHl in H|apply IHr in H]; lia.
  - intros t1 t2 E. rewrite PrefixTree_lt_smallest, E. reflexivity.
  - intros m0 t m' Hheap0 Hpop.
    exact (heappop_is_heap _ PrefixTree_lt_asym PrefixTree_le_trans _ _ _ Hheap0 Hpop).
  - assert (Hall : Forall (merges_ordered (PrefixTree_lt weqb wltb)) [tree self]).
    { apply (merge_loop_inv (size m) m); [exact Hheap|exact Hnd| |exact Hloop].
      rewrite Pm. subst heap. apply Forall_forall. intros t' Hin.
      apply list_elem_of_fmap in Hin as ([b f] & -> & _).
      intros l r Hlr. inversion Hlr. }
    apply Forall_cons in Hall as [Hord _].
    intros l r Hin. pose proof (Hord l r Hin) as Hlt. split; [exact Hlt|].
    intros E. rewrite PrefixTree_lt_smallest, E in Hlt. apply Z.ltb_lt. exact Hlt.
  - intros fuel m0. apply merge_round.
  - exact Hleaves.
  - apply Permutation_length in Hleaves. rewrite length_map in Hleaves.
    rewrite <- Hleaves. clear.
    induction (tree self) as [f s|f l IHl r IHr]; simpl; [reflexivity|].
    rewrite !length_app. lia.
  - exact spec_lesser_lt.
  - unfold spec_tree. fold heap.
    replace (length frequencyTable) with (length heap)
      by (subst heap; apply length_map).
    exact (merge_loop_spec_builder (size m) m heap (tree self) Hheap Pm Hnd Hloop).
Qed.

End tie_break.

(** * Instances: exact weights and floats *)

Lemma Qltb_lt (a b : Q) : Qltb a b = true <-> (a < b)%Q.
Proof.
  unfold Qltb. rewrite negb_true_iff. split.
  - intros H. apply Qnot_le_lt. intros Hle.
    apply Qle_bool_iff in Hle. congruence.
  - intros H. destruct (Qle_bool b a) eqn:E; [|reflexivity].
    apply Qle_bool_iff in E. apply Qlt_not_le in H. contradiction.
Qed.

Lemma Qltb_ge (a b : Q) : Qltb a b = false <-> (b <= a)%Q.
Proof.
  unfold Qltb. rewrite negb_false_iff. apply Qle_bool_iff.
Qed.

Lemma Q_weight_order : weight_order Qeq_bool Qltb.
Proof.
  constructor.
  - apply Qeq_bool_refl.
  - apply Qeq_bool_sym.
  - apply Qeq_bool_trans.
  - intros a b E. apply Qeq_bool_iff in E. apply Qltb_ge. rewrite E. apply Qle_refl.
  - intros a b c H1 H2. apply Qltb_lt in H1, H2. apply Qltb_lt.
    eapply Qlt_trans; eassumption.
  - intros a b E H. apply Qeq_bool_neq in E. apply Qltb_ge in H. apply Qltb_lt.
    apply Qle_lt_or_eq in H as [H|H]; [exact H|]. symmetry in H. contradiction.
  - intros a b c E. apply Qeq_bool_iff in E.
    destruct (Qltb b c) eqn:H.
    + apply Qltb_lt. apply Qltb_lt in H. rewrite E. exact H.
    + apply Qltb_ge. apply Qltb_ge in H. rewrite E. exact H.
  - intros a b c E. apply Qeq_bool_iff in E.
    destruct (Qltb c b) eqn:H.
    + apply Qltb_lt. apply Qltb_lt in H. rewrite E. exact H.
    + apply Qltb_ge. apply Qltb_ge in H. rewrite E. exact H.
Qed.

(** Scenario A of the specification, on floats: with equal weights the code
    is C = 0, A = 10, B = 11, and the round trip holds. *)
Example scenario_A :
  occurrences2frequencies float_div_int ABC_occurrences = Ok ABC_float_table /\
  HuffmanCode_init PrimFloat.add PrimFloat.eqb PrimFloat.ltb ABC_float_table =
    Ok (float_code_of ABC_float_table) /\
  encode (float_code_of ABC_float_table)
    [x41; x41; x41; x42; x42; x42; x43; x43; x43; x41; x42; x41; x42] =
    Ok [true; false; true; false; true; false; true; true;
        true; true; true; true; false; false; false; true;
        false; true; true; true; false; true; true; true] /\
  decode 24 (float_code_of ABC_float_table)
    [true; false; true; false; true; false; true; true;
     true; true; true; true; false; false; false; true;
     false; true; true; true; false; true; true; true] =
    Some (Ok [x41; x41; x41; x42; x42; x42; x43; x43; x43; x41; x42; x41; x42]).
Proof. repeat split; vm_compute; reflexivity. Qed.

(** C1 at the uniform table, for the sequence ["ABC"]. *)
Lemma decode_encode_witness :
  is_frequency_table uniform_table = true /\
  exists self bits,
    HuffmanCode_init Qplus Qeq_bool Qltb uniform_table = Ok self /\
    encode self [x41; x42; x43] = Ok bits /\
    decode (length bits) self bits = Some (Ok [x41; x42; x43]).
Proof.
  split; [vm_compute; reflexivity|].
  apply (decode_encode Qplus Qeq_bool Qltb uniform_table [x41; x42; x43]).
  vm_compute. reflexivity.
Defined.

(** C2 at the table [{A, B, C}], for the sequence ["AAABBBCCCABAB"]. *)
Lemma encode_padding_witness :
  HuffmanCode_init Qplus Qeq_bool Qltb ABC_table = Ok (code_of ABC_table) /\
  exists codewords,
    Forall2 (fun symbol c => codewordFor (code_of ABC_table) symbol = Ok c)
      [x41; x41; x41; x42; x42; x42; x43; x43; x43; x41; x42; x41; x42] codewords /\
    let payload := concat codewords in
    let r := length payload mod 8 in
    let n := if r =? 0 then 8 else 8 - r in
    let padding := true :: replicate (n - 1) false in
    encode (code_of ABC_table)
      [x41; x41; x41; x42; x42; x42; x43; x43; x43; x41; x42; x41; x42]
      = Ok (payload ++ padding) /\
    length padding = n /\ 1 <= n <= 8 /\
    0 < length (payload ++ padding) /\
    length (payload ++ padding) mod 8 = 0.
Proof.
  split; [vm_compute; reflexivity|].
  apply (encode_padding Qplus Qeq_bool Qltb ABC_table).
  vm_compute. reflexivity.
Defined.

(** C3 fails as stated: on the two bytes 10000000 00000000 the result is 16
    bits shorter than the input. *)
Lemma removePadding_strips_more :
  removePadding (true :: replicate 15 false) = Ok [] /\
  ~ (length (true :: replicate 15 false) - length ([] : BitStream) <= 8).
Proof. split; [reflexivity|]. simpl. lia. Qed.

(** C4 fails as stated: the byte 0 has weight 0.0 in the table of floats
    [float_table zero_weight_table], and [encode] returns its codeword, nine
    zeros, with the padding. *)
Lemma zero_weight_symbol_encodes :
  is_frequency_table (float_table zero_weight_table) = true /\
  In (x00, 0%float) (float_table zero_weight_table) /\
  HuffmanCode_init PrimFloat.add PrimFloat.eqb PrimFloat.ltb (float_table zero_weight_table)
    = Ok (float_code_of (float_table zero_weight_table)) /\
  encode (float_code_of (float_table zero_weight_table)) [x00] =
    Ok [false; false; false; false; false; false; false; false;
        false; true; false; false; false; false; false; false].
Proof.
  split; [vm_compute; reflexivity|].
  split; [left; vm_compute; reflexivity|].
  split; vm_compute; reflexivity.
Qed.

(** C4 (as the code has it) at [zero_weight_table], for the byte 0. *)
Lemma encode_listed_symbol_witness :
  is_frequency_table zero_weight_table = true /\
  HuffmanCode_init Qplus Qeq_bool Qltb zero_weight_table = Ok (code_of zero_weight_table) /\
  (x00, 0%Q) ∈ zero_weight_table /\
  exists c bits,
    codewordFor (code_of zero_weight_table) x00 = Ok c /\ c <> [] /\
    lookup_path (tree (code_of zero_weight_table)) c = Some x00 /\
    encode (code_of zero_weight_table) ([x41] ++ x00 :: [x42]) = Ok bits.
Proof.
  assert (Hin : (x00, 0%Q) ∈ zero_weight_table) by (apply list_elem_of_here).
  split; [vm_compute; reflexivity|].
  split; [vm_compute; reflexivity|].
  split; [exact Hin|].
  apply (encode_listed_symbol Qplus Qeq_bool Qltb zero_weight_table
           (code_of zero_weight_table) x00 0%Q [x41] [x42]).
  - vm_compute. reflexivity.
  - vm_compute. reflexivity.
  - exact Hin.
Defined.

(** C5 at the code of [{A, B, C}] (C = 0, A = 10, B = 11): the payload 10 1
    ends inside a codeword. *)
Lemma decode_truncated_witness :
  isSingleton (tree (code_of ABC_table)) = false /\
  removePadding [true; false; true; true; false; false; false; false]
    = Ok [true; false; true] /\
  decode 8 (code_of ABC_table) [true; false; true; true; false; false; false; false]
    = Some (Raise IndexError).
Proof.
  split; [reflexivity|]. split; [reflexivity|].
  pose proof (decode_truncated (code_of ABC_table)
                [true; false; true; true; false; false; false; false]
                [true; false; true] eq_refl eq_refl) as [H _].
  exact H.
Defined.

(** The model of Python's division against the doubles of the machine: on
    the sample pairs, the value of the IEEE quotient of the two integers,
    converted exactly, is the value [py_truediv] gives. *)
Example py_truediv_agrees_with_doubles :
  forallb (fun '(a, b) => Qeq_bool (Q_of_float (float_div_int a b)) (py_truediv a b))
    division_samples = true.
Proof. vm_compute. reflexivity. Qed.

(** The rounding of the model against the rounding of the library's
    specification of IEEE 754 (53 bits of precision, exponents up to 1024),
    on quotients that are subnormal, or need more than 53 bits. *)
Example nearest_double_agrees_with_specification :
  forallb (fun '(n, j) =>
             Qeq_bool (Q_of_spec_float (SpecFloat.binary_normalize 53 1024 n (- j) false))
                      (nearest_double n (2 ^ j)))
    rounding_samples = true.
Proof. vm_compute. reflexivity. Qed.

(** The tolerance is needed: for a text made of the ten bytes 0 to 9, once
    each, every weight is the double nearest to 1/10, the one the machine
    computes, which is above 1/10, and the ten weights sum to 1 + 2^-54. *)
Example ten_weights_sum :
  exists frequencies,
    occurrences2frequencies py_truediv ten_occurrences = Ok frequencies /\
    occurrences2frequencies float_div_int ten_occurrences = Ok ten_frequencies /\
    forallb (fun '(kq, kf) => Byte.eqb kq.1 kf.1 && Qeq_bool kq.2 (Q_of_float kf.2))
      (combine frequencies ten_frequencies) = true /\
    Prim2SF (float_div_int 1 10) = S754_finite false 7205759403792794 (-56) /\
    (Qsum (map snd frequencies) == 1 + (1 # 2 ^ 54))%Q.
Proof.
  exists (map (fun '(o, v) => (o, py_truediv v 10)) ten_occurrences).
  split; [vm_compute; reflexivity|].
  split; [vm_compute; reflexivity|].
  split; [vm_compute; reflexivity|].
  split; vm_compute; reflexivity.
Qed.

(** C6 at the occurrence table [{A: 3, B: 3, C: 3}]. *)
Lemma occurrences2frequencies_witness :
  Forall (fun kv => (0 <= kv.2)%Z) ABC_occurrences /\
  exists frequencies,
    occurrences2frequencies py_truediv ABC_occurrences = Ok frequencies /\
    map fst frequencies = map fst ABC_occurrences /\
    Forall2 (fun kv fw => fw.2 = py_truediv kv.2 (total_occurrences ABC_occurrences))
      ABC_occurrences frequencies /\
    Forall (fun kv => (0 <= kv.2)%Q) frequencies /\
    (Qabs (Qsum (map snd frequencies) - 1)
       <= unit_roundoff
          + inject_Z (Z.of_nat (length ABC_occurrences)) * half_least_double)%Q /\
    (length ABC_occurrences <= 256 ->
     (Qabs (Qsum (map snd frequencies) - 1) < 1 # 1000000)%Q).
Proof.
  assert (H : Forall (fun kv => (0 <= kv.2)%Z) ABC_occurrences).
  { repeat constructor; simpl; lia. }
  split; [exact H|].
  apply (occurrences2frequencies_spec ABC_occurrences H).
  reflexivity.
Defined.

(** C7 at the table [{A, B, C}] of equal weights. *)
Lemma tie_break_witness :
  weight_order Qeq_bool Qltb /\
  distinct (map fst ABC_table) = true /\
  HuffmanCode_init Qplus Qeq_bool Qltb ABC_table = Ok (code_of ABC_table) /\
  (forall l r, (l, r) ∈ merges (tree (code_of ABC_table)) ->
     PrefixTree_lt Qeq_bool Qltb l r = true /\
     (Qeq_bool (key l) (key r) = true -> (smallest_symbol l < smallest_symbol r)%Z)) /\
  leaves (tree (code_of ABC_table)) ≡ₚ map fst ABC_table /\
  S (length (merges (tree (code_of ABC_table)))) = length ABC_table /\
  spec_tree Qplus Qeq_bool Qltb ABC_table = Some (tree (code_of ABC_table)).
Proof.
  split; [exact Q_weight_order|].
  split; [reflexivity|].
  split; [vm_compute; reflexivity|].
  pose proof (tie_break Qplus Qeq_bool Qltb Q_weight_order ABC_table (code_of ABC_table)
                eq_refl ltac:(vm_compute; reflexivity))
    as (_ & _ & _ & Hmerges & _ & Hleaves & Hcount & _ & Hspec).
  split; [exact Hmerges|]. split; [exact Hleaves|]. split; [exact Hcount|exact Hspec].
Defined.


(** C9 at the uniform table, for the symbols ["A"] and ["B"]. *)
Lemma codewords_prefix_free_witness :
  is_frequency_table uniform_table = true /\
  HuffmanCode_init Qplus Qeq_bool Qltb uniform_table = Ok (code_of uniform_table) /\
  x41 <> x42 /\
  codewordFor (code_of uniform_table) x41 = Ok (codeword_of (code_of uniform_table) x41) /\
  codewordFor (code_of uniform_table) x42 = Ok (codeword_of (code_of uniform_table) x42) /\
  ~ codeword_of (code_of uniform_table) x41 `prefix_of` codeword_of (code_of uniform_table) x42 /\
  ~ codeword_of (code_of uniform_table) x42 `prefix_of` codeword_of (code_of uniform_table) x41.
Proof.
  split; [vm_compute; reflexivity|].
  split; [vm_compute; reflexivity|].
  split; [discriminate|].
  split; [vm_compute; reflexivity|].
  split; [vm_compute; reflexivity|].
  apply (codewords_prefix_free Qplus Qeq_bool Qltb uniform_table (code_of uniform_table)
           x41 x42).
  - vm_compute. reflexivity.
  - vm_compute. reflexivity.
  - discriminate.
  - vm_compute. reflexivity.
  - vm_compute. reflexivity.
Defined.

(** C10 at the uniform table. *)
Lemma every_symbol_has_codeword_witness :
  is_frequency_table uniform_table = true /\
  exists self,
    HuffmanCode_init Qplus Qeq_bool Qltb uniform_table = Ok self /\
    length (code_array self) = 256 /\
    length (leaves (tree self)) = 256 /\
    NoDup (leaves (tree self)) /\
    (forall x : byte,
       x ∈ leaves (tree self) /\
       exists c, code_array self !! Z.to_nat (int_from_bytes x) = Some c /\
                 codewordFor self x = Ok c /\
                 lookup_path (tree self) c = Some x) /\
    forall plaintextBytes, exists bits, encode self plaintextBytes = Ok bits.
Proof.
  split; [vm_compute; reflexivity|].
  apply (every_symbol_has_codeword Qplus Qeq_bool Qltb uniform_table).
  vm_compute. reflexivity.
Defined.

(** * Beyond the claims: the rest of the module *)

(** ** Dictionaries and [makeOccurrencesTable] *)

Lemma byte_eqb_reflect (a b : byte) : reflect (a = b) (Byte.eqb a b).
Proof.
  destruct (Byte.eqb a b) eqn:E; constructor.
  - apply Byte.byte_dec_bl. exact E.
  - apply Byte.eqb_false. exact E.
Qed.

Section dict_facts.
Context {A : Type}.
Implicit Types (d : list (byte * A)) (k : byte) (v : A).

Lemma dict_get_set d k v k' :
  dict_get (dict_set d k v) k' = if Byte.eqb k k' then Some v else dict_get d k'.
Proof.
  induction d as [|[k0 v0] d IH]; simpl.
  - destruct (byte_eqb_reflect k k'); reflexivity.
  - destruct (byte_eqb_reflect k0 k) as [->|Hne]; simpl.
    + destruct (byte_eqb_reflect k k'); reflexivity.
    + rewrite IH. destruct (byte_eqb_reflect k0 k') as [->|Hne'];
        destruct (byte_eqb_reflect k k'); congruence.
Qed.

Lemma dict_get_None d k : dict_get d k = None <-> k ∉ map fst d.
Proof.
  induction d as [|[k0 v0] d IH]; simpl.
  - split; [intros _ H; inversion H|reflexivity].
  - rewrite not_elem_of_cons. destruct (byte_eqb_reflect k0 k) as [->|Hne].
    + split; [discriminate|intros [H _]; contradiction].
    + rewrite IH. split; [intros H; split; [congruence|exact H]|intros [_ H]; exact H].
Qed.

Lemma dict_get_elem d k v : NoDup (map fst d) -> (k, v) ∈ d -> dict_get d k = Some v.
Proof.
  induction d as [|[k0 v0] d IH]; simpl; intros Hnd Hin; [inversion Hin|].
  apply NoDup_cons in Hnd as [Hk0 Hnd].
  apply elem_of_cons in Hin as [E|Hin].
  - injection E as -> ->. destruct (byte_eqb_reflect k0 k0); congruence.
  - destruct (byte_eqb_reflect k0 k) as [->|Hne]; [|apply IH; assumption].
    exfalso. apply Hk0. apply list_elem_of_fmap. exists (k, v). split; [reflexivity|exact Hin].
Qed.

Lemma dict_get_Some_elem d k v : dict_get d k = Some v -> (k, v) ∈ d.
Proof.
  induction d as [|[k0 v0] d IH]; simpl; [discriminate|].
  destruct (byte_eqb_reflect k0 k) as [->|Hne].
  - intros E. injection E as ->. left.
  - intros H. right. apply IH, H.
Qed.

Lemma keys_dict_set d k v :
  map fst (dict_set d k v) = if dict_mem d k then map fst d else map fst d ++ [k].
Proof.
  unfold dict_mem. induction d as [|[k0 v0] d IH]; simpl; [reflexivity|].
  destruct (byte_eqb_reflect k0 k) as [->|Hne]; simpl; [reflexivity|].
  rewrite IH. destruct (dict_get d k); reflexivity.
Qed.

Lemma NoDup_dict_set d k v : NoDup (map fst d) -> NoDup (map fst (dict_set d k v)).
Proof.
  intros Hnd. rewrite keys_dict_set. unfold dict_mem.
  destruct (dict_get d k) eqn:E; [exact Hnd|].
  apply dict_get_None in E. apply NoDup_app. split; [exact Hnd|]. split.
  - intros x Hx Hk. apply list_elem_of_singleton in Hk as ->. contradiction.
  - apply NoDup_singleton.
Qed.

End dict_facts.

Lemma total_dict_set (d : list (byte * Z)) (k : byte) (v : Z) :
  total_occurrences (dict_set d k v) =
  (total_occurrences d + v - default 0 (dict_get d k))%Z.
Proof.
  unfold total_occurrences. induction d as [|[k0 v0] d IH]; simpl; [lia|].
  destruct (byte_eqb_reflect k0 k) as [->|Hne]; simpl; [lia|].
  rewrite IH. lia.
Qed.

Lemma occurrences_of_cons (b s : byte) (symbols : list byte) :
  occurrences_of b (s :: symbols) =
  ((if Byte.eqb s b then 1 else 0) + occurrences_of b symbols)%Z.
Proof.
  unfold occurrences_of. simpl.
  destruct (Byte.byte_eq_dec s b) as [->|Hne].
  - destruct (byte_eqb_reflect b b); [lia|congruence].
  - destruct (byte_eqb_reflect s b); [congruence|lia].
Qed.

Lemma occurrences_of_nonneg (b : byte) (symbols : list byte) :
  (0 <= occurrences_of b symbols)%Z.
Proof. unfold occurrences_of. lia. Qed.

(** The first loop, from any dictionary [acc]. *)
Lemma count_fold (symbols : list byte) (acc : list (byte * Z)) :
  let step := fun (ret : list (byte * Z)) (s : byte) =>
    match dict_get ret s with
    | Some v => dict_set ret s (v + 1)%Z
    | None => dict_set ret s 1%Z
    end in
  let r := fold_left step symbols acc in
  (NoDup (map fst acc) -> NoDup (map fst r)) /\
  (forall b, dict_get r b =
     match dict_get acc b with
     | Some v => Some (v + occurrences_of b symbols)%Z
     | None => if (occurrences_of b symbols =? 0)%Z then None
               else Some (occurrences_of b symbols)
     end) /\
  total_occurrences r = (total_occurrences acc + Z.of_nat (length symbols))%Z.
Proof.
  cbv zeta. revert acc. induction symbols as [|s symbols IH]; intros acc.
  - simpl. split; [auto|]. split; [|lia].
    intros b. destruct (dict_get acc b); [f_equal; unfold occurrences_of; simpl; lia|reflexivity].
  - cbn [fold_left].
    set (acc' := match dict_get acc s with
                 | Some v => dict_set acc s (v + 1)%Z
                 | None => dict_set acc s 1%Z
                 end).
    destruct (IH acc') as (Hnd & Hget & Htot).
    assert (Hget' : forall b, dict_get acc' b =
              if Byte.eqb s b then Some (default 0%Z (dict_get acc s) + 1)%Z
              else dict_get acc b).
    { intros b. subst acc'. destruct (dict_get acc s); rewrite dict_get_set; reflexivity. }
    split; [|split].
    + intros H. apply Hnd. subst acc'.
      destruct (dict_get acc s); apply NoDup_dict_set, H.
    + intros b. rewrite Hget, Hget', occurrences_of_cons.
      pose proof (occurrences_of_nonneg b symbols) as Hpos.
      destruct (byte_eqb_reflect s b) as [->|Hne].
      * destruct (dict_get acc b) as [v|]; simpl.
        -- f_equal. lia.
        -- destruct (Z.eqb_spec (1 + occurrences_of b symbols) 0); [lia|].
           first [reflexivity|f_equal; lia].
      * destruct (dict_get acc b) as [v|]; [f_equal; lia|].
        rewrite Z.add_0_l. reflexivity.
    + rewrite Htot. subst acc'.
      destruct (dict_get acc s) as [v|] eqn:E; rewrite total_dict_set, E; simpl length; simpl; lia.
Qed.

(** The second loop, over any list of indices, from any dictionary. *)
Lemma fill_fold (indices : list nat) (acc : list (byte * Z)) :
  let step := fun (ret : list (byte * Z)) (i : nat) =>
    let b := byte_of_nat i in
    if negb (dict_mem ret b) then dict_set ret b 0%Z else ret in
  let r := fold_left step indices acc in
  (NoDup (map fst acc) -> NoDup (map fst r)) /\
  (forall b, dict_get r b =
     match dict_get acc b with
     | Some v => Some v
     | None => if decide (b ∈ map byte_of_nat indices) then Some 0%Z else None
     end) /\
  total_occurrences r = total_occurrences acc.
Proof.
  cbv zeta. revert acc. induction indices as [|i indices IH]; intros acc.
  - simpl. split; [auto|]. split; [|reflexivity].
    intros b. destruct (dict_get acc b); [reflexivity|].
    destruct (decide (b ∈ [])) as [H|_]; [inversion H|reflexivity].
  - cbn [fold_left map].
    set (acc' := if negb (dict_mem acc (byte_of_nat i))
                 then dict_set acc (byte_of_nat i) 0%Z else acc).
    destruct (IH acc') as (Hnd & Hget & Htot).
    split; [|split].
    + intros H. apply Hnd. subst acc'.
      destruct (negb (dict_mem acc (byte_of_nat i))); [apply NoDup_dict_set, H|exact H].
    + intros b. rewrite Hget. subst acc'. unfold dict_mem.
      destruct (dict_get acc (byte_of_nat i)) as [vi|] eqn:Ei; simpl.
      * destruct (dict_get acc b) as [v|] eqn:Eb; [reflexivity|].
        destruct (decide (b ∈ map byte_of_nat indices)) as [Hin|Hnin];
          destruct (decide (b ∈ byte_of_nat i :: map byte_of_nat indices)) as [Hin'|Hnin'];
          try reflexivity.
        -- exfalso. apply Hnin'. right. exact Hin.
        -- apply elem_of_cons in Hin' as [->|?]; [congruence|contradiction].
      * rewrite dict_get_set.
        destruct (byte_eqb_reflect (byte_of_nat i) b) as [<-|Hne].
        -- rewrite Ei.
           destruct (decide (byte_of_nat i ∈ byte_of_nat i :: map byte_of_nat indices))
             as [_|Hnin]; [reflexivity|]. exfalso. apply Hnin. left.
        -- destruct (dict_get acc b) as [v|]; [reflexivity|].
           destruct (decide (b ∈ map byte_of_nat indices)) as [Hin|Hnin];
             destruct (decide (b ∈ byte_of_nat i :: map byte_of_nat indices)) as [Hin'|Hnin'];
             try reflexivity.
           ++ exfalso. apply Hnin'. right. exact Hin.
           ++ apply elem_of_cons in Hin' as [->|?]; [congruence|contradiction].
    + rewrite Htot. subst acc'. unfold dict_mem.
      destruct (dict_get acc (byte_of_nat i)) as [vi|] eqn:Ei; simpl; [reflexivity|].
      rewrite total_dict_set, Ei. simpl. lia.
Qed.

Lemma NoDup_distinct (keys : list byte) : NoDup keys -> distinct keys = true.
Proof.
  induction 1 as [|k keys Hk _ IH]; simpl; [reflexivity|].
  rewrite IH, andb_true_r. apply negb_true_iff.
  destruct (existsb (Byte.eqb k) keys) eqn:E; [|reflexivity].
  apply existsb_exists in E as (x & Hin & Hx).
  apply Byte.byte_dec_bl in Hx as <-. apply list_elem_of_In in Hin. contradiction.
Qed.

(** A list of distinct bytes that holds every byte has 256 items. *)
Lemma all_bytes_length (keys : list byte) :
  NoDup keys -> (forall b : byte, b ∈ keys) -> length keys = 256.
Proof.
  intros Hnd Hall.
  assert (Hnd' : NoDup (map byte_of_nat (seq 0 256))).
  { apply distinct_NoDup. vm_compute. reflexivity. }
  assert (P : keys ≡ₚ map byte_of_nat (seq 0 256)).
  { apply NoDup_Permutation; [exact Hnd|exact Hnd'|].
    intros b. split; intros _; [apply list_elem_of_In, all_bytes|apply Hall]. }
  rewrite P, length_map, length_seq. reflexivity.
Qed.

Lemma makeOccurrencesTable_facts (symbols : list byte) :
  NoDup (map fst (makeOccurrencesTable symbols)) /\
  (forall b : byte,
     dict_get (makeOccurrencesTable symbols) b = Some (occurrences_of b symbols)) /\
  total_occurrences (makeOccurrencesTable symbols) = Z.of_nat (length symbols).
Proof.
  unfold makeOccurrencesTable, fill_zeros, count_symbols.
  destruct (count_fold symbols []) as (Hnd1 & Hget1 & Htot1).
  cbv zeta in Hnd1, Hget1, Htot1.
  set (counted := fold_left _ symbols []) in *.
  destruct (fill_fold (seq 0 256) counted) as (Hnd2 & Hget2 & Htot2).
  cbv zeta in Hnd2, Hget2, Htot2.
  set (table := fold_left _ (seq 0 256) counted) in *.
  split; [apply Hnd2, Hnd1; constructor|]. split.
  - intros b. rewrite Hget2, Hget1. cbn [dict_get].
    destruct (Z.eqb_spec (occurrences_of b symbols) 0) as [E|_]; [|reflexivity].
    destruct (decide (b ∈ map byte_of_nat (seq 0 256))) as [_|Hnin];
      [rewrite E; reflexivity|].
    exfalso. apply Hnin, list_elem_of_In, all_bytes.
  - rewrite Htot2, Htot1. unfold total_occurrences. simpl. lia.
Qed.

Lemma makeOccurrencesTable_keys (symbols : list byte) :
  length (makeOccurrencesTable symbols) = 256 /\
  distinct (map fst (makeOccurrencesTable symbols)) = true.
Proof.
  destruct (makeOccurrencesTable_facts symbols) as (Hnd & Hget & _).
  split; [|apply NoDup_distinct, Hnd].
  rewrite <- (length_map fst). apply all_bytes_length; [exact Hnd|].
  intros b. destruct (decide (b ∈ map fst (makeOccurrencesTable symbols))) as [H|H];
    [exact H|].
  apply dict_get_None in H. rewrite Hget in H. discriminate.
Qed.

(** X1.  [makeOccurrencesTable] returns a dictionary with 256 distinct keys,
    one per byte, that gives every byte the number of its occurrences in the
    sequence (0 when it does not occur); the counts add up to the length of
    the sequence. *)
Theorem makeOccurrencesTable_spec (symbols : list byte) :
  length (makeOccurrencesTable symbols) = 256 /\
  distinct (map fst (makeOccurrencesTable symbols)) = true /\
  (forall b : byte,
     dict_get (makeOccurrencesTable symbols) b = Some (occurrences_of b symbols)) /\
  (forall (b : byte) (v : Z),
     (b, v) ∈ makeOccurrencesTable symbols <-> v = occurrences_of b symbols) /\
  total_occurrences (makeOccurrencesTable symbols) = Z.of_nat (length symbols).
Proof.
  destruct (makeOccurrencesTable_facts symbols) as (Hnd & Hget & Htot).
  destruct (makeOccurrencesTable_keys symbols) as (Hlen & Hd).
  split; [exact Hlen|]. split; [exact Hd|]. split; [exact Hget|]. split; [|exact Htot].
  intros b v. split.
  - intros Hin. apply (dict_get_elem _ _ _ Hnd) in Hin. rewrite Hget in Hin. congruence.
  - intros ->. apply dict_get_Some_elem, Hget.
Qed.

Lemma dict_get_map {A B : Type} (f : A -> B) (d : list (byte * A)) (k : byte) :
  dict_get (map (fun '(o, v) => (o, f v)) d) k = f <$> dict_get d k.
Proof.
  induction d as [|[k0 v0] d IH]; simpl; [reflexivity|].
  destruct (Byte.eqb k0 k); [reflexivity|exact IH].
Qed.

Lemma normalise_occurrences_eq {W : Type} (wdiv : Z -> Z -> W) (symbols : list byte) :
  occurrences2frequencies wdiv (makeOccurrencesTable symbols) =
    match symbols with
    | [] => Raise ValueError
    | _ :: _ =>
        Ok (map (fun '(o, v) => (o, wdiv v (Z.of_nat (length symbols))))
              (makeOccurrencesTable symbols))
    end.
Proof.
  destruct (makeOccurrencesTable_facts symbols) as (_ & _ & Htot).
  unfold occurrences2frequencies. rewrite total_fold, Z.add_0_l, Htot.
  destruct symbols as [|s symbols]; [rewrite Z.eqb_refl; reflexivity|].
  destruct (Z.eqb_spec (Z.of_nat (length (s :: symbols))) 0) as [E|_];
    [cbn [length] in E; lia|reflexivity].
Qed.

Lemma normalised_table_valid {W : Type} (f : Z -> W) (symbols : list byte) :
  is_frequency_table (map (fun '(o, v) => (o, f v)) (makeOccurrencesTable symbols)) = true.
Proof.
  destruct (makeOccurrencesTable_keys symbols) as (Hlen & Hd).
  unfold is_frequency_table. apply andb_true_intro. split.
  - apply bool_decide_eq_true_2. rewrite length_map. exact Hlen.
  - rewrite map_map.
    rewrite (map_ext _ fst); [exact Hd|]. intros [o v]. reflexivity.
Qed.

(** X2.  Normalising the occurrence table of a sequence: [ValueError] for
    the empty sequence; otherwise a table with 256 distinct keys that gives
    every byte the quotient of the number of its occurrences by the length of
    the sequence. *)
Theorem normalise_occurrences {W : Type} (wdiv : Z -> Z -> W) (symbols : list byte) :
  (symbols = [] ->
     occurrences2frequencies wdiv (makeOccurrencesTable symbols) = Raise ValueError) /\
  (symbols <> [] ->
     exists frequencyTable,
       occurrences2frequencies wdiv (makeOccurrencesTable symbols) = Ok frequencyTable /\
       is_frequency_table frequencyTable = true /\
       forall b : byte,
         dict_get frequencyTable b =
           Some (wdiv (occurrences_of b symbols) (Z.of_nat (length symbols)))).
Proof.
  rewrite normalise_occurrences_eq. split.
  - intros ->. reflexivity.
  - intros Hne. destruct symbols as [|s symbols]; [contradiction|].
    eexists. split; [reflexivity|]. split; [apply normalised_table_valid|].
    intros b. rewrite dict_get_map.
    destruct (makeOccurrencesTable_facts (s :: symbols)) as (_ & Hget & _).
    rewrite Hget. reflexivity.
Qed.

(** X4.  The two padding helpers on any bit string: appending the padding
    that [paddingSuitableFor] returns gives a whole number of bytes, the
    padding has 1 to 8 bits, and [removePadding] gives the bit string back. *)
Theorem padding_roundtrip (bits : BitStream) :
  removePadding (bits ++ paddingSuitableFor bits) = Ok bits /\
  length (bits ++ paddingSuitableFor bits) mod 8 = 0 /\
  1 <= length (paddingSuitableFor bits) <= 8.
Proof.
  rewrite paddingSuitableFor_spec.
  pose proof (Nat.mod_upper_bound (length bits) 8 ltac:(lia)) as Hr.
  split; [apply removePadding_padded|].
  rewrite length_app. cbn [length]. rewrite length_replicate.
  split; [apply padded_length|lia].
Qed.

Section more_code_facts.
Context {W : Type}.
Variable wadd : W -> W -> W.
Variable weqb : W -> W -> bool.
Variable wltb : W -> W -> bool.
Implicit Types (self : HuffmanCode (W := W)) (frequencyTable : list (byte * W)).
Implicit Types (plaintextBytes : list byte) (bits : BitStream).

Lemma merges_length (t : PrefixTree (W := W)) :
  S (length (merges t)) = length (leaves t).
Proof.
  induction t as [f s|f l IHl r IHr]; simpl; [reflexivity|].
  rewrite !length_app. lia.
Qed.

(** X5.  [__init__] validates nothing: it raises [IndexError] on the empty
    table (from [popMin] on the empty heap) and succeeds on every other
    table, whatever the weights.  The tree then has one leaf per key, one
    internal node less than it has leaves, and the codeword array has 256
    entries, empty for the bytes that are no key. *)
Theorem init_outcome frequencyTable :
  (frequencyTable = [] ->
     HuffmanCode_init wadd weqb wltb frequencyTable = Raise IndexError) /\
  (frequencyTable <> [] ->
     exists self,
       HuffmanCode_init wadd weqb wltb frequencyTable = Ok self /\
       leaves (tree self) ≡ₚ map fst frequencyTable /\
       S (length (merges (tree self))) = length frequencyTable /\
       length (code_array self) = 256 /\
       forall b : byte, b ∉ map fst frequencyTable -> codewordFor self b = Ok []).
Proof.
  split.
  - intros ->. apply init_empty.
  - intros Hne.
    destruct (init_spec wadd weqb wltb frequencyTable Hne) as (self & Hinit & Hl & Hlen & _).
    destruct (init_inv wadd weqb wltb _ _ Hinit) as (_ & _ & _ & _ & Hout).
    exists self. split; [exact Hinit|]. split; [exact Hl|].
    split; [rewrite merges_length, Hl, length_map; reflexivity|].
    split; [exact Hlen|].
    intros b Hb. apply Hout. rewrite Hl. exact Hb.
Qed.

(** X6.  [encode] never rejects a symbol: the bytes that are no key of the
    table have the empty codeword and leave no trace in the output, so that
    decoding the encoding of a sequence gives the sequence without them
    (for a table with two keys or more). *)
Theorem unknown_symbols_dropped frequencyTable self plaintextBytes :
  2 <= length frequencyTable ->
  HuffmanCode_init wadd weqb wltb frequencyTable = Ok self ->
  exists bits,
    encode self plaintextBytes = Ok bits /\
    decode (length bits) self bits =
      Some (Ok (filter (fun x => x ∈ map fst frequencyTable) plaintextBytes)).
Proof.
  intros Htwo Hinit.
  destruct (init_inv wadd weqb wltb _ _ Hinit) as (_ & Hl & Hlen & Hin & Hout).
  pose proof (init_internal wadd weqb wltb _ _ Htwo Hinit) as Hnode.
  set (kept := filter (fun x => x ∈ map fst frequencyTable) plaintextBytes).
  assert (H : exists cws cws',
             Forall2 (fun x c => codewordFor self x = Ok c) plaintextBytes cws /\
             Forall2 (fun x c => lookup_path (tree self) c = Some x) kept cws' /\
             concat cws = concat cws').
  { subst kept. induction plaintextBytes as [|x s (cws & cws' & H1 & H2 & E)].
    - exists [], []. repeat split; constructor.
    - destruct (decide (x ∈ map fst frequencyTable)) as [Hx|Hx].
      + rewrite filter_cons_True by exact Hx.
        destruct (Hin x) as (c & Hc & Hpath); [rewrite Hl; exact Hx|].
        exists (c :: cws), (c :: cws'). split; [constructor; assumption|].
        split; [constructor; assumption|]. simpl. rewrite E. reflexivity.
      + rewrite filter_cons_False by exact Hx.
        exists ([] :: cws), cws'. split; [|split; [exact H2|exact E]].
        constructor; [|exact H1]. apply Hout. rewrite Hl. exact Hx. }
  destruct H as (cws & cws' & Hcws & Hpaths & E).
  eexists. split; [apply encode_spec, Hcws|].
  unfold decode. rewrite removePadding_padded, E.
  apply (decode_loop_more (length kept)).
  - apply (decode_loop_paths self kept cws' [] Hnode Hpaths).
  - pose proof (paths_length _ _ _ Hnode Hpaths). rewrite length_app. lia.
Qed.

Lemma init_single frequencyTable self :
  length frequencyTable = 1 ->
  HuffmanCode_init wadd weqb wltb frequencyTable = Ok self ->
  isSingleton (tree self) = true.
Proof.
  intros Hone Hinit.
  destruct (init_inv wadd weqb wltb _ _ Hinit) as (_ & Hl & _).
  apply Permutation_length in Hl. rewrite length_map, Hone in Hl.
  destruct (tree self) as [f s|f l r]; [reflexivity|].
  simpl in Hl. rewrite length_app in Hl.
  pose proof (leaves_nonempty l). pose proof (leaves_nonempty r).
  destruct (leaves l), (leaves r); simpl in *; try contradiction; lia.
Qed.

(** X7.  With a table of a single entry the tree is a leaf, and [decode]
    does not terminate on any input whose payload is not empty: the loop
    emits the symbol for ever without consuming a bit. *)
Theorem single_entry_decode_diverges frequencyTable self bits payload (fuel : nat) :
  length frequencyTable = 1 ->
  HuffmanCode_init wadd weqb wltb frequencyTable = Ok self ->
  removePadding bits = Ok payload ->
  payload <> [] ->
  decode fuel self bits = None.
Proof.
  intros Hone Hinit Hpad Hne. unfold decode. rewrite Hpad.
  destruct payload as [|b payload]; [contradiction|].
  apply decode_loop_leaf_diverges. exact (init_single _ _ Hone Hinit).
Qed.

(** X8.  With a table of two entries or more, [decode] terminates on every
    bit string, within as many iterations as there are bits: it raises
    [IndexError] or returns a sequence shorter than the bit string. *)
Theorem decode_terminates frequencyTable self bits :
  2 <= length frequencyTable ->
  HuffmanCode_init wadd weqb wltb frequencyTable = Ok self ->
  decode (length bits) self bits = Some (Raise IndexError) \/
  exists out,
    decode (length bits) self bits = Some (Ok out) /\ length out < length bits.
Proof.
  intros Htwo Hinit.
  pose proof (init_internal wadd weqb wltb _ _ Htwo Hinit) as Hnode.
  unfold decode.
  destruct (removePadding bits) as [payload|e] eqn:Hpad.
  - destruct (removePadding_inv bits payload Hpad) as [k Hbits].
    assert (Hlen : length payload < length bits).
    { rewrite Hbits, length_app. simpl. lia. }
    rewrite (decode_loop_sm self (length bits) payload [] Hnode) by lia.
    destruct (sm_run (tree self) AtRoot payload) as [[|u] emitted] eqn:Hrun; [|left; reflexivity].
    right. eexists. split; [reflexivity|].
    pose proof (decode_loop_sm self (length bits) payload [] Hnode ltac:(lia)) as Hdec.
    rewrite Hrun in Hdec.
    destruct (decode_loop_ok_inv _ _ _ _ _ Hdec) as (symbols & cws & E & Hcws & ->).
    simpl in E. rewrite E.
    pose proof (paths_length _ _ _ Hnode Hcws). cbn [app]. lia.
  - left. destruct (bits_shape bits) as [[k ->]|(p & k & ->)].
    + rewrite removePadding_zeros in Hpad. congruence.
    + rewrite removePadding_padded in Hpad. discriminate.
Qed.

End more_code_facts.

(** X3.  The whole chain: count the bytes of a non-empty training sequence,
    normalise, build the code; then every byte sequence, whether or not its
    bytes occur in the training sequence, is encoded and decoded back to
    itself. *)
Theorem train_encode_decode {W : Type} (wadd : W -> W -> W) (weqb wltb : W -> W -> bool)
    (wdiv : Z -> Z -> W) (training plaintextBytes : list byte) :
  training <> [] ->
  exists frequencyTable self bits,
    occurrences2frequencies wdiv (makeOccurrencesTable training) = Ok frequencyTable /\
    HuffmanCode_init wadd weqb wltb frequencyTable = Ok self /\
    encode self plaintextBytes = Ok bits /\
    decode (length bits) self bits = Some (Ok plaintextBytes).
Proof.
  intros Hne.
  assert (H : exists frequencyTable,
             occurrences2frequencies wdiv (makeOccurrencesTable training) = Ok frequencyTable /\
             is_frequency_table frequencyTable = true).
  { rewrite normalise_occurrences_eq. destruct training as [|s training]; [contradiction|].
    eexists. split; [reflexivity|apply normalised_table_valid]. }
  destruct H as (frequencyTable & Hnorm & Hvalid).
  destruct (init_total wadd weqb wltb _ Hvalid) as [self Hinit].
  destruct (frequency_table_keys _ Hvalid) as [Hlen Hall].
  destruct (decode_encode_keys wadd weqb wltb frequencyTable self plaintextBytes)
    as (bits & Henc & Hdec); [lia|intros x _; apply Hall|exact Hinit|].
  exists frequencyTable, self, bits. repeat split; assumption.
Qed.

(** ** Codewords as paths: lengths and uniqueness *)

Section path_facts.
Context {W : Type}.
Implicit Types (t : PrefixTree (W := W)) (self : HuffmanCode (W := W)).

(** A path to a leaf is shorter than the number of leaves. *)
Lemma lookup_path_length t (path : BitStream) (s : byte) :
  lookup_path t path = Some s -> length path < length (leaves t).
Proof.
  revert path. induction t as [f x|f l IHl r IHr]; intros path H.
  - destruct path; [simpl; lia|discriminate].
  - cbn [leaves]. rewrite length_app.
    pose proof (leaves_nonempty l) as Hl. pose proof (leaves_nonempty r) as Hr.
    assert (0 < length (leaves l)) by (destruct (leaves l); [contradiction|simpl; lia]).
    assert (0 < length (leaves r)) by (destruct (leaves r); [contradiction|simpl; lia]).
    destruct path as [|[|] path]; [discriminate| |]; cbn [lookup_path length] in *.
    + apply IHr in H. lia.
    + apply IHl in H. lia.
Qed.

(** When no symbol is at two leaves, a symbol has one path only. *)
Lemma lookup_path_unique t (p q : BitStream) (s : byte) :
  NoDup (leaves t) ->
  lookup_path t p = Some s -> lookup_path t q = Some s -> p = q.
Proof.
  revert p q. induction t as [f x|f l IHl r IHr]; intros p q Hnd Hp Hq.
  - destruct p; [|discriminate]. destruct q; [reflexivity|discriminate].
  - cbn [leaves] in Hnd. apply NoDup_app in Hnd as (Hndl & Hdisj & Hndr).
    destruct p as [|[|] p]; [discriminate| |];
      (destruct q as [|[|] q]; [discriminate| |]); cbn [lookup_path] in Hp, Hq.
    + f_equal. exact (IHr _ _ Hndr Hp Hq).
    + apply lookup_path_leaf in Hp, Hq. destruct (Hdisj s Hq Hp).
    + apply lookup_path_leaf in Hp, Hq. destruct (Hdisj s Hp Hq).
    + f_equal. exact (IHl _ _ Hndl Hp Hq).
Qed.

Lemma concat_length_bound (cws : list BitStream) (k : nat) :
  Forall (fun c => length c <= k) cws -> length (concat cws) <= k * length cws.
Proof.
  induction 1 as [|c cws Hc _ IH]; simpl; [lia|].
  rewrite length_app. lia.
Qed.

End path_facts.

Section code_shape.
Context {W : Type}.
Variable wadd : W -> W -> W.
Variable weqb : W -> W -> bool.
Variable wltb : W -> W -> bool.
Implicit Types (self : HuffmanCode (W := W)) (frequencyTable : list (byte * W)).
Implicit Types (plaintextBytes : list byte) (bits : BitStream).

Lemma codeword_length frequencyTable self (x : byte) (c : BitStream) :
  HuffmanCode_init wadd weqb wltb frequencyTable = Ok self ->
  codewordFor self x = Ok c ->
  length c < length frequencyTable.
Proof.
  intros Hinit Hc.
  destruct (init_inv wadd weqb wltb _ _ Hinit) as (Hne & Hl & _ & Hin & Hout).
  apply Permutation_length in Hl as Hlen. rewrite length_map in Hlen.
  destruct (decide (x ∈ leaves (tree self))) as [Hx|Hx].
  - destruct (Hin x Hx) as (path & Hp & Hpath).
    rewrite Hp in Hc. injection Hc as <-.
    apply lookup_path_length in Hpath. lia.
  - rewrite (Hout x Hx) in Hc. injection Hc as <-.
    destruct frequencyTable; [contradiction|simpl; lia].
Qed.

(** X9.  The length of what the code produces: a codeword has fewer bits
    than the table has entries (at most 255 for a table of all the bytes),
    so that the encoding of a sequence of n bytes is a whole number of bytes
    of at most (entries - 1) * n + 8 bits. *)
Theorem encode_length frequencyTable self :
  HuffmanCode_init wadd weqb wltb frequencyTable = Ok self ->
  (forall (x : byte) c, codewordFor self x = Ok c -> length c < length frequencyTable) /\
  (forall plaintextBytes, exists bits,
     encode self plaintextBytes = Ok bits /\
     length bits mod 8 = 0 /\
     0 < length bits <= (length frequencyTable - 1) * length plaintextBytes + 8).
Proof.
  intros Hinit. split; [intros x c; apply codeword_length; exact Hinit|].
  intros plaintextBytes.
  destruct (init_inv wadd weqb wltb _ _ Hinit) as (_ & _ & Hlen & _).
  destruct (codewords_exist self plaintextBytes Hlen) as [cws Hcws].
  eexists. split; [apply encode_spec, Hcws|].
  rewrite length_app. cbn [length]. rewrite length_replicate.
  split; [apply padded_length|].
  assert (Hb : Forall (fun c => length c <= length frequencyTable - 1) cws).
  { clear -Hcws Hinit. induction Hcws as [|x c s cws Hc _ IH]; constructor; [|exact IH].
    pose proof (codeword_length _ _ _ _ Hinit Hc). lia. }
  apply concat_length_bound in Hb.
  apply Forall2_length in Hcws. rewrite <- Hcws in Hb.
  pose proof (Nat.mod_upper_bound (length (concat cws)) 8 ltac:(lia)). lia.
Qed.

(** X10.  Encoding undoes decoding: with distinct keys, when [decode]
    returns a sequence, [encode] of that sequence gives the payload of the
    decoded bit string back, with the padding of [paddingSuitableFor]. *)
Theorem encode_decode frequencyTable self bits (payload : BitStream) (out : list byte)
    (fuel : nat) :
  distinct (map fst frequencyTable) = true ->
  HuffmanCode_init wadd weqb wltb frequencyTable = Ok self ->
  removePadding bits = Ok payload ->
  decode fuel self bits = Some (Ok out) ->
  encode self out = Ok (payload ++ paddingSuitableFor payload).
Proof.
  intros Hkeys Hinit Hpad Hdec.
  destruct (init_inv wadd weqb wltb _ _ Hinit) as (_ & Hl & _ & Hin & _).
  assert (Hnd : NoDup (leaves (tree self))).
  { rewrite Hl. apply distinct_NoDup, Hkeys. }
  unfold decode in Hdec. rewrite Hpad in Hdec.
  destruct (decode_loop_ok_inv _ _ _ _ _ Hdec) as (symbols & cws & -> & Hcws & ->).
  cbn [app]. rewrite paddingSuitableFor_spec. apply encode_spec.
  clear -Hcws Hin Hnd. induction Hcws as [|x c s cws Hc _ IH]; constructor; [|exact IH].
  destruct (Hin x (lookup_path_leaf _ _ _ Hc)) as (path & Hp & Hpath).
  rewrite (lookup_path_unique _ _ _ _ Hnd Hc Hpath). exact Hp.
Qed.

End code_shape.

(** ** The weights in the tree *)

Section weight_facts.
Context {W : Type}.
Variable wadd : W -> W -> W.
Variable weqb : W -> W -> bool.
Variable wltb : W -> W -> bool.
Implicit Types (t : PrefixTree (W := W)) (m : MinHeapWrapper (W := W)).
Implicit Types (self : HuffmanCode (W := W)) (frequencyTable : list (byte * W)).

(** What every tree of the heap satisfies, and the merge of two trees that
    satisfy it, the tree that the loop ends with satisfies. *)
Lemma merge_loop_Forall (P : PrefixTree (W := W) -> Prop) fuel m m' :
  (forall t1 t2, P t1 -> P t2 -> P (fromTwoTrees wadd t1 t2)) ->
  Forall P m ->
  merge_loop wadd weqb wltb fuel m = Ok m' ->
  Forall P m'.
Proof.
  intros Hmerge. revert m. induction fuel as [|fuel IH]; intros m HP Hloop;
    cbn [merge_loop] in Hloop.
  - injection Hloop as <-. exact HP.
  - case_bool_decide as Hsize; [|injection Hloop as <-; exact HP].
    destruct (merge_step weqb wltb m Hsize) as (t1 & m1 & t2 & m2 & H1 & H2 & P12).
    rewrite H1 in Hloop. cbn [bind] in Hloop.
    rewrite H2 in Hloop. cbn [bind] in Hloop.
    rewrite P12 in HP.
    apply Forall_cons in HP as [HP1 HP]. apply Forall_cons in HP as [HP2 HP].
    apply (IH (push weqb wltb m2 (fromTwoTrees wadd t1 t2))); [|exact Hloop].
    rewrite push_perm. apply Forall_cons. split; [apply Hmerge; assumption|exact HP].
Qed.

(** The loop keeps the items at the leaves. *)
Lemma merge_loop_items fuel m m' :
  merge_loop wadd weqb wltb fuel m = Ok m' ->
  flat_map leaf_items m' ≡ₚ flat_map leaf_items m.
Proof.
  revert m. induction fuel as [|fuel IH]; intros m Hloop; cbn [merge_loop] in Hloop.
  - injection Hloop as <-. reflexivity.
  - case_bool_decide as Hsize; [|injection Hloop as <-; reflexivity].
    destruct (merge_step weqb wltb m Hsize) as (t1 & m1 & t2 & m2 & H1 & H2 & P12).
    rewrite H1 in Hloop. cbn [bind] in Hloop.
    rewrite H2 in Hloop. cbn [bind] in Hloop.
    rewrite (IH _ Hloop), push_perm, P12. simpl. rewrite app_assoc. reflexivity.
Qed.

(** The tree of a code is what the loop leaves in the heap. *)
Lemma init_tree frequencyTable self :
  HuffmanCode_init wadd weqb wltb frequencyTable = Ok self ->
  merge_loop wadd weqb wltb
    (size (MinHeapWrapper_init weqb wltb (map (fun '(b, f) => Leaf f b) frequencyTable)))
    (MinHeapWrapper_init weqb wltb (map (fun '(b, f) => Leaf f b) frequencyTable))
  = Ok [tree self].
Proof.
  intros Hinit.
  assert (Hne : frequencyTable <> []).
  { intros ->. rewrite init_empty in Hinit. discriminate. }
  unfold HuffmanCode_init in Hinit.
  set (heap := map (fun '(b, f) => Leaf f b) frequencyTable) in *.
  set (m := MinHeapWrapper_init weqb wltb heap) in *.
  assert (Pm : m ≡ₚ heap) by apply heapify_perm.
  destruct (merge_loop_spec wadd weqb wltb (size m) m) as (t & Hloop & _).
  { intros E. rewrite E in Pm. apply Permutation_nil in Pm.
    subst heap. destruct frequencyTable; [contradiction|discriminate]. }
  { lia. }
  rewrite Hloop in Hinit |- *. cbn [bind] in Hinit.
  rewrite popMin_singleton in Hinit. cbn [bind] in Hinit.
  destruct (search_tree t [] (replicate 256 [])) as [code|e]; [|discriminate].
  cbn [bind] in Hinit. injection Hinit as <-. reflexivity.
Qed.

Lemma leaf_items_of_table frequencyTable :
  flat_map leaf_items (map (fun '(b, f) => Leaf f b) frequencyTable) = frequencyTable.
Proof.
  induction frequencyTable as [|[b f] table IH]; simpl; [reflexivity|].
  rewrite IH. reflexivity.
Qed.

Lemma init_weights frequencyTable self :
  HuffmanCode_init wadd weqb wltb frequencyTable = Ok self ->
  well_weighted wadd (tree self) /\
  leaf_items (tree self) ≡ₚ frequencyTable.
Proof.
  intros Hinit. apply init_tree in Hinit.
  set (heap := map (fun '(b, f) => Leaf f b) frequencyTable) in *.
  set (m := MinHeapWrapper_init weqb wltb heap) in *.
  assert (Pm : m ≡ₚ heap) by apply heapify_perm.
  split.
  - assert (H : Forall (well_weighted wadd) [tree self]).
    { apply (merge_loop_Forall _ (size m) m); [| |exact Hinit].
      - intros t1 t2 H1 H2. cbn [fromTwoTrees well_weighted]. auto.
      - rewrite Pm. subst heap. apply Forall_forall. intros t Hin.
        apply list_elem_of_fmap in Hin as ([b f] & -> & _). exact I. }
    apply Forall_cons in H as [H _]. exact H.
  - pose proof (merge_loop_items _ _ _ Hinit) as P.
    simpl in P. rewrite app_nil_r in P. rewrite P, Pm. subst heap.
    rewrite leaf_items_of_table. reflexivity.
Qed.

(** X11.  The weights in the tree: the leaves carry the items of the
    table, each once and with the weight the table gives it, and every
    internal node carries the sum, by the addition of the weights, of the
    weights of its two children. *)
Theorem tree_weights frequencyTable self :
  HuffmanCode_init wadd weqb wltb frequencyTable = Ok self ->
  well_weighted wadd (tree self) /\
  leaf_items (tree self) ≡ₚ frequencyTable /\
  map fst (leaf_items (tree self)) = leaves (tree self).
Proof.
  intros Hinit. destruct (init_weights _ _ Hinit) as [Hw Hitems].
  split; [exact Hw|]. split; [exact Hitems|].
  clear. induction (tree self) as [f s|f l IHl r IHr]; simpl; [reflexivity|].
  rewrite map_app, IHl, IHr. reflexivity.
Qed.

End weight_facts.

(** ** The order on trees, the heap, and the order of the table *)

Section order_facts.
Context {W : Type}.
Variable wadd : W -> W -> W.
Variable weqb : W -> W -> bool.
Variable wltb : W -> W -> bool.
Hypothesis Horder : weight_order weqb wltb.
Implicit Types (t : PrefixTree (W := W)) (m : MinHeapWrapper (W := W)).
Implicit Types (self : HuffmanCode (W := W)) (frequencyTable : list (byte * W)).

Local Abbreviation lt := (PrefixTree_lt weqb wltb).
Local Abbreviation is_heap := (heapq.is_heap (PrefixTree_lt weqb wltb)).

Lemma PrefixTree_lt_irrefl t : lt t t = false.
Proof.
  destruct (lt t t) eqn:E; [|reflexivity].
  pose proof (PrefixTree_lt_asym _ _ Horder _ _ E). congruence.
Qed.

Lemma PrefixTree_lt_trans t1 t2 t3 :
  lt t1 t2 = true -> lt t2 t3 = true -> lt t1 t3 = true.
Proof.
  intros H12 H23. destruct (lt t1 t3) eqn:H13; [reflexivity|].
  pose proof (PrefixTree_lt_asym _ _ Horder _ _ H12) as H21.
  pose proof (PrefixTree_le_trans _ _ Horder t3 t1 t2 H13 H21). congruence.
Qed.

(** X13.  With weights totally ordered by [<] up to [==], [__lt__] is a
    strict weak order on trees: irreflexive, asymmetric and transitive, and
    so is its complement; two trees that it does not separate have weights
    equal for [==] and the same smallest symbol, so that trees with no leaf
    in common are always separated. *)
Theorem PrefixTree_lt_order :
  (forall t, lt t t = false) /\
  (forall t1 t2, lt t1 t2 = true -> lt t2 t1 = false) /\
  (forall t1 t2 t3, lt t1 t2 = true -> lt t2 t3 = true -> lt t1 t3 = true) /\
  (forall t1 t2 t3, lt t2 t1 = false -> lt t3 t2 = false -> lt t3 t1 = false) /\
  (forall t1 t2, lt t1 t2 = false -> lt t2 t1 = false ->
     weqb (key t1) (key t2) = true /\ smallest_symbol t1 = smallest_symbol t2) /\
  (forall t1 t2, (forall b, b ∈ leaves t1 -> b ∈ leaves t2 -> False) ->
     lt t1 t2 = true \/ lt t2 t1 = true).
Proof.
  split; [exact PrefixTree_lt_irrefl|].
  split; [exact (PrefixTree_lt_asym _ _ Horder)|].
  split; [exact PrefixTree_lt_trans|].
  split; [exact (PrefixTree_le_trans _ _ Horder)|]. split.
  - intros t1 t2 H12 H21.
    split; [|exact (PrefixTree_lt_total _ _ Horder _ _ H12 H21)].
    rewrite PrefixTree_lt_smallest in H12, H21.
    destruct (weqb (key t1) (key t2)) eqn:E; [reflexivity|].
    rewrite (weqb_sym_eq _ _ Horder (key t2)), E in H21.
    rewrite (wlt_total _ _ Horder _ _ E H12) in H21. discriminate.
  - intros t1 t2 Hdisj. destruct (lt t2 t1) eqn:H21; [right; reflexivity|].
    left. exact (PrefixTree_lt_disjoint _ _ Horder _ _ Hdisj H21).
Qed.

(** X14.  [MinHeapWrapper] is a priority queue for [__lt__]: the
    constructor and [push] keep the list in heap order and lose or add no
    tree; [popMin] raises [IndexError] on the empty heap and otherwise
    removes one tree, which no tree of the heap is less than, and leaves a
    heap. *)
Theorem MinHeapWrapper_queue :
  (forall unsortedTrees,
     is_heap (MinHeapWrapper_init weqb wltb unsortedTrees) /\
     MinHeapWrapper_init weqb wltb unsortedTrees ≡ₚ unsortedTrees) /\
  (forall m t, is_heap m ->
     is_heap (push weqb wltb m t) /\ push weqb wltb m t ≡ₚ t :: m) /\
  (forall m, isEmpty m = true -> popMin weqb wltb m = Raise IndexError) /\
  (forall m, is_heap m -> isEmpty m = false ->
     exists t m',
       popMin weqb wltb m = Ok (t, m') /\
       m ≡ₚ t :: m' /\ size m = S (size m') /\ is_heap m' /\
       forall t', t' ∈ m -> lt t' t = false).
Proof.
  split; [|split; [|split]].
  - intros ts. split; [|apply heapify_perm].
    apply heapify_is_heap;
      [exact (PrefixTree_lt_asym _ _ Horder)|exact (PrefixTree_le_trans _ _ Horder)].
  - intros m t Hheap. split; [|apply push_perm].
    apply heappush_is_heap;
      [exact (PrefixTree_lt_asym _ _ Horder)|exact (PrefixTree_le_trans _ _ Horder)
      |exact Hheap].
  - intros m Hm. unfold isEmpty in Hm. apply bool_decide_eq_true_1 in Hm.
    destruct m; [reflexivity|discriminate].
  - intros m Hheap Hm. unfold isEmpty in Hm. apply bool_decide_eq_false_1 in Hm.
    destruct (popMin_nonempty weqb wltb m) as (t & m' & Hpop).
    { intros ->. apply Hm. reflexivity. }
    pose proof (popMin_perm weqb wltb _ _ _ Hpop) as P.
    destruct (heappop_is_heap _ (PrefixTree_lt_asym _ _ Horder)
                (PrefixTree_le_trans _ _ Horder) _ _ _ Hheap Hpop) as [Hheap' Hmin].
    exists t, m'. split; [exact Hpop|]. split; [exact P|].
    split; [unfold size; rewrite P; reflexivity|]. split; [exact Hheap'|].
    intros t' Hin. rewrite P in Hin. apply elem_of_cons in Hin as [->|Hin].
    + apply PrefixTree_lt_irrefl.
    + apply Hmin, Hin.
Qed.

(** Two heaps with the same trees, no symbol at two leaves, give the same
    tree to [popMin]. *)
Lemma popMin_same m1 m2 t1 m1' t2 m2' :
  is_heap m1 -> is_heap m2 -> m1 ≡ₚ m2 ->
  NoDup (flat_map leaves m1) ->
  popMin weqb wltb m1 = Ok (t1, m1') ->
  popMin weqb wltb m2 = Ok (t2, m2') ->
  t1 = t2 /\ m1' ≡ₚ m2'.
Proof.
  intros Hheap1 Hheap2 P Hnd Hpop1 Hpop2.
  pose proof (popMin_perm weqb wltb _ _ _ Hpop1) as P1.
  pose proof (popMin_perm weqb wltb _ _ _ Hpop2) as P2.
  destruct (heappop_is_heap _ (PrefixTree_lt_asym _ _ Horder)
              (PrefixTree_le_trans _ _ Horder) _ _ _ Hheap1 Hpop1) as [_ Hmin1].
  destruct (heappop_is_heap _ (PrefixTree_lt_asym _ _ Horder)
              (PrefixTree_le_trans _ _ Horder) _ _ _ Hheap2 Hpop2) as [_ Hmin2].
  assert (Hin : t2 ∈ t1 :: m1').
  { rewrite <- P1, P, P2. apply list_elem_of_here. }
  assert (E : t1 = t2).
  { apply elem_of_cons in Hin as [->|Hin]; [reflexivity|]. exfalso.
    assert (Hin' : t1 ∈ t2 :: m2').
    { rewrite <- P2, <- P, P1. apply list_elem_of_here. }
    apply elem_of_cons in Hin' as [->|Hin'].
    { rewrite P1 in Hnd. simpl in Hnd. apply NoDup_app in Hnd as (_ & Hdisj & _).
      destruct (leaves t2) as [|b bs] eqn:Hb.
      - exact (leaves_nonempty _ Hb).
      - apply (Hdisj b); [apply list_elem_of_here|].
        apply list_elem_of_In, in_flat_map. exists t2.
        split; [apply list_elem_of_In, Hin|rewrite Hb; left; reflexivity]. }
    pose proof (Hmin1 _ Hin) as H21. pose proof (Hmin2 _ Hin') as H12.
    unfold heapq.le in H21, H12.
    pose proof (PrefixTree_lt_total _ _ Horder _ _ H12 H21) as Hs.
    destruct (smallest_symbol_leaf t1) as (b1 & Hin1 & Hb1).
    destruct (smallest_symbol_leaf t2) as (b2 & Hin2 & Hb2).
    assert (b1 = b2) as -> by (apply int_from_bytes_inj; congruence).
    rewrite P1 in Hnd. simpl in Hnd. apply NoDup_app in Hnd as (_ & Hdisj & _).
    apply (Hdisj b2 Hin1).
    apply list_elem_of_In, in_flat_map. exists t2.
    split; [apply list_elem_of_In, Hin|apply list_elem_of_In, Hin2]. }
  split; [exact E|]. subst t2.
  apply (Permutation_cons_inv (a := t1)). rewrite <- P1, <- P2. exact P.
Qed.

(** The loop of [__init__] does not depend on the order of the heap it
    starts from. *)
Lemma merge_loop_same fuel m1 m2 r1 r2 :
  is_heap m1 -> is_heap m2 -> m1 ≡ₚ m2 ->
  NoDup (flat_map leaves m1) ->
  merge_loop wadd weqb wltb fuel m1 = Ok r1 ->
  merge_loop wadd weqb wltb fuel m2 = Ok r2 ->
  r1 ≡ₚ r2.
Proof.
  revert m1 m2. induction fuel as [|fuel IH]; intros m1 m2 Hheap1 Hheap2 P Hnd H1 H2;
    cbn [merge_loop] in H1, H2.
  - injection H1 as <-. injection H2 as <-. exact P.
  - assert (Hsize : size m1 = size m2) by (unfold size; rewrite P; reflexivity).
    rewrite <- Hsize in H2.
    case_bool_decide as Hgt; [|injection H1 as <-; injection H2 as <-; exact P].
    destruct (merge_step weqb wltb m1 Hgt) as (a1 & n1 & b1 & k1 & Ha1 & Hb1 & P1).
    destruct (merge_step weqb wltb m2 ltac:(lia)) as (a2 & n2 & b2 & k2 & Ha2 & Hb2 & P2).
    rewrite Ha1 in H1. cbn [bind] in H1. rewrite Hb1 in H1. cbn [bind] in H1.
    rewrite Ha2 in H2. cbn [bind] in H2. rewrite Hb2 in H2. cbn [bind] in H2.
    destruct (heappop_is_heap _ (PrefixTree_lt_asym _ _ Horder)
                (PrefixTree_le_trans _ _ Horder) _ _ _ Hheap1 Ha1) as [Hn1 _].
    destruct (heappop_is_heap _ (PrefixTree_lt_asym _ _ Horder)
                (PrefixTree_le_trans _ _ Horder) _ _ _ Hheap2 Ha2) as [Hn2 _].
    destruct (heappop_is_heap _ (PrefixTree_lt_asym _ _ Horder)
                (PrefixTree_le_trans _ _ Horder) _ _ _ Hn1 Hb1) as [Hk1 _].
    destruct (heappop_is_heap _ (PrefixTree_lt_asym _ _ Horder)
                (PrefixTree_le_trans _ _ Horder) _ _ _ Hn2 Hb2) as [Hk2 _].
    destruct (popMin_same _ _ _ _ _ _ Hheap1 Hheap2 P Hnd Ha1 Ha2) as [<- Pn].
    assert (Hndn : NoDup (flat_map leaves n1)).
    { rewrite (popMin_perm weqb wltb _ _ _ Ha1) in Hnd. simpl in Hnd.
      apply NoDup_app in Hnd as (_ & _ & Hnd). exact Hnd. }
    destruct (popMin_same _ _ _ _ _ _ Hn1 Hn2 Pn Hndn Hb1 Hb2) as [<- Pk].
    apply (IH (push weqb wltb k1 (fromTwoTrees wadd a1 b1))
              (push weqb wltb k2 (fromTwoTrees wadd a1 b1))); [| | | |exact H1|exact H2].
    + apply heappush_is_heap;
        [exact (PrefixTree_lt_asym _ _ Horder)|exact (PrefixTree_le_trans _ _ Horder)
        |exact Hk1].
    + apply heappush_is_heap;
        [exact (PrefixTree_lt_asym _ _ Horder)|exact (PrefixTree_le_trans _ _ Horder)
        |exact Hk2].
    + rewrite !push_perm, Pk. reflexivity.
    + rewrite push_perm. rewrite P1 in Hnd. simpl in Hnd |- *.
      rewrite <- app_assoc. exact Hnd.
Qed.

(** X15.  The code does not depend on the order in which the table lists
    its items: with weights totally ordered by [<] up to [==] and distinct
    keys, two tables with the same items give the same tree and the same
    codewords. *)
Theorem table_order_irrelevant frequencyTable1 frequencyTable2 :
  distinct (map fst frequencyTable1) = true ->
  frequencyTable1 ≡ₚ frequencyTable2 ->
  HuffmanCode_init wadd weqb wltb frequencyTable1 =
  HuffmanCode_init wadd weqb wltb frequencyTable2.
Proof.
  intros Hkeys P.
  destruct frequencyTable1 as [|kv1 table1].
  { apply Permutation_nil in P. subst. reflexivity. }
  destruct frequencyTable2 as [|kv2 table2].
  { symmetry in P. apply Permutation_nil in P. discriminate. }
  destruct (init_spec wadd weqb wltb (kv1 :: table1)) as (self1 & Hinit1 & _);
    [discriminate|].
  destruct (init_spec wadd weqb wltb (kv2 :: table2)) as (self2 & Hinit2 & _);
    [discriminate|].
  pose proof (init_tree _ _ _ _ _ Hinit1) as H1.
  pose proof (init_tree _ _ _ _ _ Hinit2) as H2.
  set (heap1 := map (fun '(b, f) => Leaf f b) (kv1 :: table1)) in *.
  set (heap2 := map (fun '(b, f) => Leaf f b) (kv2 :: table2)) in *.
  set (m1 := MinHeapWrapper_init weqb wltb heap1) in *.
  set (m2 := MinHeapWrapper_init weqb wltb heap2) in *.
  assert (Pm1 : m1 ≡ₚ heap1) by apply heapify_perm.
  assert (Pm2 : m2 ≡ₚ heap2) by apply heapify_perm.
  assert (Pm : m1 ≡ₚ m2).
  { rewrite Pm1, Pm2. subst heap1 heap2. apply Permutation_map. exact P. }
  assert (Hsize : size m2 = size m1) by (unfold size; rewrite Pm; reflexivity).
  rewrite Hsize in H2.
  assert (E : [tree self1] ≡ₚ [tree self2]).
  { apply (merge_loop_same (size m1) m1 m2); [| |exact Pm| |exact H1|exact H2].
    - apply heapify_is_heap;
        [exact (PrefixTree_lt_asym _ _ Horder)|exact (PrefixTree_le_trans _ _ Horder)].
    - apply heapify_is_heap;
        [exact (PrefixTree_lt_asym _ _ Horder)|exact (PrefixTree_le_trans _ _ Horder)].
    - rewrite Pm1. subst heap1. rewrite leaves_of_table.
      apply distinct_NoDup, Hkeys. }
  apply Permutation_singleton_inj in E.
  unfold HuffmanCode_init. fold heap1 heap2. fold m1 m2.
  rewrite <- Hsize in H2. rewrite H1, H2, E. reflexivity.
Qed.

End order_facts.

(** ** Instances of the properties above *)

(** X3 at the training sequence ["AB"] on floats, for the sequence ["BAZ"]. *)
Lemma train_encode_decode_witness :
  [x41; x42] <> [] /\
  exists frequencyTable self bits,
    occurrences2frequencies float_div_int (makeOccurrencesTable [x41; x42])
      = Ok frequencyTable /\
    HuffmanCode_init PrimFloat.add PrimFloat.eqb PrimFloat.ltb frequencyTable = Ok self /\
    encode self [x42; x41; x5a] = Ok bits /\
    decode (length bits) self bits = Some (Ok [x42; x41; x5a]).
Proof.
  split; [discriminate|].
  apply (train_encode_decode PrimFloat.add PrimFloat.eqb PrimFloat.ltb float_div_int
           [x41; x42] [x42; x41; x5a]).
  discriminate.
Defined.

(** X6 at the table [{A, B, C}], for the sequence ["AZB"]. *)
Lemma unknown_symbols_dropped_witness :
  2 <= length ABC_table /\
  HuffmanCode_init Qplus Qeq_bool Qltb ABC_table = Ok (code_of ABC_table) /\
  exists bits,
    encode (code_of ABC_table) [x41; x5a; x42] = Ok bits /\
    decode (length bits) (code_of ABC_table) bits =
      Some (Ok (filter (fun x => x ∈ map fst ABC_table) [x41; x5a; x42])).
Proof.
  split; [simpl; lia|]. split; [vm_compute; reflexivity|].
  apply (unknown_symbols_dropped Qplus Qeq_bool Qltb ABC_table (code_of ABC_table)
           [x41; x5a; x42]).
  - simpl. lia.
  - vm_compute. reflexivity.
Defined.

(** X7 at the table [{X: 1}], for the bits 01: the payload is the bit 0. *)
Lemma single_entry_decode_diverges_witness :
  length [(x58, 1%Q)] = 1 /\
  HuffmanCode_init Qplus Qeq_bool Qltb [(x58, 1%Q)] = Ok (code_of [(x58, 1%Q)]) /\
  removePadding [false; true] = Ok [false] /\
  [false] <> ([] : BitStream) /\
  decode 1000 (code_of [(x58, 1%Q)]) [false; true] = None.
Proof.
  split; [reflexivity|]. split; [vm_compute; reflexivity|].
  split; [reflexivity|]. split; [discriminate|].
  apply (single_entry_decode_diverges Qplus Qeq_bool Qltb [(x58, 1%Q)]
           (code_of [(x58, 1%Q)]) [false; true] [false] 1000).
  - reflexivity.
  - vm_compute. reflexivity.
  - reflexivity.
  - discriminate.
Defined.

(** X8 at the table [{A, B, C}], for the byte 10110000. *)
Lemma decode_terminates_witness :
  2 <= length ABC_table /\
  HuffmanCode_init Qplus Qeq_bool Qltb ABC_table = Ok (code_of ABC_table) /\
  (decode (length [true; false; true; true; false; false; false; false])
     (code_of ABC_table) [true; false; true; true; false; false; false; false]
     = Some (Raise IndexError) \/
   exists out,
     decode (length [true; false; true; true; false; false; false; false])
       (code_of ABC_table) [true; false; true; true; false; false; false; false]
       = Some (Ok out) /\
     length out < length [true; false; true; true; false; false; false; false]).
Proof.
  split; [simpl; lia|]. split; [vm_compute; reflexivity|].
  apply (decode_terminates Qplus Qeq_bool Qltb ABC_table (code_of ABC_table)
           [true; false; true; true; false; false; false; false]).
  - simpl. lia.
  - vm_compute. reflexivity.
Defined.

(** X9 at the table [{A, B, C}]. *)
Lemma encode_length_witness :
  HuffmanCode_init Qplus Qeq_bool Qltb ABC_table = Ok (code_of ABC_table) /\
  (forall (x : byte) c,
     codewordFor (code_of ABC_table) x = Ok c -> length c < length ABC_table) /\
  (forall plaintextBytes, exists bits,
     encode (code_of ABC_table) plaintextBytes = Ok bits /\
     length bits mod 8 = 0 /\
     0 < length bits <= (length ABC_table - 1) * length plaintextBytes + 8).
Proof.
  split; [vm_compute; reflexivity|].
  apply (encode_length Qplus Qeq_bool Qltb ABC_table (code_of ABC_table)).
  vm_compute. reflexivity.
Defined.

(** X10 at the table [{A, B, C}] (C = 0, A = 10, B = 11), for the byte
    01011100, which decodes to ["CAB"]. *)
Lemma encode_decode_witness :
  distinct (map fst ABC_table) = true /\
  HuffmanCode_init Qplus Qeq_bool Qltb ABC_table = Ok (code_of ABC_table) /\
  removePadding [false; true; false; true; true; true; false; false]
    = Ok [false; true; false; true; true] /\
  decode 8 (code_of ABC_table) [false; true; false; true; true; true; false; false]
    = Some (Ok [x43; x41; x42]) /\
  encode (code_of ABC_table) [x43; x41; x42] =
    Ok ([false; true; false; true; true] ++
        paddingSuitableFor [false; true; false; true; true]).
Proof.
  split; [reflexivity|]. split; [vm_compute; reflexivity|].
  split; [reflexivity|]. split; [vm_compute; reflexivity|].
  apply (encode_decode Qplus Qeq_bool Qltb ABC_table (code_of ABC_table)
           [false; true; false; true; true; true; false; false]
           [false; true; false; true; true] [x43; x41; x42] 8).
  - reflexivity.
  - vm_compute. reflexivity.
  - reflexivity.
  - vm_compute. reflexivity.
Defined.

(** X11 at the table [{A, B, C}]. *)
Lemma tree_weights_witness :
  HuffmanCode_init Qplus Qeq_bool Qltb ABC_table = Ok (code_of ABC_table) /\
  well_weighted Qplus (tree (code_of ABC_table)) /\
  leaf_items (tree (code_of ABC_table)) ≡ₚ ABC_table /\
  map fst (leaf_items (tree (code_of ABC_table))) = leaves (tree (code_of ABC_table)).
Proof.
  split; [vm_compute; reflexivity|].
  apply (tree_weights Qplus Qeq_bool Qltb ABC_table (code_of ABC_table)).
  vm_compute. reflexivity.
Defined.

(** X13 on exact weights. *)
Lemma PrefixTree_lt_order_witness :
  weight_order Qeq_bool Qltb /\
  (forall t, PrefixTree_lt Qeq_bool Qltb t t = false) /\
  (forall t1 t2,
     PrefixTree_lt Qeq_bool Qltb t1 t2 = true -> PrefixTree_lt Qeq_bool Qltb t2 t1 = false) /\
  (forall t1 t2 t3,
     PrefixTree_lt Qeq_bool Qltb t1 t2 = true -> PrefixTree_lt Qeq_bool Qltb t2 t3 = true ->
     PrefixTree_lt Qeq_bool Qltb t1 t3 = true) /\
  (forall t1 t2 t3,
     PrefixTree_lt Qeq_bool Qltb t2 t1 = false -> PrefixTree_lt Qeq_bool Qltb t3 t2 = false ->
     PrefixTree_lt Qeq_bool Qltb t3 t1 = false) /\
  (forall t1 t2,
     PrefixTree_lt Qeq_bool Qltb t1 t2 = false -> PrefixTree_lt Qeq_bool Qltb t2 t1 = false ->
     Qeq_bool (key t1) (key t2) = true /\ smallest_symbol t1 = smallest_symbol t2) /\
  (forall t1 t2, (forall b, b ∈ leaves t1 -> b ∈ leaves t2 -> False) ->
     PrefixTree_lt Qeq_bool Qltb t1 t2 = true \/ PrefixTree_lt Qeq_bool Qltb t2 t1 = true).
Proof.
  split; [exact Q_weight_order|].
  apply (PrefixTree_lt_order Qeq_bool Qltb Q_weight_order).
Defined.

(** X14 on exact weights. *)
Lemma MinHeapWrapper_queue_witness :
  weight_order Qeq_bool Qltb /\
  (forall unsortedTrees,
     heapq.is_heap (PrefixTree_lt Qeq_bool Qltb)
       (MinHeapWrapper_init Qeq_bool Qltb unsortedTrees) /\
     MinHeapWrapper_init Qeq_bool Qltb unsortedTrees ≡ₚ unsortedTrees) /\
  (forall m t, heapq.is_heap (PrefixTree_lt Qeq_bool Qltb) m ->
     heapq.is_heap (PrefixTree_lt Qeq_bool Qltb) (push Qeq_bool Qltb m t) /\
     push Qeq_bool Qltb m t ≡ₚ t :: m) /\
  (forall m : MinHeapWrapper (W := Q),
     isEmpty m = true -> popMin Qeq_bool Qltb m = Raise IndexError) /\
  (forall m, heapq.is_heap (PrefixTree_lt Qeq_bool Qltb) m -> isEmpty m = false ->
     exists t m',
       popMin Qeq_bool Qltb m = Ok (t, m') /\
       m ≡ₚ t :: m' /\ size m = S (size m') /\
       heapq.is_heap (PrefixTree_lt Qeq_bool Qltb) m' /\
       forall t', t' ∈ m -> PrefixTree_lt Qeq_bool Qltb t' t = false).
Proof.
  split; [exact Q_weight_order|].
  apply (MinHeapWrapper_queue Qeq_bool Qltb Q_weight_order).
Defined.

(** X15 at the table [{A, B, C}] and the same table listed as B, A, C. *)
Lemma table_order_irrelevant_witness :
  weight_order Qeq_bool Qltb /\
  distinct (map fst ABC_table) = true /\
  ABC_table ≡ₚ [(x42, (1 # 3)%Q); (x41, (1 # 3)%Q); (x43, (1 # 3)%Q)] /\
  HuffmanCode_init Qplus Qeq_bool Qltb ABC_table =
  HuffmanCode_init Qplus Qeq_bool Qltb
    [(x42, (1 # 3)%Q); (x41, (1 # 3)%Q); (x43, (1 # 3)%Q)].
Proof.
  split; [exact Q_weight_order|]. split; [reflexivity|].
  split; [apply perm_swap|].
  apply (table_order_irrelevant Qplus Qeq_bool Qltb Q_weight_order ABC_table
           [(x42, (1 # 3)%Q); (x41, (1 # 3)%Q); (x43, (1 # 3)%Q)]).
  - reflexivity.
  - apply perm_swap.
Defined.
